(** * CompanySummery: browser pool, readiness pipeline, image transform

    A shallow embedding of the Python services under [app/services] and of
    the two routes that call them, with the properties of the written
    specification stated and proved against it.

    - [PyFloat]     : the two float products of [_classify_images], written
                      out on integers (binary64, round to nearest even);
    - [Images]      : [_filter_images], [_classify_images], the truncation
                      and the counters of [extract_images];
    - [Probe]       : the in-page script [WAIT_FOR_CONTENT_JS];
    - [Effects]     : coroutines as finite trees of awaited operations, with
                      [try/except], [try/finally], [asyncio.wait_for];
    - [Pool]        : [BrowserPool];
    - [Capture], [Extract], [Routes] : the two operations and their routes;
    - [Security]    : [validate_url];
    - [Requests], [ImageRoutes] : the request models and the image route;
    - [Scroll]      : the in-page script [AUTO_SCROLL_JS];
    - [Concurrent]  : interleaved execution of several requests. *)

From Stdlib Require Import ZArith List Ascii String Bool Lia Arith.
Import ListNotations.
Local Open Scope string_scope.
Local Open Scope list_scope.
Local Open Scope Z_scope.

Set Implicit Arguments.

(* ================================================================== *)
(** * Configuration ([app/config.py]) *)

Record Settings := {
  screenshot_operation_timeout : Z;
  screenshot_page_navigation_timeout : Z;
  screenshot_capture_timeout : Z;
  screenshot_max_concurrent : Z;
  screenshot_post_load_delay : Z;
  image_extraction_timeout : Z;
  image_min_width : Z;
  image_min_height : Z
}.

(** The defaults of [class Settings]. *)
Definition default_settings : Settings := {|
  screenshot_operation_timeout := 300000;
  screenshot_page_navigation_timeout := 60000;
  screenshot_capture_timeout := 60000;
  screenshot_max_concurrent := 3;
  screenshot_post_load_delay := 5000;
  image_extraction_timeout := 60000;
  image_min_width := 100;
  image_min_height := 100
|}.

(* ================================================================== *)
(** * Python floats, as far as [_classify_images] needs them

    [vh * 0.2] and [vw * 0.5] multiply an [int] by a [float]: the integer is
    converted to binary64, the product is rounded to nearest, ties to even,
    and the comparison of the result with an [int] is exact.  A finite
    binary64 value is kept as [dmant * 2 ^ dexp].  Exponent overflow and
    subnormals are not represented: they need an operand beyond [2 ^ 1023]
    or a product below [2 ^ -1022], and the products here are of an integer
    with [0.2] or [0.5]. *)

Module PyFloat.

Record dyadic := Dy { dmant : Z; dexp : Z }.

(** Round [m * 2 ^ e] to a 53-bit significand, nearest, ties to even. *)
Definition round53 (m e : Z) : dyadic :=
  let a := Z.abs m in
  let sh := Z.log2 a - 52 in
  if sh <=? 0 then Dy m e
  else
    let q := Z.shiftr a sh in
    let r := a - Z.shiftl q sh in
    let half := Z.shiftl 1 (sh - 1) in
    let q' := if r <? half then q
              else if half <? r then q + 1
              else if Z.even q then q else q + 1 in
    Dy (Z.sgn m * q') (e + sh).

Definition of_int (v : Z) : dyadic := round53 v 0.

Definition mul (a b : dyadic) : dyadic :=
  round53 (dmant a * dmant b) (dexp a + dexp b).

(** The literals [0.2] (0x3FC999999999999A) and [0.5]. *)
Definition lit_0_2 : dyadic := Dy 3602879701896397 (-54).
Definition lit_0_5 : dyadic := Dy 1 (-1).

(** [int * float] *)
Definition int_mul (v : Z) (f : dyadic) : dyadic := mul (of_int v) f.

(** [int < float] and [int > float], exact. *)
Definition int_lt (v : Z) (f : dyadic) : bool :=
  if 0 <=? dexp f then v <? dmant f * 2 ^ dexp f
  else v * 2 ^ (- dexp f) <? dmant f.

Definition int_gt (v : Z) (f : dyadic) : bool :=
  if 0 <=? dexp f then dmant f * 2 ^ dexp f <? v
  else dmant f <? v * 2 ^ (- dexp f).

End PyFloat.

(* ================================================================== *)
(** * The image transform ([image_extraction_service.py]) *)

Module Images.

(** One entry of [allImages], as [EXTRACT_IMAGES_JS] builds it. *)
Record Position := { x : Z; y : Z; visible : bool }.

Record RawImage := {
  src : string;
  srcset : option string;
  alt : string;
  width : Z;
  height : Z;
  format : string;
  position : Position;
  containsLogo : bool;
  containsProductKeywords : bool;
  inHeader : bool;
  isLazyLoaded : bool;
  className : string;
  parentTag : option string
}.

Record PageContext := {
  viewportWidth : Z;
  viewportHeight : Z;
  scrollHeight : Z
}.

Record ImageData := {
  allImages : list RawImage;
  pageContext : PageContext;
  lazyLoadedCount : Z
}.

(** [src.startswith("data:")] *)
Definition startswith (p s : string) : bool := String.prefix p s.

(** [not src]: the empty string is the only falsy [str]. *)
Definition py_not_str (s : string) : bool :=
  match s with EmptyString => true | _ => false end.

(** [_filter_images]: the loop with its three [continue]s. *)
Fixpoint _filter_images (images : list RawImage) (min_width min_height : Z)
  : list RawImage :=
  match images with
  | [] => []
  | img :: rest =>
      let result := _filter_images rest min_width min_height in
      if (width img <? min_width) || (height img <? min_height) then result
      else if (width img =? 1) && (height img =? 1) then result
      else if py_not_str (src img) || startswith "data:" (src img) then result
      else img :: result
  end.

Inductive Classification := hero | logo | product | icon | thumbnail | content.

Definition label (c : Classification) : string :=
  match c with
  | hero => "hero" | logo => "logo" | product => "product"
  | icon => "icon" | thumbnail => "thumbnail" | content => "content"
  end.

(** The five tests of the [if]/[elif] chain, each as the source writes it. *)
Definition hero_test (img : RawImage) (vw vh : Z) : bool :=
  PyFloat.int_lt (y (position img)) (PyFloat.int_mul vh PyFloat.lit_0_2)
  && PyFloat.int_gt (width img) (PyFloat.int_mul vw PyFloat.lit_0_5)
  && (400 <? height img).

Definition logo_test (img : RawImage) : bool :=
  containsLogo img && inHeader img && (width img <? 300).

Definition product_test (img : RawImage) : bool :=
  (300 <=? width img) && (200 <=? height img) && containsProductKeywords img.

Definition icon_test (img : RawImage) : bool :=
  (width img <? 100) && (height img <? 100).

Definition thumbnail_test (img : RawImage) : bool :=
  ((100 <=? width img) && (width img <? 400))
  && ((100 <=? height img) && (height img <? 400)).

Definition classify (img : RawImage) (vw vh : Z) : Classification :=
  if hero_test img vw vh then hero
  else if logo_test img then logo
  else if product_test img then product
  else if icon_test img then icon
  else if thumbnail_test img then thumbnail
  else content.

Module Extracted.
Record Image := {
  src : string;
  srcset : option string;
  alt : string;
  width : Z;
  height : Z;
  format : string;
  position : Position;
  classification : string;
  isLazyLoaded : bool
}.
End Extracted.

Definition _classify_images (images : list RawImage) (page_context : PageContext)
  : list Extracted.Image :=
  let vw := viewportWidth page_context in
  let vh := viewportHeight page_context in
  map (fun img =>
         {| Extracted.src := src img;
            Extracted.srcset := srcset img;
            Extracted.alt := alt img;
            Extracted.width := width img;
            Extracted.height := height img;
            Extracted.format := format img;
            Extracted.position := position img;
            Extracted.classification := label (classify img vw vh);
            Extracted.isLazyLoaded := isLazyLoaded img |})
      images.

(** [l[:n]] with Python's reading of a negative bound. *)
Definition slice_to {A : Type} (l : list A) (n : Z) : list A :=
  if 0 <=? n then firstn (Z.to_nat n) l
  else firstn (Z.to_nat (Z.of_nat (List.length l) + n)) l.

(** What [_do_extract] does with the result of the in-page query. *)
Record DoExtractResult := {
  images : list Extracted.Image;
  filtered_count : Z;
  lazy_loaded_count : Z
}.

Definition transform (image_data : ImageData)
    (min_width min_height max_images : Z) : DoExtractResult :=
  let all_images := allImages image_data in
  let page_context := pageContext image_data in
  let filtered := _filter_images all_images min_width min_height in
  let limited := slice_to filtered max_images in
  let classified := _classify_images limited page_context in
  {| images := classified;
     filtered_count := Z.of_nat (List.length all_images) - Z.of_nat (List.length filtered);
     lazy_loaded_count := lazyLoadedCount image_data |}.

(** The dictionary [extract_images] returns. *)
Record Metadata := {
  processingTime : Z;
  totalImages : Z;
  filteredOut : Z;
  lazyLoadedCountOut : Z;
  elapsedMs : Z
}.

Record ExtractionResult := {
  result_images : list Extracted.Image;
  metadata : Metadata
}.

Definition assemble (result : DoExtractResult) (elapsed : Z) : ExtractionResult :=
  {| result_images := images result;
     metadata := {| processingTime := elapsed;
                    totalImages := Z.of_nat (List.length (images result));
                    filteredOut := filtered_count result;
                    lazyLoadedCountOut := lazy_loaded_count result;
                    elapsedMs := elapsed |} |}.

End Images.

(* ================================================================== *)
(** * Coroutines

    A coroutine is a finite tree: it returns, raises, performs a local
    action that cannot suspend ([Do]), or awaits an operation whose answer
    is a value or an exception ([Await]).  [try]/[except], [try]/[finally]
    and [asyncio.wait_for] are functions on such trees, so that one
    definition of the source serves both the execution of a single request
    ([run]) and the interleaving of several ([Concurrent]). *)

Module Effects.

Definition browser := nat.
Definition context := nat.
Definition page := nat.
Definition bytes := list Byte.byte.

(** Exceptions, by the classes the handlers of the source tell apart:
    [except asyncio.TimeoutError], [except Exception], and what neither
    catches.  [Error] stands for every other subclass of [Exception], among
    them patchright's [Error] and its own [TimeoutError]; the string is
    [str(e)]. *)
Inductive exn :=
| TimeoutError
| Error (msg : string)
| CancelledError.

Definition is_Exception (e : exn) : bool :=
  match e with CancelledError => false | _ => true end.

Definition is_TimeoutError (e : exn) : bool :=
  match e with TimeoutError => true | _ => false end.

(** [str(e)] *)
Definition str (e : exn) : string :=
  match e with Error msg => msg | _ => EmptyString end.

Inductive resource := Semaphore | Lock.

(** The scripts handed to [page.evaluate].  [_do_extract] passes its scroll
    and image-wait scripts as literals; their text is that of
    [AUTO_SCROLL_JS] and [WAIT_FOR_IMAGES_JS] up to indentation.  Its body
    probe is a script of its own. *)
Inductive script :=
| WAIT_FOR_CONTENT_JS
| AUTO_SCROLL_JS
| WAIT_FOR_IMAGES_JS
| BODY_HTML_JS
| EXTRACT_IMAGES_JS (includeBackgrounds : bool).

Record ContentState := {
  ready : bool;
  textLen : Z;
  imgCount : Z;
  source : string
}.

Record ScreenshotOpts := {
  full_page : bool;
  type_ : string;
  timeout : Z;
  quality : option Z
}.

Record UploadResult := {
  url : string;
  fileName : string;
  fileSize : Z;
  contentType : string
}.

Definition js_result (js : script) : Type :=
  match js with
  | WAIT_FOR_CONTENT_JS => ContentState
  | EXTRACT_IMAGES_JS _ => Images.ImageData
  | _ => unit
  end.

(** Awaited operations. *)
Inductive call :=
| acquire (r : resource)
| chromium_launch
| browser_close (b : browser)
| new_context (b : browser)
| context_close (c : context)
| new_page (c : context)
| goto (p : page) (target : string) (wait_until : string) (timeout_ms : Z)
| wait_for_load_state (p : page) (state : string) (timeout_ms : Z)
| evaluate (p : page) (js : script)
| sleep (ms : Z)
| screenshot (p : page) (opts : ScreenshotOpts)
| upload_screenshot (buffer : bytes) (fmt : string).

Definition ret (c : call) : Type :=
  match c with
  | chromium_launch => browser
  | new_context _ => context
  | new_page _ => page
  | evaluate _ js => js_result js
  | screenshot _ _ => bytes
  | upload_screenshot _ _ => UploadResult
  | _ => unit
  end.

Inductive level := DEBUG | INFO | WARNING | ERROR.

(** Local actions: no suspension, no exception.  [time_time] is
    [time.time()] in milliseconds; [abandon c] marks the operation a
    [wait_for] timer interrupts. *)
Inductive action :=
| release (r : resource)
| get_browser
| set_browser (b : option browser)
| is_connected (b : browser)
| log (l : level) (msg : string)
| time_time
| abandon (c : call).

Definition reply (a : action) : Type :=
  match a with
  | get_browser => option browser
  | is_connected _ => bool
  | time_time => Z
  | _ => unit
  end.

Inductive prog (A : Type) : Type :=
| Ret (a : A)
| Raise (e : exn)
| Do (a : action) (k : reply a -> prog A)
| Await (c : call) (k : exn + ret c -> prog A).

Arguments Ret {A} a.
Arguments Raise {A} e.
Arguments Do {A} a k.
Arguments Await {A} c k.

Fixpoint bind {A B : Type} (p : prog A) (f : A -> prog B) : prog B :=
  match p with
  | Ret a => f a
  | Raise e => Raise e
  | Do a k => Do a (fun v => bind (k v) f)
  | Await c k => Await c (fun r => bind (k r) f)
  end.

Definition do (a : action) : prog (reply a) := Do a Ret.

Definition await (c : call) : prog (ret c) :=
  Await c (fun r => match r with inl e => Raise e | inr v => Ret v end).

(** [try: p except <class>: h], the class given by its test. *)
Fixpoint try_catch {A : Type} (catches : exn -> bool) (p : prog A)
    (h : exn -> prog A) : prog A :=
  match p with
  | Ret a => Ret a
  | Raise e => if catches e then h e else Raise e
  | Do a k => Do a (fun v => try_catch catches (k v) h)
  | Await c k => Await c (fun r => try_catch catches (k r) h)
  end.

Definition try_except {A : Type} := @try_catch A is_Exception.

(** [try: p finally: f] *)
Fixpoint try_finally {A : Type} (p : prog A) (f : prog unit) : prog A :=
  match p with
  | Ret a => bind f (fun _ => Ret a)
  | Raise e => bind f (fun _ => Raise e)
  | Do a k => Do a (fun v => try_finally (k v) f)
  | Await c k => Await c (fun r => try_finally (k r) f)
  end.

(** What [wait_for] makes of the cancelled coroutine's end: a
    [CancelledError] that comes out is turned into [TimeoutError]. *)
Fixpoint timed_out {A : Type} (p : prog A) : prog A :=
  match p with
  | Ret a => Ret a
  | Raise e => match e with CancelledError => Raise TimeoutError | _ => Raise e end
  | Do a k => Do a (fun v => timed_out (k v))
  | Await c k => Await c (fun r => timed_out (k r))
  end.

(** [asyncio.wait_for(p, timeout)].  When the timer fires is the event
    loop's matter: [timer = None] when [p] ends first, [Some n] when the
    timer fires while [p] is suspended in its [n]-th await (from 0).  The
    await then raises [CancelledError] inside [p], whose handlers and
    [finally] blocks run. *)
Fixpoint wait_for {A : Type} (timer : option nat) (p : prog A) : prog A :=
  match timer with
  | None => p
  | Some n =>
      match p with
      | Ret a => Ret a
      | Raise e => Raise e
      | Do a k => Do a (fun v => wait_for (Some n) (k v))
      | Await c k =>
          match n with
          | O => Do (abandon c) (fun _ => timed_out (k (inl CancelledError)))
          | S n' => Await c (fun r => wait_for (Some n') (k r))
          end
      end
  end.

Declare Scope prog_scope.
Delimit Scope prog_scope with prog.
Notation "x <- p ;; q" := (bind p (fun x => q))
  (at level 100, p at next level, right associativity) : prog_scope.
Notation "p ;; q" := (bind p (fun _ => q))
  (at level 100, right associativity) : prog_scope.
Open Scope prog_scope.

Inductive event :=
| Did (a : action)
| Called (c : call) (raised : option exn).

(** [avoids bad_action bad_call p]: no operation of [p] is one of the bad
    ones. *)
Fixpoint avoids {A : Type} (bad_action : action -> bool)
    (bad_call : call -> bool) (p : prog A) : Prop :=
  match p with
  | Ret _ | Raise _ => True
  | Do a k => bad_action a = false /\ forall v, avoids bad_action bad_call (k v)
  | Await c k => bad_call c = false /\ forall r, avoids bad_action bad_call (k r)
  end.

Definition bad_event (bad_action : action -> bool) (bad_call : call -> bool)
    (ev : event) : bool :=
  match ev with
  | Did a => bad_action a
  | Called c _ => bad_call c
  end.

(** The operations on the semaphore and on contexts. *)
Definition pool_action (a : action) : bool :=
  match a with release Semaphore => true | _ => false end.

Definition pool_call (c : call) : bool :=
  match c with
  | acquire Semaphore | new_context _ | context_close _ => true
  | _ => false
  end.

(** The mark a [wait_for] timer leaves. *)
Definition is_abandon (a : action) : bool :=
  match a with abandon _ => true | _ => false end.

(** ** Execution of one coroutine

    The event loop and the browser are an oracle indexed by the number of
    operations performed so far.  An [acquire] that cannot be granted
    leaves the coroutine [Blocked]: nobody else runs. *)

Record world := {
  respond : nat -> forall c : call, exn + ret c;
  connected : nat -> browser -> bool;
  clock : nat -> Z
}.

Record state := {
  _browser : option browser;
  _semaphore : Z;
  _lock : bool;
  tick : nat
}.

Inductive outcome (A : Type) :=
| Returned (a : A)
| Raised (e : exn)
| Blocked.

Arguments Returned {A} a.
Arguments Raised {A} e.
Arguments Blocked {A}.

Definition available (r : resource) (s : state) : bool :=
  match r with
  | Semaphore => 0 <? _semaphore s
  | Lock => negb (_lock s)
  end.

Definition raised_of {T : Type} (r : exn + T) : option exn :=
  match r with inl e => Some e | inr _ => None end.

Definition next (s : state) : state :=
  {| _browser := _browser s; _semaphore := _semaphore s; _lock := _lock s;
     tick := S (tick s) |}.

Definition with_browser (b : option browser) (s : state) : state :=
  {| _browser := b; _semaphore := _semaphore s; _lock := _lock s;
     tick := tick s |}.

Definition with_semaphore (v : Z) (s : state) : state :=
  {| _browser := _browser s; _semaphore := v; _lock := _lock s;
     tick := tick s |}.

Definition with_lock_flag (l : bool) (s : state) : state :=
  {| _browser := _browser s; _semaphore := _semaphore s; _lock := l;
     tick := tick s |}.

Definition take (r : resource) (s : state) : state :=
  match r with
  | Semaphore => with_semaphore (_semaphore s - 1) s
  | Lock => with_lock_flag true s
  end.

Definition perform (w : world) (a : action) (s : state) : reply a * state :=
  let s' := next s in
  match a return reply a * state with
  | release Semaphore => (tt, with_semaphore (_semaphore s + 1) s')
  | release Lock => (tt, with_lock_flag false s')
  | get_browser => (_browser s, s')
  | set_browser b => (tt, with_browser b s')
  | is_connected b => (connected w (tick s) b, s')
  | log _ _ => (tt, s')
  | time_time => (clock w (tick s), s')
  | abandon _ => (tt, s')
  end.

(** The answer to an awaited operation, [None] when it cannot be given. *)
Definition answer (w : world) (c : call) (s : state) : option (exn + ret c) :=
  match c return option (exn + ret c) with
  | acquire r => if available r s then Some (inr tt) else None
  | c' => Some (respond w (tick s) c')
  end.

Definition after (c : call) (raised : option exn) (s : state) : state :=
  match c, raised with
  | acquire r, None => take r (next s)
  | _, _ => next s
  end.

(** [run w p s]: how [p] ends, the state it leaves, and what it did, in
    order. *)
Fixpoint run {A : Type} (w : world) (p : prog A) (s : state)
  : outcome A * state * list event :=
  match p with
  | Ret a => (Returned a, s, [])
  | Raise e => (Raised e, s, [])
  | Do a k =>
      let (v, s') := perform w a s in
      let '(o, s'', evs) := run w (k v) s' in
      (o, s'', Did a :: evs)
  | Await c k =>
      match answer w c s with
      | None => (Blocked, s, [])
      | Some r =>
          let '(o, s'', evs) := run w (k r) (after c (raised_of r) s) in
          (o, s'', Called c (raised_of r) :: evs)
      end
  end.

(** Readings of what a coroutine did. *)
Definition is_release_semaphore (ev : event) : bool :=
  match ev with Did (release Semaphore) => true | _ => false end.

Definition is_acquire_semaphore (ev : event) : bool :=
  match ev with Called (acquire Semaphore) None => true | _ => false end.

Definition releases (evs : list event) : nat :=
  List.length (filter is_release_semaphore evs).

Definition acquisitions (evs : list event) : nat :=
  List.length (filter is_acquire_semaphore evs).

(** The exceptions [new_context] raised, in order. *)
Fixpoint failed_creations (evs : list event) : list exn :=
  match evs with
  | [] => []
  | Called (new_context _) (Some e) :: rest => e :: failed_creations rest
  | _ :: rest => failed_creations rest
  end.

(** A call of [new_context] that returned a context. *)
Definition is_creation (ev : event) : bool :=
  match ev with Called (new_context _) None => true | _ => false end.

Definition creations (evs : list event) : nat :=
  List.length (filter is_creation evs).

(** An event that concerns neither the semaphore nor a context. *)
Definition pool_silent (ev : event) : bool :=
  negb (bad_event pool_action pool_call ev).

(** A [wait_for] timer fired. *)
Definition timer_fired (evs : list event) : bool :=
  existsb (bad_event is_abandon (fun _ => false)) evs.

(** A coroutine without [wait_for] timers that fire. *)
Definition unmarked {A : Type} (p : prog A) : Prop :=
  avoids is_abandon (fun _ => false) p.

(** The operations on a page, in order: the stages of a pipeline. *)
Fixpoint page_calls (evs : list event) : list call :=
  match evs with
  | [] => []
  | Called c _ :: rest =>
      match c with
      | goto _ _ _ _ | wait_for_load_state _ _ _ | evaluate _ _ | sleep _
      | screenshot _ _ => c :: page_calls rest
      | _ => page_calls rest
      end
  | _ :: rest => page_calls rest
  end.

End Effects.

(* ================================================================== *)
(** * The browser pool ([browser_pool.py]) *)

Module Pool.
Import Effects.

(** [async with self._lock: body] *)
Definition with_lock {A : Type} (body : prog A) : prog A :=
  await (acquire Lock) ;;
  try_finally body (do (release Lock)).

Definition _launch_browser : prog unit :=
  b <- await chromium_launch ;;
  do (set_browser (Some b)) ;;
  do (log INFO "Chrome browser launched").

(** [if self._browser: await self._browser.close()], inside a [try] whose
    handler is [pass]. *)
Definition close_quietly : prog unit :=
  try_except
    (b <- do get_browser ;;
     match b with
     | Some b' => await (browser_close b')
     | None => Ret tt
     end)
    (fun _ => Ret tt).

Definition _ensure_browser : prog unit :=
  with_lock
    (b <- do get_browser ;;
     gone <- match b with
             | None => Ret true
             | Some b' => c <- do (is_connected b') ;; Ret (negb c)
             end ;;
     if gone : bool then
       do (log WARNING "Browser disconnected, relaunching...") ;;
       close_quietly ;;
       _launch_browser
     else Ret tt).

(** [self._browser.new_context(...)]: an attribute of [None] is an
    [AttributeError]. *)
Definition open_context : prog context :=
  b <- do get_browser ;;
  match b with
  | Some b' => await (new_context b')
  | None => Raise (Error "'NoneType' object has no attribute 'new_context'")
  end.

(** The [try] statement inside the loop: [Some c] is [return context],
    [None] is [continue]. *)
Definition try_open (attempt : nat) : prog (option context) :=
  try_except
    (c <- open_context ;; Ret (Some c))
    (fun e =>
       if (attempt =? 0)%nat then
         do (log WARNING "Context creation failed, relaunching browser...") ;;
         with_lock (close_quietly ;; do (set_browser None)) ;;
         Ret None
       else Raise e).

(** [for attempt in range(2)], over the attempts still to be made.
    Falling out of the loop would return [None]. *)
Fixpoint attempts (todo : list nat) : prog (option context) :=
  match todo with
  | [] => Ret None
  | attempt :: rest =>
      _ensure_browser ;;
      r <- try_open attempt ;;
      match r with
      | Some c => Ret (Some c)
      | None => attempts rest
      end
  end.

Definition acquire_context : prog (option context) :=
  await (acquire Semaphore) ;;
  try_except
    (attempts [0%nat; 1%nat])
    (fun e => do (release Semaphore) ;; Raise e).

(** [context.close()] on what [acquire_context] returned. *)
Definition close_context (c : option context) : prog unit :=
  match c with
  | Some c' => await (context_close c')
  | None => Raise (Error "'NoneType' object has no attribute 'close'")
  end.

Definition release_context (c : option context) : prog unit :=
  try_finally
    (try_except
       (close_context c)
       (fun e => do (log DEBUG ("Context already closed: " ++ str e)%string)))
    (do (release Semaphore)).

End Pool.

(* ================================================================== *)
(** * Screenshot capture ([screenshot_service.py]) *)

Module Capture.
Import Effects.

(** [context.new_page()] *)
Definition open_page (c : option context) : prog page :=
  match c with
  | Some c' => await (new_page c')
  | None => Raise (Error "'NoneType' object has no attribute 'new_page'")
  end.

(** [try: await page.wait_for_load_state(state, timeout=t) except Exception: ...] *)
Definition settle (p : page) (state : string) (t : Z) (after_ok after_exn : prog unit)
  : prog unit :=
  try_except
    (await (wait_for_load_state p state t) ;; after_ok)
    (fun _ => after_exn).

(** The post-load delay: the argument of [asyncio.sleep], in milliseconds,
    or [None] when the guard [total_delay > 0] skips the sleep. *)
Definition post_load_sleep (delay post_load : Z) : option Z :=
  let total_delay := Z.max delay post_load in
  if 0 <? total_delay then Some (Z.min total_delay 10000) else None.

(** The time the coroutine spends in the post-load delay. *)
Definition effective_wait (delay post_load : Z) : Z :=
  match post_load_sleep delay post_load with
  | Some safe_delay => safe_delay
  | None => 0
  end.

(** [_do_capture], from [page.goto] to the post-load delay. *)
Definition readiness (cfg : Settings) (p : page) (target : string) (delay : Z)
  : prog unit :=
  let nav_timeout := screenshot_page_navigation_timeout cfg in
  do (log INFO "Navigating to %s (timeout: %dms)...") ;;
  await (goto p target "commit" nav_timeout) ;;
  do (log INFO "Navigation committed, waiting for load state...") ;;
  settle p "load" 30000
    (do (log INFO "Load state reached"))
    (do (log INFO "Load state timeout (30s), continuing...")) ;;
  do (log INFO "Waiting for visible content to render...") ;;
  content_state <- await (evaluate p WAIT_FOR_CONTENT_JS) ;;
  do (log INFO "Content state: ready=%s, text=%d chars, images=%d, source=%s") ;;
  (if negb (ready content_state) then
     do (log INFO "Content not ready, trying networkidle...") ;;
     settle p "networkidle" 10000 (Ret tt) (Ret tt) ;;
     await (evaluate p WAIT_FOR_CONTENT_JS) ;;
     do (log INFO "Content state after networkidle: ready=%s, text=%d chars, images=%d")
   else Ret tt) ;;
  do (log INFO "Scrolling page...") ;;
  await (evaluate p AUTO_SCROLL_JS) ;;
  settle p "networkidle" 10000 (Ret tt) (Ret tt) ;;
  await (evaluate p WAIT_FOR_IMAGES_JS) ;;
  match post_load_sleep delay (screenshot_post_load_delay cfg) with
  | Some safe_delay =>
      do (log INFO "Waiting %dms for dynamic content...") ;;
      await (sleep safe_delay)
  | None => Ret tt
  end.

(** [_do_capture], the capture itself. *)
Definition take_screenshot (cfg : Settings) (capture_timer : option nat)
    (p : page) (full_page : bool) (fmt : string) (quality : Z) : prog bytes :=
  let capture_timeout_ms := screenshot_capture_timeout cfg in
  let screenshot_opts :=
    {| Effects.full_page := full_page;
       type_ := fmt;
       timeout := capture_timeout_ms;
       Effects.quality :=
         if String.eqb fmt "jpeg" || String.eqb fmt "webp"
         then Some quality else None |} in
  do (log INFO "Capturing screenshot (timeout: %dms)...") ;;
  buffer <- wait_for capture_timer (await (screenshot p screenshot_opts)) ;;
  do (log INFO "Screenshot captured (%d bytes)") ;;
  Ret buffer.

Definition _do_capture (cfg : Settings) (capture_timer : option nat)
    (target : string) (full_page : bool) (fmt : string) (quality delay : Z)
  : prog bytes :=
  context <- Pool.acquire_context ;;
  try_finally
    (p <- open_page context ;;
     readiness cfg p target delay ;;
     take_screenshot cfg capture_timer p full_page fmt quality)
    (Pool.release_context context).

(** [capture_screenshot].  The two timers are those of the two
    [asyncio.wait_for]: around [page.screenshot] and around [_do_capture]. *)
Definition capture_screenshot (cfg : Settings)
    (capture_timer overall_timer : option nat)
    (target : string) (full_page : bool) (fmt : string) (quality delay : Z)
  : prog bytes :=
  start <- do time_time ;;
  try_catch is_TimeoutError
    (result <- wait_for overall_timer
                 (_do_capture cfg capture_timer target full_page fmt quality delay) ;;
     now <- do time_time ;;
     do (log INFO "Total screenshot time: %dms") ;;
     Ret result)
    (fun e =>
       do (log ERROR "Screenshot operation timed out after %ds") ;;
       Raise e).

End Capture.

(* ================================================================== *)
(** * Image extraction ([image_extraction_service.py], the coroutine) *)

Module Extract.
Import Effects.

(** [_do_extract], from [page.goto] to the post-load delay. *)
Definition readiness (cfg : Settings) (p : page) (target : string) : prog unit :=
  let nav_timeout := screenshot_page_navigation_timeout cfg in
  do (log INFO "Navigating to %s for image extraction...") ;;
  await (goto p target "commit" nav_timeout) ;;
  do (log INFO "Navigation committed, waiting for load state...") ;;
  Capture.settle p "load" 30000
    (do (log INFO "Load state reached"))
    (do (log INFO "Load state timeout (30s), continuing...")) ;;
  Capture.settle p "networkidle" 15000
    (Ret tt)
    (do (log INFO "Network idle timeout, continuing...")) ;;
  await (evaluate p BODY_HTML_JS) ;;
  await (evaluate p AUTO_SCROLL_JS) ;;
  Capture.settle p "networkidle" 10000
    (Ret tt)
    (do (log INFO "Network idle timeout after scroll, continuing...")) ;;
  await (evaluate p WAIT_FOR_IMAGES_JS) ;;
  let post_load := screenshot_post_load_delay cfg in
  if 0 <? post_load then
    let safe_delay := Z.min post_load 10000 in
    do (log INFO "Waiting %dms for dynamic content...") ;;
    await (sleep safe_delay)
  else Ret tt.

Definition _do_extract (cfg : Settings) (target : string)
    (min_width min_height max_images : Z) (include_backgrounds : bool)
  : prog Images.DoExtractResult :=
  context <- Pool.acquire_context ;;
  try_finally
    (p <- Capture.open_page context ;;
     readiness cfg p target ;;
     do (log INFO "Extracting image data...") ;;
     image_data <- await (evaluate p (EXTRACT_IMAGES_JS include_backgrounds)) ;;
     do (log INFO "Extracted %d total images") ;;
     do (log INFO "After filtering: %d images") ;;
     Ret (Images.transform image_data min_width min_height max_images))
    (Pool.release_context context).

Definition extract_images (cfg : Settings) (overall_timer : option nat)
    (target : string) (min_width min_height : option Z) (max_images : Z)
    (include_backgrounds : bool) : prog Images.ExtractionResult :=
  let min_width :=
    match min_width with None => image_min_width cfg | Some v => v end in
  let min_height :=
    match min_height with None => image_min_height cfg | Some v => v end in
  start <- do time_time ;;
  result <- try_catch is_TimeoutError
              (wait_for overall_timer
                 (_do_extract cfg target min_width min_height max_images
                    include_backgrounds))
              (fun e =>
                 do (log ERROR "Image extraction timed out after %ds") ;;
                 Raise e) ;;
  now <- do time_time ;;
  Ret (Images.assemble result (now - start)).

End Extract.

(* ================================================================== *)
(** * The routes ([routes/screenshot.py], [routes/images.py])

    The verdict of [validate_url] on the request's URL is an input. *)

Module Routes.
Import Effects.

Record ScreenshotRequest := {
  req_url : string;
  fullPage : bool;
  format : string;
  quality : Z;
  delay : Z
}.

(** What the route answers: the status code and the fields of the JSON
    body that classify the outcome. *)
Record Response := {
  status_code : Z;
  success : option bool;
  error : option string;
  message : option string;
  timeout : option bool;
  retryable : option bool
}.

Definition ok_response : Response :=
  {| status_code := 200; success := Some true; error := None;
     message := None; timeout := None; retryable := None |}.

Definition invalid_url_response (reason : option string) : Response :=
  {| status_code := 400; success := None; error := Some "Invalid URL";
     message := reason; timeout := None; retryable := None |}.

Definition timeout_response : Response :=
  {| status_code := 504; success := None;
     error := Some "Screenshot capture timed out";
     message := None; timeout := Some true; retryable := Some true |}.

Definition error_response (e : exn) : Response :=
  {| status_code := 500; success := None; error := Some (str e);
     message := None; timeout := None; retryable := Some false |}.

Definition screenshot (cfg : Settings) (verdict : bool * option string)
    (capture_timer overall_timer : option nat) (body : ScreenshotRequest)
  : prog Response :=
  start <- do time_time ;;
  let (valid, reason) := verdict in
  if negb valid then Ret (invalid_url_response reason)
  else
    try_except
      (buffer <- Capture.capture_screenshot cfg capture_timer overall_timer
                   (req_url body) (fullPage body) (format body)
                   (quality body) (delay body) ;;
       upload_result <- await (upload_screenshot buffer (format body)) ;;
       now <- do time_time ;;
       Ret ok_response)
      (fun e =>
         if is_TimeoutError e then Ret timeout_response
         else
           do (log ERROR "Screenshot error for %s") ;;
           Ret (error_response e)).

End Routes.

(* ================================================================== *)
(** * The URL check ([middleware/security.py])

    [urlparse] is the standard library's: what it makes of the string is
    an input, [None] when it raises.  So are [str.lower] and the test
    [re.match(r"^\d+$", hostname)], whose meaning rests on the Unicode
    tables.  The other patterns only name ASCII characters and are
    written out. *)

Module Security.

Record ParseResult := {
  scheme : string;
  hostname : option string;
  username : option string;
  password : option string
}.

(** The truth value of an optional string: [None] and the empty string
    are false. *)
Definition truthy (s : option string) : bool :=
  match s with
  | Some (String _ _) => true
  | _ => false
  end.

(** [s.endswith(suffix)] *)
Definition endswith (suffix s : string) : bool :=
  let n := String.length s in
  let m := String.length suffix in
  (m <=? n)%nat && String.eqb (String.substring (n - m) m s) suffix.

Definition in_range (lo hi : nat) (c : Ascii.ascii) : bool :=
  (lo <=? Ascii.nat_of_ascii c)%nat && (Ascii.nat_of_ascii c <=? hi)%nat.

(** [[0-7]], [[0-9]], and [[0-9a-f]] under [re.IGNORECASE]. *)
Definition is_octal (c : Ascii.ascii) : bool := in_range 48 55 c.
Definition is_decimal (c : Ascii.ascii) : bool := in_range 48 57 c.
Definition is_hex (c : Ascii.ascii) : bool :=
  in_range 48 57 c || in_range 97 102 c || in_range 65 70 c.

(** An ASCII letter in lower case, other characters as they are. *)
Definition fold_case (c : Ascii.ascii) : Ascii.ascii :=
  if in_range 65 90 c then Ascii.ascii_of_nat (Ascii.nat_of_ascii c + 32) else c.

(** A pattern [^literal] under [re.IGNORECASE], the literal in lower
    case. *)
Fixpoint istartswith (p s : string) : bool :=
  match p, s with
  | EmptyString, _ => true
  | String a p', String b s' => Ascii.eqb a (fold_case b) && istartswith p' s'
  | String _ _, EmptyString => false
  end.

(** [^172\.(1[6-9]|2[0-9]|3[0-1])\.] *)
Definition private_172 (s : string) : bool :=
  String.prefix "172." s
  && match String.substring 4 3 s with
     | String a (String b (String c EmptyString)) =>
         ((Ascii.eqb a "1"%char && in_range 54 57 b)
          || (Ascii.eqb a "2"%char && in_range 48 57 b)
          || (Ascii.eqb a "3"%char && in_range 48 49 b))
         && Ascii.eqb c "."%char
     | _ => false
     end.

(** [^::1$]: [$] also matches before a newline that ends the string. *)
Definition loopback_v6 (s : string) : bool :=
  String.eqb s "::1"
  || String.eqb s (String ":"%char (String ":"%char (String "1"%char
                     (String (Ascii.ascii_of_nat 10) EmptyString)))).

(** [PRIVATE_IP_PATTERNS], each with [pattern.search(hostname)]. *)
Definition PRIVATE_IP_PATTERNS : list (string -> bool) :=
  [ String.prefix "127.";
    String.prefix "10.";
    private_172;
    String.prefix "192.168.";
    String.prefix "0.";
    String.prefix "169.254.";
    loopback_v6;
    istartswith "fc00:";
    istartswith "fe80:" ].

Definition BLOCKED_HOSTNAMES : list string :=
  [ "localhost"; "metadata.google.internal"; "metadata";
    "kubernetes.default"; "kubernetes.default.svc" ].

Definition mem (s : string) (l : list string) : bool :=
  existsb (String.eqb s) l.

(** What is left of [s] after its longest prefix of characters in the
    class. *)
Fixpoint skip (class : Ascii.ascii -> bool) (s : string) : string :=
  match s with
  | String c s' => if class c then skip class s' else s
  | EmptyString => EmptyString
  end.

(** [re.match(r"^0[0-7]+\.", hostname)] *)
Definition octal_ip (s : string) : bool :=
  match s with
  | String z (String d rest) =>
      Ascii.eqb z "0"%char && is_octal d && String.prefix "." (skip is_octal rest)
  | _ => false
  end.

(** [re.match(r"^0x[0-9a-f]+", hostname, re.IGNORECASE)] *)
Definition hex_ip (s : string) : bool :=
  match s with
  | String z (String x (String d _)) =>
      Ascii.eqb z "0"%char && Ascii.eqb (fold_case x) "x"%char && is_hex d
  | _ => false
  end.

Definition internal : string :=
  "Access to internal or private resources is not allowed.".

Section Checks.

(** [str.lower], and [re.match(r"^\d+$", s) is not None]. *)
Variable lower : string -> string.
Variable all_digits : string -> bool.

(** [validate_url], on what [urlparse] made of the URL. *)
Definition validate_url (parsed : option ParseResult) : bool * option string :=
  match parsed with
  | None => (false, Some "Invalid URL format.")
  | Some parsed =>
      if negb (mem (scheme parsed) ["http"; "https"]) then
        (false, Some ("Protocol '" ++ scheme parsed
                      ++ "' is not allowed. Only http and https are permitted.")%string)
      else
        let hostname :=
          match hostname parsed with
          | Some (String c h) => String c h
          | _ => EmptyString
          end in
        let lower_hostname := lower hostname in
        if mem lower_hostname BLOCKED_HOSTNAMES then (false, Some internal)
        else if endswith ".internal" lower_hostname
                || endswith ".local" lower_hostname
                || endswith ".localhost" lower_hostname
        then (false, Some internal)
        else if existsb (fun pattern => pattern hostname) PRIVATE_IP_PATTERNS
        then (false, Some internal)
        else if truthy (username parsed) || truthy (password parsed)
        then (false, Some "URLs with embedded credentials are not allowed.")
        else if all_digits hostname
        then (false, Some "Numeric IP addresses are not allowed.")
        else if octal_ip hostname
        then (false, Some "Octal IP addresses are not allowed.")
        else if hex_ip hostname
        then (false, Some "Hexadecimal IP addresses are not allowed.")
        else (true, None)
  end.

End Checks.

(** [str.lower] and the digit test on ASCII strings. *)
Fixpoint ascii_lower (s : string) : string :=
  match s with
  | EmptyString => EmptyString
  | String c s' => String (fold_case c) (ascii_lower s')
  end.

Definition ascii_digits (s : string) : bool :=
  match s with
  | EmptyString => false
  | String _ _ =>
      let rest := skip is_decimal s in
      String.eqb rest EmptyString
      || String.eqb rest (String (Ascii.ascii_of_nat 10) EmptyString)
  end.

End Security.

(* ================================================================== *)
(** * The request models ([models/requests.py]) *)

Module Requests.

(** The field validators of [ScreenshotRequest]: the value, or the message
    of the [ValueError]. *)
Definition validate_format (v : string) : string + string :=
  if negb (String.eqb v "png" || String.eqb v "jpeg" || String.eqb v "webp")
  then inl "Invalid format. Must be png, jpeg, or webp"
  else inr v.

Definition validate_quality (v : Z) : string + Z :=
  if (v <? 1) || (100 <? v) then inl "Quality must be between 1 and 100"
  else inr v.

Definition validate_delay (v : Z) : string + Z :=
  if (v <? 0) || (30000 <? v)
  then inl "Delay must be between 0 and 30000 milliseconds"
  else inr v.

Definition passes {A : Type} (r : string + A) : bool :=
  match r with inr _ => true | inl _ => false end.

(** A [ScreenshotRequest] that is constructed: no validator raised. *)
Definition accepted (body : Routes.ScreenshotRequest) : bool :=
  passes (validate_format (Routes.format body))
  && passes (validate_quality (Routes.quality body))
  && passes (validate_delay (Routes.delay body)).

(** [ImageExtractionOptions], with the bounds of its fields:
    [ge=0], [ge=0], [ge=1, le=500]. *)
Record ImageExtractionOptions := {
  minWidth : Z;
  minHeight : Z;
  maxImages : Z
}.

Definition default_options : ImageExtractionOptions :=
  {| minWidth := 100; minHeight := 100; maxImages := 100 |}.

Definition options_accepted (o : ImageExtractionOptions) : bool :=
  (0 <=? minWidth o) && (0 <=? minHeight o)
  && ((1 <=? maxImages o) && (maxImages o <=? 500)).

Record ImageExtractionRequest := {
  url : string;
  options : option ImageExtractionOptions
}.

End Requests.

(* ================================================================== *)
(** * The image route ([routes/images.py]) *)

Module ImageRoutes.
Import Effects Requests.

(** The content of a [JSONResponse]. *)
Record Failure := {
  status_code : Z;
  success : bool;
  error : string;
  message : option string;
  timeout : option bool;
  retryable : option bool
}.

(** The dictionary of a success, beside ["success": True]. *)
Record Success := {
  ok_url : string;
  totalImages : Z;
  images : list Images.Extracted.Image;
  metadata : Images.Metadata
}.

Inductive Answer :=
| Json (body : Success)
| JSONResponse (content : Failure).

Definition invalid_url_response (reason : option string) : Failure :=
  {| status_code := 400; success := false; error := "Invalid URL";
     message := reason; timeout := None; retryable := None |}.

Definition timeout_response : Failure :=
  {| status_code := 504; success := false;
     error := "Image extraction timed out";
     message := None; timeout := Some true; retryable := Some true |}.

Definition error_response (e : exn) : Failure :=
  {| status_code := 500; success := false; error := str e;
     message := None; timeout := None; retryable := Some false |}.

(** [extract_images_endpoint].  The route does not pass
    [include_backgrounds], which is then [False]. *)
Definition extract_images_endpoint (cfg : Settings)
    (verdict : bool * option string) (overall_timer : option nat)
    (body : ImageExtractionRequest) : prog Answer :=
  let (valid, reason) := verdict in
  if negb valid then Ret (JSONResponse (invalid_url_response reason))
  else
    let opts := options body in
    let min_width := match opts with Some o => Some (minWidth o) | None => None end in
    let min_height := match opts with Some o => Some (minHeight o) | None => None end in
    let max_images := match opts with Some o => maxImages o | None => 100 end in
    try_except
      (result <- Extract.extract_images cfg overall_timer (url body)
                   min_width min_height max_images false ;;
       Ret (Json {| ok_url := url body;
                    totalImages := Images.totalImages (Images.metadata result);
                    images := Images.result_images result;
                    metadata := Images.metadata result |}))
      (fun e =>
         if is_TimeoutError e then Ret (JSONResponse timeout_response)
         else
           do (log ERROR "Image extraction error for %s") ;;
           Ret (JSONResponse (error_response e))).

End ImageRoutes.

(* ================================================================== *)
(** * The readiness probe ([WAIT_FOR_CONTENT_JS])

    The script runs in the page.  What it can observe of the page is a
    [Document]: every observation takes the time at which it is made, since
    the page changes while the script waits.  The script's own statements
    take no time; only its timers let time pass. *)

Module Probe.
Import Effects.

Definition node := nat.

Record Document := {
  (** [document.querySelector(sel)] *)
  querySelector : Z -> string -> option node;
  (** [el.children.length] *)
  children_length : Z -> node -> Z;
  (** [(el.innerText ? el.innerText.trim() : '').length] *)
  text_length : Z -> node -> Z;
  (** [root.querySelectorAll('img[src]:not([src=...])').length] with the
      empty string excluded; the root is an element or the document. *)
  img_src_count : Z -> option node -> Z;
  (** [document.querySelectorAll('img').length] *)
  img_count : Z -> Z;
  (** [document.body] *)
  body : Z -> option node;
  (** when the promise of [setTimeout(r, ms)] made at [t] resolves *)
  wake : Z -> Z -> Z
}.

Definition maxWait : Z := 20000.

Definition SPA_SELECTORS : list string :=
  ["#root"; "#app"; "#__next"; "#__nuxt"; "[data-reactroot]"; "main"].

(** The test a root container has to pass. *)
Definition rendered (d : Document) (t : Z) (el : node) : bool :=
  (0 <? children_length d t el)
  && ((50 <? text_length d t el) || (1 <? img_src_count d t (Some el))).

(** [for (const sel of SPA_SELECTORS)], with its [return] as [Some]. *)
Fixpoint scan (d : Document) (t : Z) (sels : list string) : option ContentState :=
  match sels with
  | [] => None
  | sel :: rest =>
      match querySelector d t sel with
      | Some el =>
          if rendered d t el then
            let t' := wake d t 1000 in
            Some {| ready := true;
                    textLen := text_length d t' el;
                    imgCount := img_src_count d t' (Some el);
                    source := sel |}
          else scan d t rest
      | None => scan d t rest
      end
  end.

Definition body_text_length (d : Document) (t : Z) : Z :=
  match body d t with
  | Some b => text_length d t b
  | None => 0
  end.

(** The fallback on [document.body]. *)
Definition body_check (d : Document) (t : Z) : option ContentState :=
  let bodyText := body_text_length d t in
  let bodyImgs := img_src_count d t None in
  if (200 <? bodyText) || (3 <? bodyImgs) then
    Some {| ready := true; textLen := bodyText; imgCount := bodyImgs;
            source := "body" |}
  else None.

(** The statement after the loop. *)
Definition gave_up (d : Document) (t : Z) : ContentState :=
  {| ready := false;
     textLen := body_text_length d t;
     imgCount := img_count d t;
     source := "timeout" |}.

(** The [while] loop; [None] when the fuel is spent before it ends. *)
Fixpoint poll (fuel : nat) (d : Document) (start now : Z) : option ContentState :=
  match fuel with
  | O => None
  | S fuel' =>
      if now - start <? maxWait then
        match scan d now SPA_SELECTORS with
        | Some r => Some r
        | None =>
            match body_check d now with
            | Some r => Some r
            | None => poll fuel' d start (wake d now 500)
            end
        end
      else Some (gave_up d now)
  end.

(** The script, started at [start].  A timer never resolves early, so the
    loop body runs at most 40 times. *)
Definition wait_for_content (d : Document) (start : Z) : option ContentState :=
  poll 41 d start start.

(** Timers do not resolve early. *)
Definition punctual (d : Document) : Prop :=
  forall t ms, t + ms <= wake d t ms.

(** No root container passes the test at [t]. *)
Definition no_root_rendered (d : Document) (t : Z) : Prop :=
  forall sel el, In sel SPA_SELECTORS ->
    querySelector d t sel = Some el -> rendered d t el = false.


End Probe.

(* ================================================================== *)
(** * The scroll script ([AUTO_SCROLL_JS])

    The script scrolls by a fixed distance each time its interval timer
    fires, and resolves when it has reached the bottom of the page, or
    scrolled [maxHeight] pixels, or run for [scrollTimeout] milliseconds.
    The page may grow while it is scrolled: its height is read at every
    firing.  A document without a body ([document.body] is [null], as in
    an SVG or XML document) makes the callback throw at that reading:
    nothing is scrolled, the timer goes on, and the firing does not
    resolve the promise. *)

Module Scroll.

Record Window := {
  (** [window.innerHeight] *)
  innerHeight : Z;
  (** [document.body.scrollHeight] at the [n]-th firing of the timer,
      from 0; [None] when [document.body] is [null] *)
  scrollHeight : nat -> option Z;
  (** [Date.now()] when the script starts, and at the [n]-th firing *)
  startTime : Z;
  now : nat -> Z
}.

(** The literal [0.8] (0x3FE999999999999A). *)
Definition lit_0_8 : PyFloat.dyadic := PyFloat.Dy 3602879701896397 (-52).

(** [Math.floor] of a finite number. *)
Definition floor (f : PyFloat.dyadic) : Z :=
  if 0 <=? PyFloat.dexp f then PyFloat.dmant f * 2 ^ PyFloat.dexp f
  else PyFloat.dmant f / 2 ^ (- PyFloat.dexp f).

(** [Math.floor(viewportHeight * 0.8)] *)
Definition distance (w : Window) : Z :=
  floor (PyFloat.int_mul (innerHeight w) lit_0_8).

Definition maxHeight : Z := 15000.
Definition scrollTimeout : Z := 40000.

(** The callback of [setInterval], from its [n]-th firing on, with
    [totalHeight] scrolled so far: the number of firings and the total
    scrolled when the promise resolves, [None] when the fuel is spent
    first. *)
Fixpoint interval (fuel : nat) (w : Window) (n : nat) (totalHeight : Z)
  : option (nat * Z) :=
  match fuel with
  | O => None
  | S fuel' =>
      match scrollHeight w n with
      | None => interval fuel' w (S n) totalHeight
      | Some scrollHeight =>
          let totalHeight := totalHeight + distance w in
          if (scrollHeight - innerHeight w <=? totalHeight)
             || (maxHeight <=? totalHeight)
             || (scrollTimeout <=? now w n - startTime w)
          then Some (S n, totalHeight)
          else interval fuel' w (S n) totalHeight
      end
  end.

Definition auto_scroll (fuel : nat) (w : Window) : option (nat * Z) :=
  interval fuel w 0 0.

(** The document has a body at every firing. *)
Definition has_body (w : Window) : Prop :=
  forall n, scrollHeight w n <> None.

(** The interval timer does not fire early: its [n]-th firing comes no
    sooner than [200 * (n + 1)] ms after the start. *)
Definition punctual (w : Window) : Prop :=
  forall n, startTime w + 200 * (Z.of_nat n + 1) <= now w n.

End Scroll.

(* ================================================================== *)
(** * Several requests at once

    The event loop runs the coroutines of the requests in flight one
    operation at a time, in any order.  An [acquire] proceeds when it can
    be granted, or is interrupted by a cancellation while it waits; every
    other awaited operation is answered by the browser with any value or
    exception.  This allows more interleavings than [asyncio], which only
    switches at an [await]. *)

Module Concurrent.
Import Effects.

(** What the requests share: the fields of the one [BrowserPool]. *)
Record shared := {
  the_browser : option browser;
  permits : Z;
  locked : bool
}.

Section Tasks.
Variable R : Type.

(** A coroutine in flight, with what it holds of the pool: the semaphore
    slots it has taken and not released, and the contexts it has opened and
    not closed. *)
Record task := {
  code : prog R;
  slots : Z;
  leases : list context
}.

Record config := {
  pool : shared;
  tasks : list task
}.

Inductive label :=
| granted (r : resource)
| interrupted (r : resource)
| freed (r : resource)
| opened (c : context)
| closed (c : context)
| silent.

Definition set_permits (v : Z) (sh : shared) : shared :=
  {| the_browser := the_browser sh; permits := v; locked := locked sh |}.

Definition set_locked (l : bool) (sh : shared) : shared :=
  {| the_browser := the_browser sh; permits := permits sh; locked := l |}.

Definition set_the_browser (b : option browser) (sh : shared) : shared :=
  {| the_browser := b; permits := permits sh; locked := locked sh |}.

(** A local action on the shared fields, with its reply: [acts sh a v sh']
    when [a] may reply [v] and leave [sh'].  Whether the browser is
    connected and what time it is are not in the shared fields: any reply
    is possible. *)
Definition acts (sh : shared) (a : action) (v : reply a) (sh' : shared) : Prop :=
  match a as a0 return reply a0 -> Prop with
  | release Semaphore => fun _ => sh' = set_permits (permits sh + 1) sh
  | release Lock => fun _ => sh' = set_locked false sh
  | get_browser => fun v => v = the_browser sh /\ sh' = sh
  | set_browser b => fun _ => sh' = set_the_browser b sh
  | is_connected _ => fun _ => sh' = sh
  | log _ _ => fun _ => sh' = sh
  | time_time => fun _ => sh' = sh
  | abandon _ => fun _ => sh' = sh
  end v.

(** An awaited operation on the shared fields, with its answer: an
    [acquire] is granted when the resource is there, or interrupted by a
    cancellation; the browser answers anything. *)
Definition answers (sh : shared) (c : call) (r : exn + ret c) (sh' : shared)
  : Prop :=
  match c as c0 return exn + ret c0 -> Prop with
  | acquire Semaphore => fun r =>
      match r with
      | inr _ => 0 < permits sh /\ sh' = set_permits (permits sh - 1) sh
      | inl e => e = CancelledError /\ sh' = sh
      end
  | acquire Lock => fun r =>
      match r with
      | inr _ => locked sh = false /\ sh' = set_locked true sh
      | inl e => e = CancelledError /\ sh' = sh
      end
  | _ => fun _ => sh' = sh
  end r.

Fixpoint remove_one (c : context) (l : list context) : list context :=
  match l with
  | [] => []
  | c' :: rest => if Nat.eqb c c' then rest else c' :: remove_one c rest
  end.

Definition label_of_action (a : action) : label :=
  match a with
  | release r => freed r
  | _ => silent
  end.

Definition label_of_call (c : call) (r : exn + ret c) : label :=
  match c as c0 return exn + ret c0 -> label with
  | acquire res => fun r => match r with inr _ => granted res | inl _ => interrupted res end
  | new_context _ => fun r => match r with inr c' => opened c' | inl _ => silent end
  | context_close c' => fun _ => closed c'
  | _ => fun _ => silent
  end r.

Definition holds_after (l : label) (t : task) (k : prog R) : task :=
  match l with
  | granted Semaphore => {| code := k; slots := slots t + 1; leases := leases t |}
  | freed Semaphore => {| code := k; slots := slots t - 1; leases := leases t |}
  | opened c => {| code := k; slots := slots t; leases := c :: leases t |}
  | closed c => {| code := k; slots := slots t; leases := remove_one c (leases t) |}
  | _ => {| code := k; slots := slots t; leases := leases t |}
  end.

(** One operation of one coroutine. *)
Inductive task_step (sh : shared) (t : task) : label -> shared -> task -> Prop :=
| step_do a k v sh' :
    code t = Do a k ->
    acts sh a v sh' ->
    task_step sh t (label_of_action a) sh' (holds_after (label_of_action a) t (k v))
| step_await c k r sh' :
    code t = Await c k ->
    answers sh c r sh' ->
    task_step sh t (label_of_call c r) sh' (holds_after (label_of_call c r) t (k r)).

(** One operation of the event loop. *)
Inductive step : config -> label -> config -> Prop :=
| step_task sh sh' before t t' later l :
    task_step sh t l sh' t' ->
    step {| pool := sh; tasks := before ++ t :: later |} l
         {| pool := sh'; tasks := before ++ t' :: later |}.

Inductive steps : config -> list label -> config -> Prop :=
| steps_nil cfg : steps cfg [] cfg
| steps_cons cfg l cfg' ls cfg'' :
    step cfg l cfg' -> steps cfg' ls cfg'' -> steps cfg (l :: ls) cfg''.

(** The start: [N] permits, the lock free, every coroutine at its first
    operation and holding nothing. *)
Definition fresh (p : prog R) : task := {| code := p; slots := 0; leases := [] |}.

Definition initial (N : Z) (b : option browser) (ps : list (prog R)) : config :=
  {| pool := {| the_browser := b; permits := N; locked := false |};
     tasks := map fresh ps |}.

(** The contexts open in a configuration. *)
Definition open_contexts (cfg : config) : list context :=
  flat_map leases (tasks cfg).

Definition is_closed (l : label) : bool :=
  match l with closed _ => true | _ => false end.

Definition is_granted_semaphore (l : label) : bool :=
  match l with granted Semaphore => true | _ => false end.

(** ** The discipline a coroutine follows

    [Idle]: no slot; [Slot]: a slot and no context; [Lease c]: a slot and
    the open context [c].  [follows st p post] says that [p], started in
    [st], takes a slot only when idle, opens a context only on a slot
    without one, closes only the context it leases, frees a slot only when
    it holds one without a context, and ends as [post] says. *)
Inductive status := Idle | Slot | Lease (c : context).

Definition do_allowed (st : status) (a : action) : Prop :=
  match a with
  | release Semaphore => st = Slot
  | _ => True
  end.

Definition after_do (st : status) (a : action) : status :=
  match a with
  | release Semaphore => Idle
  | _ => st
  end.

Definition await_allowed (st : status) (c : call) : Prop :=
  match c with
  | acquire Semaphore => st = Idle
  | new_context _ => st = Slot
  | context_close c' => st = Lease c'
  | _ => True
  end.

Definition after_await (st : status) (c : call) (r : exn + ret c) : status :=
  match c as c0 return exn + ret c0 -> status with
  | acquire Semaphore => fun r => match r with inr _ => Slot | inl _ => st end
  | new_context _ => fun r => match r with inr c' => Lease c' | inl _ => st end
  | context_close _ => fun _ => Slot
  | _ => fun _ => st
  end r.

Fixpoint follows (st : status) (p : prog R)
    (post : status -> exn + R -> Prop) : Prop :=
  match p with
  | Ret a => post st (inr a)
  | Raise e => post st (inl e)
  | Do a k => do_allowed st a /\ forall v, follows (after_do st a) (k v) post
  | Await c k =>
      await_allowed st c /\ forall r, follows (after_await st c r) (k r) post
  end.

Definition anyhow : status -> exn + R -> Prop := fun _ _ => True.

(** A task holds what its status says. *)
Definition holds (st : status) (t : task) : Prop :=
  match st with
  | Idle => slots t = 0 /\ leases t = []
  | Slot => slots t = 1 /\ leases t = []
  | Lease c => slots t = 1 /\ leases t = [c]
  end.

Definition disciplined (t : task) : Prop :=
  exists st, holds st t /\ follows st (code t) anyhow.

Fixpoint total_slots (ts : list task) : Z :=
  match ts with
  | [] => 0
  | t :: rest => slots t + total_slots rest
  end.

(** The invariant of a pool of capacity [N]. *)
Definition invariant (N : Z) (cfg : config) : Prop :=
  0 <= permits (pool cfg)
  /\ permits (pool cfg) + total_slots (tasks cfg) = N
  /\ Forall disciplined (tasks cfg).

(** Every permit is taken and every slot carries an open context. *)
Definition saturated (cfg : config) : Prop :=
  permits (pool cfg) = 0
  /\ Forall (fun t => Z.of_nat (List.length (leases t)) = slots t) (tasks cfg).

Definition is_freed_semaphore (l : label) : bool :=
  match l with freed Semaphore => true | _ => false end.

End Tasks.

(** A coroutine that does not touch the semaphore or the contexts. *)
Definition quiet {A : Type} (p : prog A) : Prop :=
  avoids pool_action pool_call p.

(** The shape of [_do_capture] and [_do_extract]: a context is acquired,
    used, and released in a [finally]. *)
Definition lease {A : Type} (work : option context -> prog A) : prog A :=
  context <- Pool.acquire_context ;;
  try_finally (work context) (Pool.release_context context).

(** What [try_open] leaves of a slot: a context comes with its lease,
    anything else leaves the slot as it is. *)
Definition opened_or_not (st : status) (r : exn + option context) : Prop :=
  match r with
  | inr (Some c) => st = Lease c
  | _ => st = Slot
  end.

(** What [acquire_context] leaves of an idle caller: a context comes with
    its lease; a failure leaves the caller idle, or on the slot when the
    failure is a cancellation. *)
Definition acquired_or_not (st : status) (r : exn + option context) : Prop :=
  match r with
  | inr (Some c) => st = Lease c
  | inr None => st = Slot
  | inl e => st = Idle \/ (st = Slot /\ is_Exception e = false)
  end.

(** What a caller holds with the value [acquire_context] returned. *)
Definition holding (c : option context) : status :=
  match c with Some c' => Lease c' | None => Slot end.

End Concurrent.

(* ================================================================== *)
(** * The specification's wording of the transform, and sample inputs *)

Module Wording.
Import Images.

(** The filter, as the specification words it: a record is dropped when
    its width or height is below the minimums, when it is exactly 1x1, or
    when its source is empty or a [data:] URI. *)
Definition dropped (img : RawImage) (min_width min_height : Z) : Prop :=
  width img < min_width \/ height img < min_height
  \/ (width img = 1 /\ height img = 1)
  \/ src img = EmptyString
  \/ exists rest, src img = ("data:" ++ rest)%string.

Definition droppedb (img : RawImage) (min_width min_height : Z) : bool :=
  (width img <? min_width) || (height img <? min_height)
  || ((width img =? 1) && (height img =? 1))
  || String.eqb (src img) EmptyString
  || String.prefix "data:" (src img).

(** The classification, as the specification words it: an ordered list of
    rules, the first that matches decides, [content] when none does. *)
Definition rules (vw vh : Z) : list ((RawImage -> bool) * Classification) :=
  [ (fun img => hero_test img vw vh, hero);
    (logo_test, logo);
    (product_test, product);
    (icon_test, icon);
    (thumbnail_test, thumbnail) ].

Definition first_match (rs : list ((RawImage -> bool) * Classification))
    (img : RawImage) : Classification :=
  match find (fun r => fst r img) rs with
  | Some r => snd r
  | None => content
  end.

End Wording.

Module Samples.
Import Images.

Definition image (s : string) (w h top : Z) (logo_hint header_hint : bool)
  : RawImage :=
  {| src := s; srcset := None; alt := EmptyString; width := w; height := h;
     format := "png"; position := {| x := 0; y := top; visible := true |};
     containsLogo := logo_hint; containsProductKeywords := false;
     inHeader := header_hint; isLazyLoaded := false;
     className := EmptyString; parentTag := Some "div" |}.

(** The viewport every context of the pool is opened with. *)
Definition viewport : PageContext :=
  {| viewportWidth := 1920; viewportHeight := 1080; scrollHeight := 4000 |}.

Definition banner : RawImage := image "https://example.com/logo-banner.png" 1200 600 0 true true.
(** A narrow viewport, and a record that passes both the hero test and the
    logo test there. *)
Definition narrow : PageContext :=
  {| viewportWidth := 400; viewportHeight := 1080; scrollHeight := 4000 |}.
Definition masthead : RawImage := image "https://example.com/logo.png" 250 500 0 true true.
Definition pixel : RawImage := image "https://example.com/t.gif" 1 1 0 false false.
Definition inline : RawImage := image "data:image/png;base64,AAAA" 640 480 0 false false.
Definition photo : RawImage := image "https://example.com/a.jpg" 640 480 900 false false.
Definition thumb : RawImage := image "https://example.com/m.jpg" 120 120 900 false false.
Definition small : RawImage := image "https://example.com/s.jpg" 120 90 900 false false.

Definition page_of (l : list RawImage) : ImageData :=
  {| allImages := l; pageContext := viewport; lazyLoadedCount := 0 |}.

End Samples.

Module Worlds.
Import Effects.

(** The answer of an operation that succeeds. *)
Definition succeed (c : call) : exn + ret c :=
  match c return exn + ret c with
  | chromium_launch => inr 1%nat
  | new_context _ => inr 7%nat
  | new_page _ => inr 1%nat
  | evaluate _ js =>
      inr (match js return js_result js with
           | WAIT_FOR_CONTENT_JS =>
               {| ready := true; textLen := 600; imgCount := 4; source := "body" |}
           | EXTRACT_IMAGES_JS _ =>
               Samples.page_of [Samples.pixel; Samples.photo; Samples.banner; Samples.photo]
           | _ => tt
           end)
  | screenshot _ _ => inr [Byte.x89; Byte.x50; Byte.x4e; Byte.x47]
  | upload_screenshot _ fmt =>
      inr {| url := "https://storage.googleapis.com/bucket/screenshot.png";
             fileName := "screenshot.png"; fileSize := 4;
             contentType := "image/png" |}
  | _ => inr tt
  end.

(** Everything works. *)
Definition calm : world :=
  {| respond := fun _ c => succeed c;
     connected := fun _ _ => true;
     clock := fun t => Z.of_nat t |}.

(** The browser is up but refuses every new context. *)
Definition refusing : world :=
  {| respond := fun _ c =>
       match c return exn + ret c with
       | new_context _ => inl (Error "Target page, context or browser has been closed")
       | c' => succeed c'
       end;
     connected := fun _ _ => true;
     clock := fun t => Z.of_nat t |}.

(** Closing a context fails. *)
Definition stale : world :=
  {| respond := fun _ c =>
       match c return exn + ret c with
       | context_close _ => inl (Error "Target page, context or browser has been closed")
       | c' => succeed c'
       end;
     connected := fun _ _ => true;
     clock := fun t => Z.of_nat t |}.

(** The pool after [start()], with three permits. *)
Definition started : state :=
  {| _browser := Some 1%nat; _semaphore := 3; _lock := false; tick := 0 |}.

Definition request : Routes.ScreenshotRequest :=
  {| Routes.req_url := "https://example.com/"; Routes.fullPage := true;
     Routes.format := "png"; Routes.quality := 90; Routes.delay := 0 |}.

End Worlds.

Module Claims.
Import Effects.

(** What the specification says of the capture timer: when it fires, the
    route reports a hard error that is not a timeout. *)
Definition reported_as_hard_error (r : Routes.Response) : Prop :=
  Routes.timeout r <> Some true /\ Routes.retryable r = Some false.

Definition capture_timer_is_hard_error : Prop :=
  forall w s cfg reason body o s' evs r,
    run w (Routes.screenshot cfg (true, reason) (Some 0%nat) None body) s
      = (o, s', evs) ->
    timer_fired evs = true ->
    o = Returned r ->
    reported_as_hard_error r.

(** What the specification says of the two pipelines: the same operations
    on the page, with the same arguments, before the final step. *)
Definition same_stages : Prop :=
  forall w s cfg p target delay o1 s1 ev1 o2 s2 ev2,
    run w (Capture.readiness cfg p target delay) s = (o1, s1, ev1) ->
    run w (Extract.readiness cfg p target) s = (o2, s2, ev2) ->
    page_calls ev1 = page_calls ev2.

(** The stages the two pipelines have in common, and those they do not. *)
Definition opening (cfg : Settings) (p : page) (target : string) : list call :=
  [goto p target "commit" (screenshot_page_navigation_timeout cfg);
   wait_for_load_state p "load" 30000].

Definition scrolling (p : page) : list call :=
  [evaluate p AUTO_SCROLL_JS;
   wait_for_load_state p "networkidle" 10000;
   evaluate p WAIT_FOR_IMAGES_JS].

Definition capture_probing (p : page) (first_ready : bool) : list call :=
  if first_ready then [evaluate p WAIT_FOR_CONTENT_JS]
  else [evaluate p WAIT_FOR_CONTENT_JS;
        wait_for_load_state p "networkidle" 10000;
        evaluate p WAIT_FOR_CONTENT_JS].

Definition extract_probing (p : page) : list call :=
  [wait_for_load_state p "networkidle" 15000; evaluate p BODY_HTML_JS].

Definition capture_sleep (cfg : Settings) (delay : Z) : list call :=
  match Capture.post_load_sleep delay (screenshot_post_load_delay cfg) with
  | Some ms => [sleep ms]
  | None => []
  end.

Definition extract_sleep (cfg : Settings) : list call :=
  if 0 <? screenshot_post_load_delay cfg
  then [sleep (Z.min (screenshot_post_load_delay cfg) 10000)]
  else [].

End Claims.

Module Pages.
Import Effects Probe.



(** A page that stays empty, with two images without a source. *)
Definition blank_page : Document :=
  {| querySelector := fun _ _ => None;
     children_length := fun _ _ => 0;
     text_length := fun _ _ => 0;
     img_src_count := fun _ _ => 0;
     img_count := fun _ => 2;
     body := fun _ => Some 0%nat;
     wake := fun t ms => t + ms |}.

(** A page that grows by a screen whenever it is scrolled, in a window
    1080 pixels high, with a timer that fires on time. *)
Definition endless : Scroll.Window :=
  {| Scroll.innerHeight := 1080;
     Scroll.scrollHeight := fun n => Some (1000000 + 1080 * Z.of_nat n);
     Scroll.startTime := 0;
     Scroll.now := fun n => 200 * (Z.of_nat n + 1) |}.

(** A document without a body, such as an SVG image opened by its URL. *)
Definition bodiless : Scroll.Window :=
  {| Scroll.innerHeight := 1080;
     Scroll.scrollHeight := fun _ => None;
     Scroll.startTime := 0;
     Scroll.now := fun n => 200 * (Z.of_nat n + 1) |}.

End Pages.

(* ================================================================== *)
(** * Further readings of a run *)

Module Readings.
Import Effects.

(** The calls of [chromium.launch], [browser.close] and
    [context.close] a coroutine made. *)
Definition is_launch (ev : event) : bool :=
  match ev with Called chromium_launch _ => true | _ => false end.

Definition is_browser_close (ev : event) : bool :=
  match ev with Called (browser_close _) _ => true | _ => false end.

Definition is_context_close (ev : event) : bool :=
  match ev with Called (context_close _) _ => true | _ => false end.

Definition launches (evs : list event) : nat :=
  List.length (filter is_launch evs).

Definition browser_closes (evs : list event) : nat :=
  List.length (filter is_browser_close evs).

Definition context_closes (evs : list event) : nat :=
  List.length (filter is_context_close evs).

(** An awaited operation on the pool's resources, which may have to
    wait. *)
Definition is_acquire (c : call) : bool :=
  match c with acquire _ => true | _ => false end.

(** The in-page query with the background flag set. *)
Definition asks_backgrounds (c : call) : bool :=
  match c with evaluate _ (EXTRACT_IMAGES_JS true) => true | _ => false end.

(** The arguments of [asyncio.sleep], in milliseconds and in order, among
    the operations of a run. *)
Definition is_sleep (c : call) : bool :=
  match c with sleep _ => true | _ => false end.

Fixpoint sleep_calls (evs : list event) : list Z :=
  match evs with
  | [] => []
  | Called (sleep ms) _ :: rest => ms :: sleep_calls rest
  | _ :: rest => sleep_calls rest
  end.

(** The time slept in all. *)
Definition slept (evs : list event) : Z :=
  fold_right Z.add 0 (sleep_calls evs).

(** The advisory waits of the pipelines. *)
Definition is_wait (c : call) : bool :=
  match c with wait_for_load_state _ _ _ => true | _ => false end.

(** The exception [e] a coroutine ended with is the one its last
    operation raised, and that operation is not an advisory wait unless
    [e] is a cancellation. *)
Definition blamed (e : exn) (evs : list event) : Prop :=
  exists pre c,
    evs = pre ++ [Called c (Some e)]
    /\ (is_wait c = true -> is_Exception e = false).

(** Every operation a coroutine can await satisfies [P]. *)
Fixpoint awaits_only {A : Type} (P : call -> Prop) (p : prog A) : Prop :=
  match p with
  | Ret _ | Raise _ => True
  | Do a k => forall v, awaits_only P (k v)
  | Await c k => P c /\ forall r, awaits_only P (k r)
  end.

(** How a coroutine can end: every value it can return satisfies [PR],
    every exception it can raise satisfies [PE]. *)
Fixpoint ends {A : Type} (PR : A -> Prop) (PE : exn -> Prop) (p : prog A) : Prop :=
  match p with
  | Ret a => PR a
  | Raise e => PE e
  | Do a k => forall v, ends PR PE (k v)
  | Await c k => forall r, ends PR PE (k r)
  end.

(** A coroutine that does not return and raises nothing an
    [except Exception] would catch: what is left of a coroutine in which a
    cancellation is on its way out. *)
Definition cancelled {A : Type} (p : prog A) : Prop :=
  ends (fun _ => False) (fun e => is_Exception e = false) p.

(** A coroutine that raises nothing an [except Exception] would catch. *)
Definition gentle {A : Type} (p : prog A) : Prop :=
  ends (fun _ => True) (fun e => is_Exception e = false) p.

(** No await of the coroutine swallows a cancellation: were it delivered
    there, the coroutine would end with it. *)
Fixpoint strict {A : Type} (p : prog A) : Prop :=
  match p with
  | Ret _ | Raise _ => True
  | Do a k => forall v, strict (k v)
  | Await c k => cancelled (k (inl CancelledError)) /\ forall r, strict (k r)
  end.

(** Every value a coroutine can return satisfies [P]. *)
Fixpoint ensures {A : Type} (P : A -> Prop) (p : prog A) : Prop :=
  match p with
  | Ret a => P a
  | Raise _ => True
  | Do a k => forall v, ensures P (k v)
  | Await c k => forall r, ensures P (k r)
  end.

End Readings.

Module MoreWorlds.
Import Effects.

(** The target refuses the connection. *)
Definition unreachable : world :=
  {| respond := fun _ c =>
       match c return exn + ret c with
       | goto _ _ _ _ => inl (Error "net::ERR_CONNECTION_REFUSED")
       | c' => Worlds.succeed c'
       end;
     connected := fun _ _ => true;
     clock := fun t => Z.of_nat t |}.

(** The page loads but its load state and network never settle. *)
Definition restless : world :=
  {| respond := fun _ c =>
       match c return exn + ret c with
       | wait_for_load_state _ _ _ => inl (Error "Timeout exceeded.")
       | c' => Worlds.succeed c'
       end;
     connected := fun _ _ => true;
     clock := fun t => Z.of_nat t |}.

(** The upload does not finish in time. *)
Definition upload_stalls : world :=
  {| respond := fun _ c =>
       match c return exn + ret c with
       | upload_screenshot _ _ => inl TimeoutError
       | c' => Worlds.succeed c'
       end;
     connected := fun _ _ => true;
     clock := fun t => Z.of_nat t |}.

(** The upload is refused. *)
Definition upload_refused : world :=
  {| respond := fun _ c =>
       match c return exn + ret c with
       | upload_screenshot _ _ => inl (Error "403 Forbidden")
       | c' => Worlds.succeed c'
       end;
     connected := fun _ _ => true;
     clock := fun t => Z.of_nat t |}.

(** The readiness probe reports that the page is not ready. *)
Definition unready : world :=
  {| respond := fun _ c =>
       match c return exn + ret c with
       | evaluate _ WAIT_FOR_CONTENT_JS =>
           inr {| ready := false; textLen := 0; imgCount := 0;
                  source := "timeout" |}
       | c' => Worlds.succeed c'
       end;
     connected := fun _ _ => true;
     clock := fun t => Z.of_nat t |}.

(** A cancellation arrives while the context is being created. *)
Definition interrupted : world :=
  {| respond := fun _ c =>
       match c return exn + ret c with
       | new_context _ => inl CancelledError
       | c' => Worlds.succeed c'
       end;
     connected := fun _ _ => true;
     clock := fun t => Z.of_nat t |}.

(** What [urlparse] makes of [https://example.com/] and of
    [http://localhost:8080/]. *)
Definition public_url : Security.ParseResult :=
  {| Security.scheme := "https"; Security.hostname := Some "example.com";
     Security.username := None; Security.password := None |}.

Definition local_url : Security.ParseResult :=
  {| Security.scheme := "http"; Security.hostname := Some "localhost";
     Security.username := None; Security.password := None |}.

(** An image request without options, and one with them. *)
Definition bare_request : Requests.ImageExtractionRequest :=
  {| Requests.url := "https://example.com/"; Requests.options := None |}.

Definition bounded_request : Requests.ImageExtractionRequest :=
  {| Requests.url := "https://example.com/";
     Requests.options := Some {| Requests.minWidth := 0; Requests.minHeight := 0;
                                 Requests.maxImages := 500 |} |}.

End MoreWorlds.

(* ================================================================== *)
(** * Requests in flight *)

Module Traffic.
Import Effects.

(** A request being served: one of the two routes with its arguments.
    The timer of [capture_screenshot] around [page.screenshot] may fire;
    the timer around the whole operation does not. *)
Inductive request :=
| to_screenshot (cfg : Settings) (verdict : bool * option string)
    (capture_timer : option nat) (body : Routes.ScreenshotRequest)
| to_extract_images (cfg : Settings) (verdict : bool * option string)
    (body : Requests.ImageExtractionRequest).

(** The coroutine of a request, its answer left out. *)
Definition handler (r : request) : prog unit :=
  match r with
  | to_screenshot cfg verdict capture_timer body =>
      Routes.screenshot cfg verdict capture_timer None body ;; Ret tt
  | to_extract_images cfg verdict body =>
      ImageRoutes.extract_images_endpoint cfg verdict None body ;; Ret tt
  end.

(** The same with the timer around the whole operation, which may fire
    at any await. *)
Definition served (overall_timer : option nat) (r : request) : prog unit :=
  match r with
  | to_screenshot cfg verdict capture_timer body =>
      Routes.screenshot cfg verdict capture_timer overall_timer body ;; Ret tt
  | to_extract_images cfg verdict body =>
      ImageRoutes.extract_images_endpoint cfg verdict overall_timer body ;; Ret tt
  end.

End Traffic.

(* ================================================================== *)
(** * Callers of the pool *)

Module Callers.
Import Effects Concurrent.

(** The acquisitions of the semaphore granted, and the releases made, in
    a history of the event loop. *)
Definition grants (ls : list label) : Z :=
  Z.of_nat (List.length (filter is_granted_semaphore ls)).

Definition frees (ls : list label) : Z :=
  Z.of_nat (List.length (filter is_freed_semaphore ls)).

(** What [_do_capture] does with the context it was given, inside its
    [try]. *)
Definition capture_work (cfg : Settings) (timer : option nat) (target : string)
    (full_page : bool) (fmt : string) (quality delay : Z)
    (context : option context) : prog bytes :=
  p <- Capture.open_page context ;;
  Capture.readiness cfg p target delay ;;
  Capture.take_screenshot cfg timer p full_page fmt quality.

End Callers.

(* ================================================================== *)
(** * The lock of the pool

    [held] says whether a coroutine holds [self._lock].  [guarded held p
    post] says that [p], started with [held], takes the lock only when it
    does not hold it, gives it back only when it holds it, launches or
    closes the browser and writes [self._browser] only while it holds it,
    and ends as [post] says. *)

Module Guard.
Import Effects Concurrent.

Definition lock_action (a : action) : bool :=
  match a with release Lock | set_browser _ => true | _ => false end.

Definition lock_call (c : call) : bool :=
  match c with
  | acquire Lock | chromium_launch | browser_close _ => true
  | _ => false
  end.

Definition do_allowed (held : bool) (a : action) : Prop :=
  match a with
  | release Lock | set_browser _ => held = true
  | _ => True
  end.

Definition after_do (held : bool) (a : action) : bool :=
  match a with
  | release Lock => false
  | _ => held
  end.

Definition await_allowed (held : bool) (c : call) : Prop :=
  match c with
  | acquire Lock => held = false
  | chromium_launch | browser_close _ => held = true
  | _ => True
  end.

Definition after_await (held : bool) (c : call) (r : exn + ret c) : bool :=
  match c as c0 return exn + ret c0 -> bool with
  | acquire Lock => fun r => match r with inr _ => true | inl _ => held end
  | _ => fun _ => held
  end r.

Fixpoint guarded {R : Type} (held : bool) (p : prog R)
    (post : bool -> exn + R -> Prop) : Prop :=
  match p with
  | Ret a => post held (inr a)
  | Raise e => post held (inl e)
  | Do a k => do_allowed held a /\ forall v, guarded (after_do held a) (k v) post
  | Await c k =>
      await_allowed held c /\ forall r, guarded (after_await held c r) (k r) post
  end.

(** A coroutine that ends without the lock. *)
Definition unlocked {R : Type} : bool -> exn + R -> Prop :=
  fun held _ => held = false.

(** [post] does not look at what is returned or raised. *)
Definition blind {R : Type} (post : bool -> exn + R -> Prop) : Prop :=
  forall h r r', post h r -> post h r'.

(** The next operation of a task launches or closes the browser, or
    writes [self._browser]. *)
Definition critical {R : Type} (t : task R) : Prop :=
  match code t with
  | Do (set_browser _) _ => True
  | Await chromium_launch _ => True
  | Await (browser_close _) _ => True
  | _ => False
  end.

Definition holders (flags : list bool) : Z :=
  Z.of_nat (List.length (filter (fun h : bool => h) flags)).

(** Who holds the lock: one flag per task, each task guarded from its
    flag on, and as many holders as the lock says. *)
Definition lock_invariant {R : Type} (cfg : config R) : Prop :=
  exists flags,
    Forall2 (fun t h => guarded h (code t) (@unlocked R)) (tasks cfg) flags
    /\ holders flags = if locked (pool cfg) then 1 else 0.

End Guard.

(* ================================================================== *)
(** * Properties of the image transform *)

Section ImageFacts.
Import Images Wording.

Lemma startswith_spec p s :
  startswith p s = true <-> exists rest, s = (p ++ rest)%string.
Proof.
  unfold startswith. revert s. induction p as [|a p IH]; intros s; simpl.
  - split; [intros _; exists s; reflexivity | intros _; destruct s; reflexivity].
  - destruct s as [|b s].
    + split; [discriminate | intros [rest H]; discriminate].
    + simpl. destruct (Ascii.ascii_dec a b) as [Hab|Hab].
      * subst b. rewrite IH. split; intros [rest H]; exists rest.
        -- now rewrite H.
        -- now inversion H.
      * split; [discriminate | intros [rest H]; inversion H; congruence].
Qed.

Lemma py_not_str_spec s : py_not_str s = true <-> s = EmptyString.
Proof. destruct s; simpl; split; congruence. Qed.

Lemma droppedb_spec img mw mh : droppedb img mw mh = true <-> dropped img mw mh.
Proof.
  unfold droppedb, dropped.
  rewrite !orb_true_iff, andb_true_iff, !Z.ltb_lt, !Z.eqb_eq, String.eqb_eq.
  fold (startswith "data:" (src img)). rewrite startswith_spec. tauto.
Qed.

Lemma filter_step img mw mh rest :
  _filter_images (img :: rest) mw mh =
  if droppedb img mw mh then _filter_images rest mw mh
  else img :: _filter_images rest mw mh.
Proof.
  simpl. unfold droppedb.
  destruct (width img <? mw), (height img <? mh); simpl; try reflexivity.
  destruct ((width img =? 1) && (height img =? 1)); simpl; try reflexivity.
  replace (String.eqb (src img) EmptyString) with (py_not_str (src img)).
  - reflexivity.
  - destruct (src img); reflexivity.
Qed.

Lemma filter_as_filter images mw mh :
  _filter_images images mw mh =
  filter (fun img => negb (droppedb img mw mh)) images.
Proof.
  induction images as [|img rest IH].
  - reflexivity.
  - rewrite filter_step. simpl filter. rewrite IH.
    destruct (droppedb img mw mh); reflexivity.
Qed.

Lemma filter_length_split images mw mh :
  List.length images =
  (List.length (_filter_images images mw mh)
   + List.length (filter (fun img => droppedb img mw mh) images))%nat.
Proof.
  rewrite filter_as_filter.
  induction images as [|img rest IH]; simpl.
  - reflexivity.
  - destruct (droppedb img mw mh); simpl; lia.
Qed.

Lemma slice_to_length {A : Type} (l : list A) (n : Z) :
  0 <= n ->
  Z.of_nat (List.length (slice_to l n)) = Z.min n (Z.of_nat (List.length l)).
Proof.
  intros Hn. unfold slice_to. destruct (0 <=? n) eqn:E.
  - rewrite length_firstn. lia.
  - apply Z.leb_gt in E. lia.
Qed.

Lemma slice_to_shorter {A : Type} (l : list A) (n : Z) :
  (List.length (slice_to l n) <= List.length l)%nat.
Proof.
  unfold slice_to. destruct (0 <=? n); rewrite length_firstn; lia.
Qed.

Lemma classify_images_length l ctx :
  List.length (_classify_images l ctx) = List.length l.
Proof. unfold _classify_images. apply length_map. Qed.

(** C9. [_filter_images] keeps the records of its input that are not
    dropped, in their order and with their repetitions; a record is dropped
    iff its width or height is below the minimums, or it is 1x1, or its
    source is empty or starts with [data:].  So a 1x1 record goes even with
    minimums 0, and a [data:] source goes whatever the size. *)
Theorem filter_images_drops_iff :
  forall (images : list RawImage) (min_width min_height : Z),
    _filter_images images min_width min_height
      = filter (fun img => negb (droppedb img min_width min_height)) images
    /\ (forall img, droppedb img min_width min_height = true
                    <-> dropped img min_width min_height)
    /\ (forall img, In img (_filter_images images min_width min_height)
                    <-> In img images /\ ~ dropped img min_width min_height)
    /\ (forall img, width img = 1 -> height img = 1 ->
                    ~ In img (_filter_images images 0 0))
    /\ (forall img rest, src img = ("data:" ++ rest)%string ->
                    ~ In img (_filter_images images min_width min_height)).
Proof.
  intros images mw mh.
  assert (Hin : forall img, In img (_filter_images images mw mh)
                            <-> In img images /\ ~ dropped img mw mh).
  { intros img. rewrite filter_as_filter, filter_In, negb_true_iff.
    rewrite <- droppedb_spec. destruct (droppedb img mw mh); intuition congruence. }
  split; [apply filter_as_filter|].
  split; [intros img; apply droppedb_spec|].
  split; [exact Hin|].
  split.
  - intros img Hw Hh Hi. rewrite filter_as_filter, filter_In in Hi.
    destruct Hi as [_ Hi]. apply negb_true_iff in Hi.
    assert (droppedb img 0 0 = true) as E.
    { apply droppedb_spec. unfold dropped. tauto. }
    congruence.
  - intros img rest Hs Hi. apply Hin in Hi. destruct Hi as [_ Hi].
    apply Hi. unfold dropped. do 4 right. now exists rest.
Qed.

Lemma filter_images_drops_iff_witness :
  _filter_images [Samples.pixel; Samples.inline; Samples.photo; Samples.small] 100 100
  = [Samples.photo]
  /\ ~ In Samples.pixel (_filter_images [Samples.pixel; Samples.photo] 0 0)
  /\ ~ In Samples.inline (_filter_images [Samples.inline; Samples.photo] 0 0).
Proof.
  split; [reflexivity|]. split.
  - apply (filter_images_drops_iff [Samples.pixel; Samples.photo] 0 0); reflexivity.
  - apply (proj2 (proj2 (proj2 (proj2
      (filter_images_drops_iff [Samples.inline; Samples.photo] 0 0))))
      Samples.inline "image/png;base64,AAAA"). reflexivity.
Defined.

(** The two float products at the viewport of the pool's contexts. *)
Lemma hero_test_1920x1080 img :
  hero_test img 1920 1080
  = (y (position img) <? 216) && (960 <? width img) && (400 <? height img).
Proof.
  unfold hero_test.
  replace (PyFloat.int_mul 1080 PyFloat.lit_0_2)
    with (PyFloat.Dy 7599824371187712 (-45)) by (vm_compute; reflexivity).
  replace (PyFloat.int_mul 1920 PyFloat.lit_0_5)
    with (PyFloat.Dy 1920 (-1)) by (vm_compute; reflexivity).
  unfold PyFloat.int_lt, PyFloat.int_gt. simpl PyFloat.dexp. simpl PyFloat.dmant.
  change (0 <=? -45) with false. change (0 <=? -1) with false. cbv iota.
  change (2 ^ (- -45)) with 35184372088832. change (2 ^ (- -1)) with 2.
  f_equal. f_equal.
  - destruct (Z.ltb_spec (y (position img) * 35184372088832) 7599824371187712),
             (Z.ltb_spec (y (position img)) 216); try reflexivity; lia.
  - destruct (Z.ltb_spec 1920 (width img * 2)),
             (Z.ltb_spec 960 (width img)); try reflexivity; lia.
Qed.

Lemma classify_first_match img vw vh :
  classify img vw vh = first_match (rules vw vh) img.
Proof.
  unfold classify, first_match, rules. simpl.
  destruct (hero_test img vw vh); [reflexivity|].
  destruct (logo_test img); [reflexivity|].
  destruct (product_test img); [reflexivity|].
  destruct (icon_test img); [reflexivity|].
  destruct (thumbnail_test img); reflexivity.
Qed.

(** C8. Every record handed to [_classify_images] comes out once, with the
    label of the first rule it matches in the order hero, logo, product,
    icon, thumbnail, and [content] when it matches none; the rules test
    what the specification says (for hero: at the 1920x1080 viewport of the
    pool's contexts, a top edge above 20% of the height, a width above half
    the viewport's, a height above 400).  A record that passes the hero
    test and the logo test is a hero. *)
Theorem classify_images_first_match :
  forall (images : list RawImage) (page_context : PageContext),
    let vw := viewportWidth page_context in
    let vh := viewportHeight page_context in
    map Extracted.classification (_classify_images images page_context)
      = map (fun img => label (first_match (rules vw vh) img)) images
    /\ map Extracted.src (_classify_images images page_context) = map src images
    /\ (forall img, hero_test img vw vh = true -> logo_test img = true ->
                    classify img vw vh = hero)
    /\ (forall img, hero_test img 1920 1080 = true
                    <-> y (position img) < 216 /\ 960 < width img /\ 400 < height img)
    /\ (forall img, logo_test img = true
                    <-> containsLogo img = true /\ inHeader img = true /\ width img < 300)
    /\ (forall img, product_test img = true
                    <-> 300 <= width img /\ 200 <= height img
                        /\ containsProductKeywords img = true)
    /\ (forall img, icon_test img = true <-> width img < 100 /\ height img < 100)
    /\ (forall img, thumbnail_test img = true
                    <-> (100 <= width img < 400) /\ (100 <= height img < 400)).
Proof.
  intros images page_context vw vh.
  split; [|split; [|split; [|split; [|split; [|split; [|split]]]]]].
  - unfold _classify_images. rewrite map_map. apply map_ext. intros img. simpl.
    fold vw. fold vh. now rewrite classify_first_match.
  - unfold _classify_images. rewrite map_map. apply map_ext. reflexivity.
  - intros img Hh _. unfold classify. now rewrite Hh.
  - intros img. rewrite hero_test_1920x1080, !andb_true_iff, !Z.ltb_lt. tauto.
  - intros img. unfold logo_test. rewrite !andb_true_iff, Z.ltb_lt. tauto.
  - intros img. unfold product_test. rewrite !andb_true_iff, !Z.leb_le. tauto.
  - intros img. unfold icon_test. rewrite !andb_true_iff, !Z.ltb_lt. tauto.
  - intros img. unfold thumbnail_test.
    rewrite !andb_true_iff, !Z.leb_le, !Z.ltb_lt. tauto.
Qed.

Lemma classify_images_first_match_witness :
  classify Samples.masthead 400 1080 = hero
  /\ map Extracted.classification
       (_classify_images [Samples.banner; Samples.photo; Samples.thumb] Samples.viewport)
     = ["hero"; "content"; "thumbnail"].
Proof.
  split.
  - apply (classify_images_first_match [] Samples.narrow).
    + vm_compute. reflexivity.
    + reflexivity.
  - rewrite (proj1 (classify_images_first_match _ Samples.viewport)).
    vm_compute. reflexivity.
Defined.

(** The counters of a result, from the data they are computed on. *)
Lemma transform_counts :
  forall (image_data : ImageData) (min_width min_height max_images elapsed : Z),
    let raw := allImages image_data in
    let filtered := _filter_images raw min_width min_height in
    let result := assemble (transform image_data min_width min_height max_images) elapsed in
    filteredOut (metadata result)
      = Z.of_nat (List.length (filter (fun img => droppedb img min_width min_height) raw))
    /\ result_images result
       = _classify_images (slice_to filtered max_images) (pageContext image_data)
    /\ totalImages (metadata result) = Z.of_nat (List.length (result_images result))
    /\ (0 <= max_images ->
        totalImages (metadata result) = Z.min max_images (Z.of_nat (List.length filtered)))
    /\ (0 <= max_images -> max_images < Z.of_nat (List.length filtered) ->
        totalImages (metadata result) + filteredOut (metadata result)
          < Z.of_nat (List.length raw)).
Proof.
  intros image_data mw mh mx elapsed raw filtered result.
  assert (Hsplit := filter_length_split raw mw mh). fold filtered in Hsplit.
  assert (Htot : totalImages (metadata result)
                 = Z.of_nat (List.length (slice_to filtered mx))).
  { subst result. simpl. now rewrite classify_images_length. }
  assert (Hout : filteredOut (metadata result)
                 = Z.of_nat (List.length raw) - Z.of_nat (List.length filtered)).
  { reflexivity. }
  split; [rewrite Hout; lia|].
  split; [reflexivity|].
  split; [reflexivity|].
  split.
  - intros Hmx. rewrite Htot. now apply slice_to_length.
  - intros Hmx Hlong. rewrite Htot, Hout, slice_to_length by assumption. lia.
Qed.

End ImageFacts.

(* ================================================================== *)
(** * The post-load delay *)

Section DelayFacts.
Import Capture.

Lemma effective_wait_clamped delay post_load :
  effective_wait delay post_load = Z.max 0 (Z.min (Z.max delay post_load) 10000).
Proof.
  unfold effective_wait, post_load_sleep.
  destruct (Z.ltb_spec 0 (Z.max delay post_load)); lia.
Qed.

End DelayFacts.

(* ================================================================== *)
(** * Execution of composed coroutines *)

Section RunFacts.
Import Effects.

Lemma run_bind A B w (p : prog A) (f : A -> prog B) s :
  run w (bind p f) s =
  let '(o, s1, ev1) := run w p s in
  match o with
  | Returned a => let '(o2, s2, ev2) := run w (f a) s1 in (o2, s2, ev1 ++ ev2)
  | Raised e => (Raised e, s1, ev1)
  | Blocked => (Blocked, s1, ev1)
  end.
Proof.
  revert s. induction p as [a|e|a k IH|c k IH]; intros s; simpl.
  - destruct (run w (f a) s) as [[o2 s2] ev2]. reflexivity.
  - reflexivity.
  - destruct (perform w a s) as [v s']. rewrite IH.
    destruct (run w (k v) s') as [[o s1] ev1].
    destruct o; [destruct (run w (f a0) s1) as [[o2 s2] ev2]|..]; reflexivity.
  - destruct (answer w c s) as [r|]; [|reflexivity]. rewrite IH.
    destruct (run w (k r) _) as [[o s1] ev1].
    destruct o; [destruct (run w (f a) s1) as [[o2 s2] ev2]|..]; reflexivity.
Qed.

Lemma run_try_catch A w catches (p : prog A) h s :
  run w (try_catch catches p h) s =
  let '(o, s1, ev1) := run w p s in
  match o with
  | Raised e =>
      if catches e
      then let '(o2, s2, ev2) := run w (h e) s1 in (o2, s2, ev1 ++ ev2)
      else (Raised e, s1, ev1)
  | _ => (o, s1, ev1)
  end.
Proof.
  revert s. induction p as [a|e|a k IH|c k IH]; intros s; simpl.
  - reflexivity.
  - destruct (catches e); [|reflexivity].
    destruct (run w (h e) s) as [[o2 s2] ev2]. reflexivity.
  - destruct (perform w a s) as [v s']. rewrite IH.
    destruct (run w (k v) s') as [[o s1] ev1].
    destruct o; try reflexivity.
    destruct (catches e); [|reflexivity].
    destruct (run w (h e) s1) as [[o2 s2] ev2]. reflexivity.
  - destruct (answer w c s) as [r|]; [|reflexivity]. rewrite IH.
    destruct (run w (k r) _) as [[o s1] ev1].
    destruct o; try reflexivity.
    destruct (catches e); [|reflexivity].
    destruct (run w (h e) s1) as [[o2 s2] ev2]. reflexivity.
Qed.

Lemma run_try_finally A w (p : prog A) f s :
  run w (try_finally p f) s =
  let '(o, s1, ev1) := run w p s in
  match o with
  | Blocked => (Blocked, s1, ev1)
  | _ =>
      let '(o2, s2, ev2) := run w f s1 in
      (match o2 with
       | Returned _ => o
       | Raised e' => Raised e'
       | Blocked => Blocked
       end, s2, ev1 ++ ev2)
  end.
Proof.
  revert s. induction p as [a|e|a k IH|c k IH]; intros s; simpl.
  - rewrite run_bind. destruct (run w f s) as [[o2 s2] ev2].
    destruct o2; simpl; rewrite ?app_nil_r; reflexivity.
  - rewrite run_bind. destruct (run w f s) as [[o2 s2] ev2].
    destruct o2; simpl; rewrite ?app_nil_r; reflexivity.
  - destruct (perform w a s) as [v s']. rewrite IH.
    destruct (run w (k v) s') as [[o s1] ev1].
    destruct o; try reflexivity;
      destruct (run w f s1) as [[o2 s2] ev2]; reflexivity.
  - destruct (answer w c s) as [r|]; [|reflexivity]. rewrite IH.
    destruct (run w (k r) _) as [[o s1] ev1].
    destruct o; try reflexivity;
      destruct (run w f s1) as [[o2 s2] ev2]; reflexivity.
Qed.

Lemma releases_app a b : releases (a ++ b) = (releases a + releases b)%nat.
Proof. unfold releases. now rewrite filter_app, length_app. Qed.

Lemma acquisitions_app a b :
  acquisitions (a ++ b) = (acquisitions a + acquisitions b)%nat.
Proof. unfold acquisitions. now rewrite filter_app, length_app. Qed.

Lemma failed_creations_app a b :
  failed_creations (a ++ b) = failed_creations a ++ failed_creations b.
Proof.
  induction a as [|ev a IH]; simpl; [reflexivity|].
  destruct ev as [act|c [e|]]; try assumption; destruct c; simpl; congruence.
Qed.

Lemma creations_app a b : creations (a ++ b) = (creations a + creations b)%nat.
Proof. unfold creations. now rewrite filter_app, length_app. Qed.

Lemma page_calls_app a b : page_calls (a ++ b) = page_calls a ++ page_calls b.
Proof.
  induction a as [|ev a IH]; simpl; [reflexivity|].
  destruct ev as [act|c o]; try assumption; destruct c; simpl; congruence.
Qed.

End RunFacts.

(* ================================================================== *)
(** * Coroutines that avoid some operations *)

Section AvoidFacts.
Import Effects.
Variables (ba : action -> bool) (bc : call -> bool).

Lemma avoids_bind A B (p : prog A) (f : A -> prog B) :
  avoids ba bc p -> (forall a, avoids ba bc (f a)) -> avoids ba bc (bind p f).
Proof.
  intros Hp Hf. induction p as [a|e|a k IH|c k IH]; simpl in *.
  - apply Hf.
  - exact I.
  - destruct Hp as [Ha Hk]. split; [exact Ha|]. intros v. apply IH, Hk.
  - destruct Hp as [Hc Hk]. split; [exact Hc|]. intros r. apply IH, Hk.
Qed.

Lemma avoids_try_catch A catches (p : prog A) h :
  avoids ba bc p -> (forall e, avoids ba bc (h e)) ->
  avoids ba bc (try_catch catches p h).
Proof.
  intros Hp Hh. induction p as [a|e|a k IH|c k IH]; simpl in *.
  - exact I.
  - destruct (catches e); [apply Hh | exact I].
  - destruct Hp as [Ha Hk]. split; [exact Ha|]. intros v. apply IH, Hk.
  - destruct Hp as [Hc Hk]. split; [exact Hc|]. intros r. apply IH, Hk.
Qed.

Lemma avoids_try_finally A (p : prog A) f :
  avoids ba bc p -> avoids ba bc f -> avoids ba bc (try_finally p f).
Proof.
  intros Hp Hf. induction p as [a|e|a k IH|c k IH]; simpl in *.
  - apply avoids_bind; [exact Hf | intros; exact I].
  - apply avoids_bind; [exact Hf | intros; exact I].
  - destruct Hp as [Ha Hk]. split; [exact Ha|]. intros v. apply IH, Hk.
  - destruct Hp as [Hc Hk]. split; [exact Hc|]. intros r. apply IH, Hk.
Qed.

Lemma avoids_timed_out A (p : prog A) : avoids ba bc p -> avoids ba bc (timed_out p).
Proof.
  intros Hp. induction p as [a|e|a k IH|c k IH]; simpl in *.
  - exact I.
  - destruct e; exact I.
  - destruct Hp as [Ha Hk]. split; [exact Ha|]. intros v. apply IH, Hk.
  - destruct Hp as [Hc Hk]. split; [exact Hc|]. intros r. apply IH, Hk.
Qed.

Lemma avoids_wait_for_none A (p : prog A) :
  avoids ba bc p -> avoids ba bc (wait_for None p).
Proof. destruct p; intros H; exact H. Qed.

Lemma avoids_wait_for A timer (p : prog A) :
  (forall c, ba (abandon c) = false) ->
  avoids ba bc p -> avoids ba bc (wait_for timer p).
Proof.
  intros Hab. destruct timer as [n|]; [|apply avoids_wait_for_none].
  revert n. induction p as [a|e|a k IH|c k IH]; intros n Hp; simpl in *.
  - exact I.
  - exact I.
  - destruct Hp as [Ha Hk]. split; [exact Ha|]. intros v. apply IH, Hk.
  - destruct Hp as [Hc Hk]. destruct n as [|n'].
    + simpl. split; [apply Hab|]. intros _. apply avoids_timed_out, Hk.
    + simpl. split; [exact Hc|]. intros r. apply IH, Hk.
Qed.

Lemma avoids_do (a : action) : ba a = false -> avoids ba bc (do a).
Proof. intros H. simpl. split; [exact H | intros; exact I]. Qed.

Lemma avoids_await (c : call) : bc c = false -> avoids ba bc (await c).
Proof. intros H. simpl. split; [exact H | intros [e|v]; exact I]. Qed.

Lemma avoids_run A w (p : prog A) :
  avoids ba bc p ->
  forall s o s' evs, run w p s = (o, s', evs) ->
    forallb (fun ev => negb (bad_event ba bc ev)) evs = true.
Proof.
  induction p as [a|e|a k IH|c k IH]; simpl; intros Hp s o s' evs Hrun.
  - inversion Hrun; subst. reflexivity.
  - inversion Hrun; subst. reflexivity.
  - destruct Hp as [Ha Hk].
    destruct (perform w a s) as [v s1] eqn:Ep.
    destruct (run w (k v) s1) as [[o1 s2] ev1] eqn:Er.
    inversion Hrun; subst. simpl. rewrite Ha. simpl.
    apply (IH v (Hk v) _ _ _ _ Er).
  - destruct Hp as [Hc Hk].
    destruct (answer w c s) as [r|] eqn:Ea.
    + destruct (run w (k r) _) as [[o1 s2] ev1] eqn:Er.
      inversion Hrun; subst. simpl. rewrite Hc. simpl.
      apply (IH r (Hk r) _ _ _ _ Er).
    + inversion Hrun; subst. reflexivity.
Qed.

End AvoidFacts.

Ltac avoid_step :=
  match goal with
  | |- Effects.avoids _ _ (Effects.bind _ _) => apply avoids_bind; [|intros]
  | |- Effects.avoids _ _ (Effects.try_finally _ _) => apply avoids_try_finally
  | |- Effects.avoids _ _ (Effects.try_except _ _) => apply avoids_try_catch; [|intros]
  | |- Effects.avoids _ _ (Effects.try_catch _ _ _) => apply avoids_try_catch; [|intros]
  | |- Effects.avoids _ _ (Effects.wait_for None _) => apply avoids_wait_for_none
  | |- Effects.avoids _ _ (Effects.wait_for _ _) =>
      apply avoids_wait_for; [intros; reflexivity|]
  | |- Effects.avoids _ _ (Effects.do _) => apply avoids_do; reflexivity
  | |- Effects.avoids _ _ (Effects.await _) => apply avoids_await; reflexivity
  | |- Effects.avoids _ _ (Effects.Ret _) => exact I
  | |- Effects.avoids _ _ (Effects.Raise _) => exact I
  | |- Effects.avoids _ _ (match ?x with _ => _ end) => destruct x
  end.

Section PoolQuiet.
Import Effects Concurrent.

(** A quiet coroutine leaves the semaphore at its value. *)
Lemma quiet_run A w (p : prog A) :
  quiet p ->
  forall s o s' evs, run w p s = (o, s', evs) ->
    _semaphore s' = _semaphore s /\ forallb pool_silent evs = true.
Proof.
  intros Hq s o s' evs Hrun. split; [|apply (avoids_run _ _ w p Hq _ Hrun)].
  revert Hq s o s' evs Hrun. unfold quiet.
  induction p as [a|e|a k IH|c k IH]; simpl; intros Hp s o s' evs Hrun.
  - inversion Hrun; subst. reflexivity.
  - inversion Hrun; subst. reflexivity.
  - destruct Hp as [Ha Hk].
    destruct (perform w a s) as [v s1] eqn:Ep.
    destruct (run w (k v) s1) as [[o1 s2] ev1] eqn:Er.
    inversion Hrun; subst. rewrite (IH v (Hk v) _ _ _ _ Er).
    destruct a as [[|]| | | | | |]; try discriminate;
      inversion Ep; subst; reflexivity.
  - destruct Hp as [Hc Hk].
    destruct (answer w c s) as [r|] eqn:Ea.
    + destruct (run w (k r) _) as [[o1 s2] ev1] eqn:Er.
      inversion Hrun; subst. rewrite (IH r (Hk r) _ _ _ _ Er). clear - Hc.
      destruct c as [[|]| | | | | | | | | | |], (raised_of r);
        try discriminate; reflexivity.
    + inversion Hrun; subst. reflexivity.
Qed.

Lemma silent_counts evs :
  forallb pool_silent evs = true ->
  releases evs = 0%nat /\ acquisitions evs = 0%nat
  /\ failed_creations evs = [] /\ creations evs = 0%nat.
Proof.
  unfold releases, acquisitions, creations.
  induction evs as [|ev evs IH]; simpl; [tauto|].
  rewrite andb_true_iff. intros [Hev Hevs]. specialize (IH Hevs).
  destruct ev as [[[|]| | | | | |]|[[|]| | | | | | | | | | |] [e|]];
    simpl in *; try discriminate; assumption.
Qed.

Lemma quiet_close_quietly : quiet Pool.close_quietly.
Proof. unfold quiet, Pool.close_quietly. repeat avoid_step. Qed.

Lemma quiet_launch_browser : quiet Pool._launch_browser.
Proof. unfold quiet, Pool._launch_browser. repeat avoid_step. Qed.

Lemma quiet_with_lock A (body : prog A) : quiet body -> quiet (Pool.with_lock body).
Proof. unfold quiet. intros H. unfold Pool.with_lock. repeat avoid_step. exact H. Qed.

Lemma quiet_ensure_browser : quiet Pool._ensure_browser.
Proof.
  unfold Pool._ensure_browser. apply quiet_with_lock. unfold quiet.
  repeat avoid_step;
    apply quiet_close_quietly || apply quiet_launch_browser.
Qed.

Lemma quiet_discard_browser :
  quiet (Pool.with_lock (Pool.close_quietly ;; do (set_browser None))).
Proof.
  apply quiet_with_lock. unfold quiet. repeat avoid_step. apply quiet_close_quietly.
Qed.

End PoolQuiet.

(* ================================================================== *)
(** * The pool, one caller *)

Section PoolFacts.
Import Effects Pool.

(** One pass through the [try] of the loop: the semaphore is not touched,
    [new_context] is called at most once, and the pass goes on to the next
    attempt only from attempt 0. *)
Lemma try_open_run w attempt s o s' evs :
  run w (try_open attempt) s = (o, s', evs) ->
  _semaphore s' = _semaphore s
  /\ releases evs = 0%nat /\ acquisitions evs = 0%nat
  /\ (List.length (failed_creations evs) <= 1)%nat
  /\ (forall c, o = Returned (Some c) ->
        failed_creations evs = [] /\ creations evs = 1%nat)
  /\ (o = Returned None -> attempt = 0%nat)
  /\ ((forall c, o <> Returned (Some c)) -> creations evs = 0%nat)
  /\ (forall e, attempt <> 0%nat -> failed_creations evs = [e] -> o = Raised e).
Proof.
  unfold try_open, try_except.
  remember (with_lock (close_quietly;; do (set_browser None))) as discard eqn:Hd.
  assert (Hq : Concurrent.quiet discard) by (subst; apply quiet_discard_browser).
  clear Hd. rewrite run_try_catch, run_bind.
  assert (Hcont : forall s0 o2 s2 ev2,
            run w (discard;; Ret (@None context)) s0 = (o2, s2, ev2) ->
            _semaphore s2 = _semaphore s0
            /\ releases ev2 = 0%nat /\ acquisitions ev2 = 0%nat
            /\ failed_creations ev2 = [] /\ creations ev2 = 0%nat
            /\ (forall c : context, o2 <> Returned (Some c))).
  { intros s0 o2 s2 ev2. rewrite run_bind.
    destruct (run w discard s0) as [[o1 s1] ev1] eqn:E1.
    destruct (quiet_run w _ Hq _ E1) as [Hs Hev].
    destruct (silent_counts _ Hev) as (Hr & Ha & Hf & Hc).
    intros H.
    assert (ev2 = ev1 /\ s2 = s1 /\ forall c, o2 <> Returned (Some c))
      as (-> & -> & Ho).
    { destruct o1; simpl in H; inversion H; subst; rewrite ?app_nil_r;
        repeat split; congruence. }
    repeat split; assumption. }
  simpl. destruct (_browser s) as [b|]; simpl.
  - destruct (respond w (S (tick s)) (new_context b)) as [e|c] eqn:Er; simpl.
    + destruct (is_Exception e) eqn:Ee.
      * destruct (Nat.eqb_spec attempt 0) as [->|Hne].
        -- simpl.
           match goal with |- context [run w ?p ?st] =>
             destruct (run w p st) as [[o2 s2] ev2] eqn:E2 end.
           destruct (Hcont _ _ _ _ E2) as (Hs & Hr & Ha & Hf & Hc & Ho).
           intros H. inversion H; subst.
           unfold releases, acquisitions, creations in *. simpl.
           rewrite Hs, Hr, Ha, Hf, Hc. simpl.
           repeat split; try lia; try congruence;
             intros c Hoc; exfalso; apply (Ho c Hoc).
        -- simpl. intros H. inversion H; subst. simpl.
           repeat split; try lia; try congruence.
      * intros H. inversion H; subst. simpl.
        repeat split; try lia; try congruence.
    + intros H. inversion H; subst. simpl.
      repeat split; try lia; try congruence.
  - destruct (Nat.eqb_spec attempt 0) as [->|Hne].
    + simpl.
      match goal with |- context [run w ?p ?st] =>
             destruct (run w p st) as [[o2 s2] ev2] eqn:E2 end.
      destruct (Hcont _ _ _ _ E2) as (Hs & Hr & Ha & Hf & Hc & Ho).
      intros H. inversion H; subst.
      unfold releases, acquisitions, creations in *. simpl.
      rewrite Hs, Hr, Ha, Hf, Hc. simpl.
      repeat split; try lia; try congruence;
        intros c Hoc; exfalso; apply (Ho c Hoc).
    + simpl. intros H. inversion H; subst. simpl.
      repeat split; try lia; try congruence.
Qed.

Lemma attempts_unfold :
  attempts [0%nat; 1%nat] =
  (_ensure_browser ;;
   r <- try_open 0 ;;
   match r with
   | Some c => Ret (Some c)
   | None =>
       _ensure_browser ;;
       r' <- try_open 1 ;;
       match r' with
       | Some c => Ret (Some c)
       | None => Ret None
       end
   end).
Proof. reflexivity. Qed.

Ltac ensure_facts E :=
  let Hs := fresh "Hs" in let Hev := fresh "Hev" in
  let Hr := fresh "Hr" in let Ha := fresh "Ha" in
  let Hf := fresh "Hf" in let Hc := fresh "Hc" in
  destruct (quiet_run _ _ quiet_ensure_browser _ E) as [Hs Hev];
  destruct (silent_counts _ Hev) as (Hr & Ha & Hf & Hc).

Ltac open_facts E :=
  let Hs := fresh "Hs" in let Hr := fresh "Hr" in let Ha := fresh "Ha" in
  let Hl := fresh "Hl" in let Hsome := fresh "Hsome" in
  let Hnone := fresh "Hnone" in let Hno := fresh "Hno" in
  let Hlast := fresh "Hlast" in
  destruct (try_open_run _ _ _ E)
    as (Hs & Hr & Ha & Hl & Hsome & Hnone & Hno & Hlast).

Ltac count_events :=
  rewrite ?releases_app, ?acquisitions_app, ?creations_app,
    ?failed_creations_app, ?app_nil_r;
  change (releases []) with 0%nat;
  change (acquisitions []) with 0%nat;
  change (creations []) with 0%nat;
  change (failed_creations []) with (@nil exn).

(** The loop of [acquire_context]: it leaves the semaphore alone, does not
    fall through, creates one context when it returns and none otherwise,
    and after two failed creations it raises the second failure. *)
Lemma attempts_run w s o s' evs :
  run w (attempts [0%nat; 1%nat]) s = (o, s', evs) ->
  _semaphore s' = _semaphore s
  /\ releases evs = 0%nat /\ acquisitions evs = 0%nat
  /\ o <> Returned None
  /\ (forall c, o = Returned (Some c) -> creations evs = 1%nat)
  /\ ((forall c, o <> Returned (Some c)) -> creations evs = 0%nat)
  /\ (forall e1 e2, failed_creations evs = [e1; e2] -> o = Raised e2).
Proof.
  rewrite attempts_unfold, run_bind.
  destruct (run w _ensure_browser s) as [[o1 s1] ev1] eqn:E1. ensure_facts E1.
  destruct o1 as [[]|e|];
    [|intros H; inversion H; subst; count_events;
      repeat split; try lia; try congruence; try (intros; lia)..].
  rewrite run_bind.
  destruct (run w (try_open 0) s1) as [[o2 s2] ev2] eqn:E2. open_facts E2.
  destruct o2 as [[c|]|e|]; cbv beta iota.
  - simpl. intros H. inversion H; subst. count_events.
    destruct (Hsome c eq_refl) as [Hf2 Hc2]. rewrite Hf, Hf2. simpl.
    repeat split; try lia; try congruence; try (intros; lia).
    all: try (intros Hx; exfalso; apply (Hx c); reflexivity).
  - rewrite run_bind.
    destruct (run w _ensure_browser s2) as [[o3 s3] ev3] eqn:E3. ensure_facts E3.
    assert (Hc2 : creations ev2 = 0%nat) by (apply Hno; congruence).
    destruct o3 as [[]|e|].
    + rewrite run_bind.
      destruct (run w (try_open 1) s3) as [[o4 s4] ev4] eqn:E4. open_facts E4.
      assert (Hfail : forall e1 e2,
                failed_creations ev2 ++ failed_creations ev4 = [e1; e2] ->
                o4 = Raised e2).
      { intros e1 e2. destruct (failed_creations ev2) as [|x [|x' l]];
          destruct (failed_creations ev4) as [|y [|y' l']];
          simpl in *; try lia; try discriminate.
        intros Hx. inversion Hx; subst. apply Hlast0; [lia | reflexivity]. }
      destruct o4 as [[c|]|e|]; simpl; intros H; inversion H; subst; count_events.
      * rewrite Hf, Hf0. simpl.
        rewrite (proj2 (Hsome0 c eq_refl)).
        repeat split; try lia; try congruence; try (intros; lia).
        all: try (intros Hx; exfalso; apply (Hx c); reflexivity).
        all: try (intros e1 e2 Hx; specialize (Hfail e1 e2 Hx); discriminate).
      * specialize (Hnone0 eq_refl). discriminate.
      * rewrite Hf, Hf0. simpl.
        assert (creations ev4 = 0%nat) by (apply Hno0; congruence).
        repeat split; try lia; try congruence; try (intros; lia).
        all: try (intros e1 e2 Hx; apply (Hfail e1 e2 Hx)).
      * rewrite Hf, Hf0. simpl.
        assert (creations ev4 = 0%nat) by (apply Hno0; congruence).
        repeat split; try lia; try congruence; try (intros; lia).
        all: try (intros e1 e2 Hx; apply (Hfail e1 e2 Hx)).
    + simpl. intros H. inversion H; subst. count_events. rewrite Hf, Hf0. simpl.
      repeat split; try lia; try congruence; try (intros; lia).
      all: try (intros e1 e2 Hx; rewrite ?app_nil_r in Hx; rewrite Hx in Hl;
                simpl in Hl; lia).
    + simpl. intros H. inversion H; subst. count_events. rewrite Hf, Hf0. simpl.
      repeat split; try lia; try congruence; try (intros; lia).
      all: try (intros e1 e2 Hx; rewrite ?app_nil_r in Hx; rewrite Hx in Hl;
                simpl in Hl; lia).
  - simpl. intros H. inversion H; subst. count_events. rewrite Hf. simpl.
    assert (creations ev2 = 0%nat) by (apply Hno; congruence).
    repeat split; try lia; try congruence; try (intros; lia).
    all: try (intros e1 e2 Hx; rewrite Hx in Hl; simpl in Hl; lia).
  - simpl. intros H. inversion H; subst. count_events. rewrite Hf. simpl.
    assert (creations ev2 = 0%nat) by (apply Hno; congruence).
    repeat split; try lia; try congruence; try (intros; lia).
    all: try (intros e1 e2 Hx; rewrite Hx in Hl; simpl in Hl; lia).
Qed.

(** How [acquire_context] accounts for the slot it takes: a context comes
    with the slot held; a failure leaves the slot released, once. *)
Lemma acquire_context_accounts w s o s' evs :
  run w acquire_context s = (o, s', evs) ->
  (forall c, o = Returned c ->
     c <> None /\ acquisitions evs = 1%nat /\ releases evs = 0%nat
     /\ creations evs = 1%nat /\ _semaphore s' = _semaphore s - 1)
  /\ (forall e, o = Raised e -> is_Exception e = true ->
     acquisitions evs = 1%nat /\ releases evs = 1%nat
     /\ creations evs = 0%nat /\ _semaphore s' = _semaphore s)
  /\ (forall e1 e2, failed_creations evs = [e1; e2] -> is_Exception e2 = true ->
     o = Raised e2).
Proof.
  unfold acquire_context, try_except.
  remember (attempts [0%nat; 1%nat]) as loop eqn:Hloop.
  rewrite run_bind. simpl.
  destruct (0 <? _semaphore s) eqn:Hsem; simpl;
    [|intros H; inversion H; subst; repeat split; intros; discriminate].
  rewrite run_try_catch.
  destruct (run w loop _) as [[o1 s1] ev1] eqn:E1. subst loop.
  destruct (attempts_run _ _ E1) as (Hs & Hr & Ha & Hnn & Hone & Hzero & Hfail).
  simpl in Hs.
  destruct o1 as [c|e|].
  - intros H. inversion H; subst. clear H.
    unfold releases, acquisitions, creations in *. simpl.
    destruct c as [c|]; [|congruence]. split; [|split].
    + intros c0 Hc0. inversion Hc0; subst. rewrite (Hone c eq_refl).
      repeat split; try lia; congruence.
    + intros; discriminate.
    + intros e1 e2 Hx _. discriminate (Hfail e1 e2 Hx).
  - destruct (is_Exception e) eqn:Ee.
    + simpl. intros H. inversion H; subst. clear H.
      assert (creations ev1 = 0%nat) as Hc by (apply Hzero; congruence).
      change (Called (acquire Semaphore) None
                :: ev1 ++ [Did (release Semaphore)])
        with ([Called (acquire Semaphore) None]
                ++ ev1 ++ [Did (release Semaphore)]).
      count_events. rewrite Hr, Ha, Hc. simpl.
      split; [intros; discriminate|]. split.
      * intros e0 _ _. unfold acquisitions, releases, creations. simpl.
        repeat split; try reflexivity; lia.
      * intros e1 e2 Hx _. apply (Hfail e1 e2 Hx).
    + intros H. inversion H; subst. clear H.
      split; [intros; discriminate|]. split.
      * intros e0 He0. inversion He0; subst. congruence.
      * intros e1 e2 Hx He2. simpl in Hx.
        assert (Raised e = Raised e2) as Heq by (apply (Hfail e1 e2 Hx)).
        congruence.
  - intros H. inversion H; subst. clear H.
    split; [intros; discriminate|]. split; [intros; discriminate|].
    intros e1 e2 Hx _. simpl in Hx. discriminate (Hfail e1 e2 Hx).
Qed.

(** C1. When [new_context] fails on the first attempt and again on the
    retry, [acquire_context] raises the second failure, and the slot it
    took at its start has been released exactly once: one acquisition, one
    release, the semaphore back at its value, and no context created. *)
Theorem acquire_context_double_failure :
  forall (w : world) (s : state) o s' evs (e1 e2 : exn),
    run w acquire_context s = (o, s', evs) ->
    failed_creations evs = [e1; e2] ->
    is_Exception e2 = true ->
    o = Raised e2
    /\ acquisitions evs = 1%nat
    /\ releases evs = 1%nat
    /\ creations evs = 0%nat
    /\ _semaphore s' = _semaphore s.
Proof.
  intros w s o s' evs e1 e2 Hrun Hfailed He2.
  destruct (acquire_context_accounts _ _ Hrun) as (_ & Hraise & Hfail).
  assert (o = Raised e2) as -> by (apply (Hfail e1 e2 Hfailed He2)).
  split; [reflexivity|]. apply (Hraise e2 eq_refl He2).
Qed.

Lemma acquire_context_double_failure_witness :
  let '(o, s', evs) := run Worlds.refusing acquire_context Worlds.started in
  o = Raised (Error "Target page, context or browser has been closed")
  /\ acquisitions evs = 1%nat
  /\ releases evs = 1%nat
  /\ creations evs = 0%nat
  /\ _semaphore s' = 3.
Proof.
  destruct (run Worlds.refusing acquire_context Worlds.started)
    as [[o s'] evs] eqn:E.
  apply (acquire_context_double_failure Worlds.refusing Worlds.started E
           (e1 := Error "Target page, context or browser has been closed")).
  - vm_compute in E. inversion E; subst. reflexivity.
  - reflexivity.
Defined.

(** [release_context], case by case on what [context.close()] does. *)
Lemma release_context_run w s c o s' evs :
  run w (release_context c) s = (o, s', evs) ->
  releases evs = 1%nat
  /\ _semaphore s' = _semaphore s + 1
  /\ (o = Returned tt \/ o = Raised CancelledError)
  /\ (forall ctx e, c = Some ctx ->
        respond w (tick s) (context_close ctx) = inl e ->
        is_Exception e = true ->
        o = Returned tt
        /\ In (Did (log DEBUG ("Context already closed: " ++ str e)%string)) evs).
Proof.
  unfold release_context, try_except, close_context.
  destruct c as [ctx|]; simpl.
  - destruct (respond w (tick s) (context_close ctx)) as [e|[]] eqn:Er; simpl.
    + destruct e; simpl; intros H; inversion H; subst; simpl;
        (split; [reflexivity|]); (split; [lia|]); (split; [tauto|]);
        intros ctx' e' Hc He Hex; inversion Hc; subst; rewrite Er in He;
        inversion He; subst; try discriminate;
        (split; [reflexivity | simpl; tauto]).
    + intros H; inversion H; subst; simpl.
      split; [reflexivity|]. split; [lia|]. split; [tauto|].
      intros ctx' e' Hc He. inversion Hc; subst. rewrite Er in He. discriminate.
  - intros H; inversion H; subst; simpl.
    split; [reflexivity|]. split; [lia|]. split; [tauto|].
    intros ctx' e' Hc. discriminate.
Qed.

(** C4. [release_context] releases the semaphore exactly once, whatever
    closing the context does: the semaphore is one higher afterwards.  An
    exception raised by [context.close()] is logged at debug level and
    does not reach the caller, who gets [None] back; only a cancellation
    passes through, after the release. *)
Theorem release_context_releases_once :
  forall (w : world) (s : state) (c : option context) o s' evs,
    run w (release_context c) s = (o, s', evs) ->
    releases evs = 1%nat
    /\ _semaphore s' = _semaphore s + 1
    /\ (o = Returned tt \/ o = Raised CancelledError)
    /\ (forall ctx e, c = Some ctx ->
          respond w (tick s) (context_close ctx) = inl e ->
          is_Exception e = true ->
          o = Returned tt
          /\ In (Did (log DEBUG ("Context already closed: " ++ str e)%string)) evs).
Proof. intros w s c o s' evs. apply release_context_run. Qed.

Lemma release_context_releases_once_witness :
  let '(o, s', evs) := run Worlds.stale (release_context (Some 7%nat)) Worlds.started in
  releases evs = 1%nat /\ _semaphore s' = 4 /\ o = Returned tt.
Proof.
  destruct (run Worlds.stale (release_context (Some 7%nat)) Worlds.started)
    as [[o s'] evs] eqn:E.
  destruct (release_context_releases_once _ _ _ E) as (Hr & Hs & _ & Hclose).
  split; [exact Hr|]. split; [exact Hs|].
  apply (Hclose 7%nat (Error "Target page, context or browser has been closed"));
    reflexivity.
Defined.

End PoolFacts.

(* ================================================================== *)
(** * The capture timer and the route *)

Ltac unfold_coroutines :=
  unfold Pool.acquire_context, Pool.release_context,
    Pool.close_context, Pool.try_open, Pool.open_context,
    Pool._ensure_browser, Pool.with_lock, Pool.close_quietly,
    Pool._launch_browser, Capture.open_page, Capture.readiness,
    Capture.settle, Extract.readiness.

Ltac avoid_all := repeat first [avoid_step | progress unfold_coroutines].

Section CaptureFacts.
Import Effects.

Lemma wait_for_none A (p : prog A) : wait_for None p = p.
Proof. destruct p; reflexivity. Qed.

Lemma timer_fired_app a b : timer_fired (a ++ b) = timer_fired a || timer_fired b.
Proof. unfold timer_fired. apply existsb_app. Qed.

Lemma unmarked_run A w (p : prog A) s o s' evs :
  unmarked p -> run w p s = (o, s', evs) -> timer_fired evs = false.
Proof.
  intros Hp Hrun. pose proof (avoids_run _ _ w p Hp _ Hrun) as H.
  unfold timer_fired. clear Hrun. induction evs as [|ev evs IH]; [reflexivity|].
  simpl in *. apply andb_true_iff in H. destruct H as [H1 H2].
  apply negb_true_iff in H1. rewrite H1. simpl. apply IH, H2.
Qed.

Lemma unmarked_acquire_context : unmarked Pool.acquire_context.
Proof. unfold unmarked. unfold Pool.acquire_context. rewrite attempts_unfold. avoid_all. Qed.

Lemma unmarked_release_context c : unmarked (Pool.release_context c).
Proof. unfold unmarked. avoid_all. Qed.

Lemma unmarked_open_page c : unmarked (Capture.open_page c).
Proof. unfold unmarked. avoid_all. Qed.

Lemma unmarked_capture_readiness cfg p target delay :
  unmarked (Capture.readiness cfg p target delay).
Proof. unfold unmarked. avoid_all. Qed.

(** With its timer firing, the capture step ends in [TimeoutError]. *)
Lemma take_screenshot_fired w cfg p full_page fmt quality s :
  run w (Capture.take_screenshot cfg (Some 0%nat) p full_page fmt quality) s
  = (Raised TimeoutError, next (next s),
     [Did (log INFO "Capturing screenshot (timeout: %dms)...");
      Did (abandon (screenshot p
             {| Effects.full_page := full_page; type_ := fmt;
                timeout := screenshot_capture_timeout cfg;
                Effects.quality :=
                  if String.eqb fmt "jpeg" || String.eqb fmt "webp"
                  then Some quality else None |}))]).
Proof. reflexivity. Qed.

(** The body of the [try] of [_do_capture], with the capture timer
    firing: it does not return, and ends in [TimeoutError] once the timer
    has fired. *)
Lemma capture_body_fired w cfg ctx target full_page fmt quality delay s o s' evs :
  run w (p <- Capture.open_page ctx ;;
         Capture.readiness cfg p target delay ;;
         Capture.take_screenshot cfg (Some 0%nat) p full_page fmt quality) s
    = (o, s', evs) ->
  (forall b, o <> Returned b)
  /\ (timer_fired evs = true -> o = Raised TimeoutError).
Proof.
  rewrite run_bind.
  destruct (run w (Capture.open_page ctx) s) as [[o2 s2] ev2] eqn:E2.
  assert (Hf2 := @unmarked_run _ w _ _ _ _ _ (unmarked_open_page ctx) E2).
  destruct o2 as [p|e|]; cbv beta iota;
    [|intros H; inversion H; subst; split; congruence..].
  rewrite run_bind.
  destruct (run w (Capture.readiness cfg p target delay) s2)
    as [[o3 s3] ev3] eqn:E3.
  assert (Hf3 := @unmarked_run _ w _ _ _ _ _
                   (unmarked_capture_readiness cfg p target delay) E3).
  destruct o3 as [[]|e|]; cbv beta iota.
  - rewrite take_screenshot_fired.
    intros H; inversion H; subst. split; [congruence | reflexivity].
  - intros H; inversion H; subst. split; [congruence|].
    rewrite !timer_fired_app, Hf2, Hf3. discriminate.
  - intros H; inversion H; subst. split; [congruence|].
    rewrite !timer_fired_app, Hf2, Hf3. discriminate.
Qed.

(** [_do_capture] with the capture timer firing: it does not return, and
    once the timer has fired it ends in [TimeoutError], or in the
    cancellation of [context.close()]. *)
Lemma do_capture_fired w cfg target full_page fmt quality delay s o s' evs :
  run w (Capture._do_capture cfg (Some 0%nat) target full_page fmt quality delay) s
    = (o, s', evs) ->
  (forall b, o <> Returned b)
  /\ (timer_fired evs = true ->
      o = Raised TimeoutError \/ o = Raised CancelledError).
Proof.
  unfold Capture._do_capture. rewrite run_bind.
  destruct (run w Pool.acquire_context s) as [[o1 s1] ev1] eqn:E1.
  assert (Hf1 := @unmarked_run _ w _ _ _ _ _ unmarked_acquire_context E1).
  destruct o1 as [ctx|e|]; cbv beta iota;
    [|intros H; inversion H; subst; split; congruence..].
  rewrite run_try_finally.
  match goal with |- context [run w ?body s1] =>
    destruct (run w body s1) as [[o2 s2] ev2] eqn:E2 end.
  destruct (capture_body_fired _ _ _ _ _ _ _ _ _ E2) as [Hnot Hfired].
  destruct o2 as [b|e|]; [exfalso; apply (Hnot b); reflexivity| |].
  - destruct (run w (Pool.release_context ctx) s2) as [[o4 s4] ev4] eqn:E4.
    assert (Hf4 := @unmarked_run _ w _ _ _ _ _ (unmarked_release_context ctx) E4).
    destruct (release_context_run _ _ _ E4) as (_ & _ & Ho4 & _).
    destruct Ho4 as [-> | ->]; intros H; inversion H; subst;
      (split; [congruence|]); rewrite !timer_fired_app, Hf1, Hf4; simpl.
    + rewrite orb_false_r. intros Hx. left. now rewrite (Hfired Hx).
    + tauto.
  - intros H; inversion H; subst. split; [congruence|].
    rewrite !timer_fired_app, Hf1. simpl. intros Hx.
    discriminate (Hfired Hx).
Qed.

Lemma capture_screenshot_fired w cfg target full_page fmt quality delay s o s' evs :
  run w (Capture.capture_screenshot cfg (Some 0%nat) None
           target full_page fmt quality delay) s = (o, s', evs) ->
  (forall b, o <> Returned b)
  /\ (timer_fired evs = true ->
      o = Raised TimeoutError \/ o = Raised CancelledError).
Proof.
  unfold Capture.capture_screenshot. rewrite run_bind.
  change (run w (do time_time) s)
    with (Returned (clock w (tick s)), next s, [Did time_time]).
  cbv beta iota. rewrite run_try_catch, run_bind, wait_for_none.
  match goal with |- context [run w ?p (next s)] =>
    destruct (run w p (next s)) as [[o1 s1] ev1] eqn:E1 end.
  destruct (do_capture_fired _ _ _ _ _ _ _ _ E1) as [Hnot Hfired].
  destruct o1 as [b|e|]; [exfalso; apply (Hnot b); reflexivity| |].
  - destruct e; simpl; intros H; inversion H; subst;
      (split; [congruence|]); tauto.
  - intros H; inversion H; subst. split; [congruence|].
    simpl. intros Hx. destruct (Hfired Hx); discriminate.
Qed.

(** C5, as the code has it.  When the timer around [page.screenshot]
    fires and the timer around the whole operation does not, the route
    answers as it does for the overall timeout: status 504,
    [timeout = true], [retryable = true]. *)
Theorem capture_timer_reported_as_timeout :
  forall w s cfg reason body o s' evs r,
    run w (Routes.screenshot cfg (true, reason) (Some 0%nat) None body) s
      = (o, s', evs) ->
    timer_fired evs = true ->
    o = Returned r ->
    r = Routes.timeout_response
    /\ Routes.status_code r = 504
    /\ Routes.timeout r = Some true
    /\ Routes.retryable r = Some true.
Proof.
  intros w s cfg reason body o s' evs r Hrun Hfired Ho.
  assert (r = Routes.timeout_response) as ->; [|repeat split].
  revert Hrun. unfold Routes.screenshot. rewrite run_bind.
  change (run w (do time_time) s)
    with (Returned (clock w (tick s)), next s, [Did time_time]).
  cbv beta iota. simpl negb. cbv iota.
  unfold try_except. rewrite run_try_catch, run_bind.
  match goal with |- context [run w ?p (next s)] =>
    destruct (run w p (next s)) as [[o1 s1] ev1] eqn:E1 end.
  pose proof E1 as Hx. apply capture_screenshot_fired in Hx.
  destruct Hx as [Hnot Hcap].
  destruct o1 as [b|e|]; [exfalso; apply (Hnot b); reflexivity| |].
  - destruct e; simpl; intros H; inversion H; subst; try congruence.
    exfalso. unfold timer_fired in *. simpl in Hfired.
    rewrite existsb_app in Hfired. simpl in Hfired.
    rewrite orb_false_r in Hfired. destruct (Hcap Hfired); discriminate.
  - intros H; inversion H; subst. discriminate.
Qed.

Lemma capture_timer_reported_as_timeout_witness :
  let '(o, _, evs) :=
    run Worlds.calm
      (Routes.screenshot default_settings (true, None) (Some 0%nat) None
         Worlds.request) Worlds.started in
  timer_fired evs = true
  /\ exists r, o = Returned r /\ Routes.retryable r = Some true.
Proof.
  destruct (run Worlds.calm
              (Routes.screenshot default_settings (true, None) (Some 0%nat) None
                 Worlds.request) Worlds.started) as [[o s'] evs] eqn:E.
  assert (Hf : timer_fired evs = true) by (vm_compute in E; inversion E; reflexivity).
  assert (Ho : o = Returned Routes.timeout_response)
    by (vm_compute in E; inversion E; reflexivity).
  split; [exact Hf|]. exists Routes.timeout_response. split; [exact Ho|].
  apply (capture_timer_reported_as_timeout _ _ _ _ _ E Hf Ho).
Defined.

(** C5, as the specification has it, does not hold: with everything else
    working, the capture timer firing is answered by the response of the
    overall timeout. *)
Lemma capture_timer_is_not_a_hard_error : ~ Claims.capture_timer_is_hard_error.
Proof.
  intros H.
  destruct (H Worlds.calm Worlds.started default_settings None Worlds.request
              _ _ _ Routes.timeout_response eq_refl eq_refl eq_refl) as [Ht _].
  apply Ht. reflexivity.
Qed.

End CaptureFacts.

(* ================================================================== *)
(** * The stages of the two pipelines *)

Section StageFacts.
Import Effects Claims.

Lemma returned_bind A B w (p : prog A) (f : A -> prog B) s b s' evs :
  run w (bind p f) s = (Returned b, s', evs) ->
  exists a s1 ev1 ev2,
    run w p s = (Returned a, s1, ev1)
    /\ run w (f a) s1 = (Returned b, s', ev2)
    /\ evs = ev1 ++ ev2.
Proof.
  rewrite run_bind. destruct (run w p s) as [[o s1] ev1].
  destruct o as [a|e|]; [|discriminate..].
  destruct (run w (f a) s1) as [[o2 s2] ev2] eqn:E2.
  intros H. inversion H; subst. exists a, s1, ev1, ev2. auto.
Qed.

Lemma returned_do w (a : action) s v s' evs :
  run w (do a) s = (Returned v, s', evs) -> page_calls evs = [].
Proof.
  simpl. destruct (perform w a s) as [v0 s0]. intros H. inversion H. reflexivity.
Qed.

Lemma returned_await w (c : call) s v s' evs :
  run w (await c) s = (Returned v, s', evs) ->
  page_calls evs = page_calls [Called c None].
Proof.
  simpl. destruct (answer w c s) as [[e|v0]|]; [discriminate| |discriminate].
  intros H. inversion H. reflexivity.
Qed.

Lemma no_calls_ret w s0 o s1 ev :
  run w (Ret tt) s0 = (o, s1, ev) -> page_calls ev = [].
Proof. intros H. inversion H. reflexivity. Qed.

Lemma no_calls_log w l msg s0 o s1 ev :
  run w (do (log l msg)) s0 = (o, s1, ev) -> page_calls ev = [].
Proof. intros H. inversion H. reflexivity. Qed.

Lemma run_wait_for_load_state w p state t s :
  run w (await (wait_for_load_state p state t)) s
  = match respond w (tick s) (wait_for_load_state p state t) with
    | inl e => (Raised e, next s,
                [Called (wait_for_load_state p state t) (Some e)])
    | inr v => (Returned v, next s,
                [Called (wait_for_load_state p state t) None])
    end.
Proof.
  simpl. destruct (respond w (tick s) (wait_for_load_state p state t));
    reflexivity.
Qed.

(** An advisory wait that lets the coroutine go on has made its one call,
    whether the call raised or not. *)
Lemma returned_settle w p state t (on_ok on_exn : prog unit) s s' evs :
  (forall s0 o s1 ev, run w on_ok s0 = (o, s1, ev) -> page_calls ev = []) ->
  (forall s0 o s1 ev, run w on_exn s0 = (o, s1, ev) -> page_calls ev = []) ->
  run w (Capture.settle p state t on_ok on_exn) s = (Returned tt, s', evs) ->
  page_calls evs = [wait_for_load_state p state t].
Proof.
  intros Hok Hexn. unfold Capture.settle, try_except.
  rewrite run_try_catch, run_bind, run_wait_for_load_state.
  destruct (respond w (tick s) (wait_for_load_state p state t)) as [e|[]].
  - destruct (is_Exception e); [|discriminate].
    destruct (run w on_exn (next s)) as [[o1 s1] ev1] eqn:E1.
    intros H. inversion H; subst. simpl.
    rewrite ?page_calls_app, (Hexn _ _ _ _ E1). reflexivity.
  - destruct (run w on_ok (next s)) as [[o1 s1] ev1] eqn:E1.
    destruct o1 as [[]|e|]; [|destruct (is_Exception e)|].
    + intros H. inversion H; subst. simpl.
      rewrite ?page_calls_app, (Hok _ _ _ _ E1). reflexivity.
    + destruct (run w on_exn s1) as [[o2 s2] ev2] eqn:E2.
      intros H. inversion H; subst. simpl.
      rewrite ?page_calls_app, (Hok _ _ _ _ E1), (Hexn _ _ _ _ E2). reflexivity.
    + discriminate.
    + discriminate.
Qed.

Ltac peel H :=
  let a := fresh "a" in let s := fresh "s" in
  let ev := fresh "ev" in let ev' := fresh "ev" in
  let Hp := fresh "Hp" in
  apply returned_bind in H;
  destruct H as (a & s & ev & ev' & Hp & H & ->);
  first
    [ apply returned_do in Hp
    | apply returned_await in Hp
    | destruct a; apply returned_settle in Hp;
      [| intros; first [eapply no_calls_ret; eassumption
                       | eapply no_calls_log; eassumption]..] ];
  rewrite page_calls_app, Hp; clear Hp.

Lemma capture_tail w s cfg p delay s1 ev1 :
  run w (do (log INFO "Scrolling page...") ;;
         await (evaluate p AUTO_SCROLL_JS) ;;
         Capture.settle p "networkidle" 10000 (Ret tt) (Ret tt) ;;
         await (evaluate p WAIT_FOR_IMAGES_JS) ;;
         match Capture.post_load_sleep delay (screenshot_post_load_delay cfg) with
         | Some safe_delay =>
             do (log INFO "Waiting %dms for dynamic content...") ;;
             await (sleep safe_delay)
         | None => Ret tt
         end) s = (Returned tt, s1, ev1) ->
  page_calls ev1 = scrolling p ++ capture_sleep cfg delay.
Proof.
  unfold capture_sleep. intros H. do 4 peel H.
  destruct (Capture.post_load_sleep delay (screenshot_post_load_delay cfg)) as [ms|].
  - peel H.
    match type of H with run _ (await ?c) _ = _ =>
      apply (returned_await w c) in H end.
    rewrite H. reflexivity.
  - inversion H. reflexivity.
Qed.

Lemma extract_stages w s cfg p target s2 ev2 :
  run w (Extract.readiness cfg p target) s = (Returned tt, s2, ev2) ->
  page_calls ev2
  = opening cfg p target ++ extract_probing p ++ scrolling p ++ extract_sleep cfg.
Proof.
  unfold Extract.readiness, extract_sleep. intros H.
  do 9 peel H. cbv zeta in H.
  destruct (0 <? screenshot_post_load_delay cfg).
  - peel H.
    match type of H with run _ (await ?c) _ = _ =>
      apply (returned_await w c) in H end.
    rewrite H. reflexivity.
  - inversion H. reflexivity.
Qed.

Lemma sleeps_agree cfg delay :
  delay <= screenshot_post_load_delay cfg ->
  capture_sleep cfg delay = extract_sleep cfg.
Proof.
  intros Hle. unfold capture_sleep, extract_sleep, Capture.post_load_sleep.
  rewrite Z.max_r by assumption.
  destruct (0 <? screenshot_post_load_delay cfg); reflexivity.
Qed.

(** One operation takes one tick of the oracle. *)
Lemma ticked_do w (a : action) s v s' evs :
  run w (do a) s = (Returned v, s', evs) ->
  tick s' = S (tick s) /\ page_calls evs = [].
Proof.
  simpl. destruct (perform w a s) as [v0 s0] eqn:Ep. intros H. inversion H; subst.
  split; [|reflexivity].
  destruct a as [[|]| | | | | |]; simpl in Ep; inversion Ep; reflexivity.
Qed.

Lemma ticked_await w (c : call) s v s' evs :
  Readings.is_acquire c = false ->
  run w (await c) s = (Returned v, s', evs) ->
  respond w (tick s) c = inr v
  /\ tick s' = S (tick s)
  /\ page_calls evs = page_calls [Called c None].
Proof.
  intros Hc. simpl.
  assert (Ha : answer w c s = Some (respond w (tick s) c))
    by (destruct c; try discriminate; reflexivity).
  rewrite Ha.
  assert (Hn : forall r, tick (after c r s) = S (tick s))
    by (intros r; destruct c; try discriminate; reflexivity).
  destruct (respond w (tick s) c) as [e|v0]; [discriminate|].
  intros H. inversion H; subst. rewrite Hn. auto.
Qed.

(** An advisory wait with its log lines: one call and one log line,
    whichever way the wait ends. *)
Lemma ticked_settle w p state t l1 m1 l2 m2 s s' evs :
  run w (Capture.settle p state t (do (log l1 m1)) (do (log l2 m2))) s
    = (Returned tt, s', evs) ->
  tick s' = S (S (tick s))
  /\ page_calls evs = [wait_for_load_state p state t].
Proof.
  unfold Capture.settle, try_except.
  rewrite run_try_catch, run_bind, run_wait_for_load_state.
  destruct (respond w (tick s) (wait_for_load_state p state t)) as [e|[]].
  - destruct (is_Exception e); [|discriminate].
    simpl. intros H. inversion H; subst. auto.
  - simpl. intros H. inversion H; subst. auto.
Qed.

(** The stages of the capture pipeline, with the answer of the probe that
    decides between them: the probe is the seventh operation. *)
Lemma capture_stages_decided w s cfg p target delay s1 ev1 :
  run w (Capture.readiness cfg p target delay) s = (Returned tt, s1, ev1) ->
  exists content_state,
    respond w (6 + tick s) (evaluate p WAIT_FOR_CONTENT_JS) = inr content_state
    /\ page_calls ev1
       = opening cfg p target ++ capture_probing p (ready content_state)
         ++ scrolling p ++ capture_sleep cfg delay.
Proof.
  unfold Capture.readiness. intros H.
  apply returned_bind in H. destruct H as (a1 & sa & e1 & e1' & H1 & H & ->).
  apply ticked_do in H1. destruct H1 as [T1 P1].
  apply returned_bind in H. destruct H as (a2 & sb & e2 & e2' & H2 & H & ->).
  apply ticked_await in H2; [|reflexivity]. destruct H2 as (_ & T2 & P2).
  apply returned_bind in H. destruct H as (a3 & sc & e3 & e3' & H3 & H & ->).
  apply ticked_do in H3. destruct H3 as [T3 P3].
  apply returned_bind in H. destruct H as (a4 & sd & e4 & e4' & H4 & H & ->).
  destruct a4. apply ticked_settle in H4. destruct H4 as [T4 P4].
  apply returned_bind in H. destruct H as (a5 & se & e5 & e5' & H5 & H & ->).
  apply ticked_do in H5. destruct H5 as [T5 P5].
  apply returned_bind in H. destruct H as (content_state & sf & e6 & e6' & H6 & H & ->).
  apply ticked_await in H6; [|reflexivity]. destruct H6 as (R6 & T6 & P6).
  exists content_state. split.
  { rewrite <- R6. f_equal. rewrite T5, T4, T3, T2, T1. reflexivity. }
  rewrite !page_calls_app, P1, P2, P3, P4, P5, P6. clear P1 P2 P3 P4 P5 P6.
  peel H.
  apply returned_bind in H. destruct H as (u & sx & evx & evy & Hp & H & ->).
  destruct u. apply capture_tail in H. rewrite page_calls_app, H. clear H.
  destruct (ready content_state); simpl negb in Hp; cbv iota in Hp.
  - inversion Hp. reflexivity.
  - do 3 peel Hp. apply returned_do in Hp. rewrite Hp. reflexivity.
Qed.

(** C3, as the code has it.  When both pipelines reach their final step,
    both have navigated with [commit] under the navigation timeout and
    waited for [load] for 30000 ms, and both end with the scroll script, a
    wait for [networkidle] of 10000 ms, the image-wait script and a sleep
    of at most 10000 ms.  In between, capture runs the readiness probe, and
    exactly when the answer of that probe is not ready it waits for
    [networkidle] for 10000 ms and runs the probe again; extraction waits
    for [networkidle] for 15000 ms and runs its own body probe.  Capture
    sleeps for the larger of the requested and the configured delay,
    extraction for the configured one; the two sleeps agree when the
    requested delay is not the larger. *)
Theorem pipelines_share_stages :
  forall w s cfg p target delay s1 ev1 s2 ev2,
    run w (Capture.readiness cfg p target delay) s = (Returned tt, s1, ev1) ->
    run w (Extract.readiness cfg p target) s = (Returned tt, s2, ev2) ->
    (exists content_state,
        respond w (6 + tick s) (evaluate p WAIT_FOR_CONTENT_JS)
          = inr content_state
        /\ page_calls ev1
           = opening cfg p target
             ++ (if ready content_state
                 then [evaluate p WAIT_FOR_CONTENT_JS]
                 else [evaluate p WAIT_FOR_CONTENT_JS;
                       wait_for_load_state p "networkidle" 10000;
                       evaluate p WAIT_FOR_CONTENT_JS])
             ++ scrolling p ++ capture_sleep cfg delay)
    /\ page_calls ev2
       = opening cfg p target ++ extract_probing p
         ++ scrolling p ++ extract_sleep cfg
    /\ (delay <= screenshot_post_load_delay cfg ->
        capture_sleep cfg delay = extract_sleep cfg).
Proof.
  intros w s cfg p target delay s1 ev1 s2 ev2 H1 H2.
  split.
  { destruct (@capture_stages_decided w s cfg p target delay s1 ev1 H1)
      as (content_state & Hanswer & Hcalls).
    exists content_state. split; [exact Hanswer | exact Hcalls]. }
  split; [eapply extract_stages; exact H2|].
  apply sleeps_agree.
Qed.

Lemma pipelines_share_stages_witness :
  let '(_, _, ev1) :=
    run Worlds.calm (Capture.readiness default_settings 1%nat "https://example.com/" 0)
      Worlds.started in
  let '(_, _, ev1') :=
    run MoreWorlds.unready
      (Capture.readiness default_settings 1%nat "https://example.com/" 0)
      Worlds.started in
  let '(_, _, ev2) :=
    run Worlds.calm (Extract.readiness default_settings 1%nat "https://example.com/")
      Worlds.started in
  page_calls ev2
  = opening default_settings 1%nat "https://example.com/" ++ extract_probing 1%nat
    ++ scrolling 1%nat ++ extract_sleep default_settings
  /\ page_calls ev1
     = opening default_settings 1%nat "https://example.com/"
       ++ [evaluate 1%nat WAIT_FOR_CONTENT_JS]
       ++ scrolling 1%nat ++ capture_sleep default_settings 0
  /\ page_calls ev1'
     = opening default_settings 1%nat "https://example.com/"
       ++ [evaluate 1%nat WAIT_FOR_CONTENT_JS;
           wait_for_load_state 1%nat "networkidle" 10000;
           evaluate 1%nat WAIT_FOR_CONTENT_JS]
       ++ scrolling 1%nat ++ capture_sleep default_settings 0.
Proof.
  destruct (run Worlds.calm
              (Capture.readiness default_settings 1%nat "https://example.com/" 0)
              Worlds.started) as [[o1 s1] ev1] eqn:E1.
  destruct (run MoreWorlds.unready
              (Capture.readiness default_settings 1%nat "https://example.com/" 0)
              Worlds.started) as [[o1' s1'] ev1'] eqn:E1'.
  destruct (run Worlds.calm
              (Extract.readiness default_settings 1%nat "https://example.com/")
              Worlds.started) as [[o2 s2] ev2] eqn:E2.
  assert (o1 = Returned tt) as -> by (vm_compute in E1; inversion E1; reflexivity).
  assert (o1' = Returned tt) as -> by (vm_compute in E1'; inversion E1'; reflexivity).
  assert (o2 = Returned tt) as -> by (vm_compute in E2; inversion E2; reflexivity).
  destruct (pipelines_share_stages _ _ _ _ _ _ E1 E2) as ((cs & Hcs & Hc) & He & _).
  assert (o2' : exists s2' ev2',
             run MoreWorlds.unready
               (Extract.readiness default_settings 1%nat "https://example.com/")
               Worlds.started = (Returned tt, s2', ev2')).
  { destruct (run MoreWorlds.unready
                (Extract.readiness default_settings 1%nat "https://example.com/")
                Worlds.started) as [[o s2'] ev2'] eqn:E.
    assert (o = Returned tt) as -> by (vm_compute in E; inversion E; reflexivity).
    eexists. eexists. reflexivity. }
  destruct o2' as (s2' & ev2' & E2').
  destruct (pipelines_share_stages _ _ _ _ _ _ E1' E2') as ((cs' & Hcs' & Hc') & _ & _).
  split; [exact He|]. split.
  - simpl in Hcs. inversion Hcs; subst cs. exact Hc.
  - simpl in Hcs'. inversion Hcs'; subst cs'. exact Hc'.
Defined.

(** C3, as the specification has it, does not hold: with everything
    working and the defaults of the configuration, capture runs the
    readiness probe where extraction waits for the network and runs its
    body probe. *)
Lemma pipelines_differ : ~ Claims.same_stages.
Proof.
  intros H.
  specialize (H Worlds.calm Worlds.started default_settings 1%nat
                "https://example.com/" 0 _ _ _ _ _ _ eq_refl eq_refl).
  vm_compute in H. discriminate H.
Qed.

End StageFacts.

(* ================================================================== *)
(** * The readiness probe *)

Section ProbeFacts.
Import Effects Probe.






Lemma poll_step fuel d start now :
  poll (S fuel) d start now
  = if now - start <? maxWait then
      match scan d now SPA_SELECTORS with
      | Some r => Some r
      | None =>
          match body_check d now with
          | Some r => Some r
          | None => poll fuel d start (wake d now 500)
          end
      end
    else Some (gave_up d now).
Proof. reflexivity. Qed.




End ProbeFacts.

(* ================================================================== *)
(** * The discipline of the pool's callers *)

Section FollowFacts.
Import Effects Concurrent.

Lemma follows_weaken R st (p : prog R) (post post' : status -> exn + R -> Prop) :
  (forall st' r, post st' r -> post' st' r) ->
  follows st p post -> follows st p post'.
Proof.
  intros Hw. revert st. induction p as [a|e|a k IH|c k IH]; intros st; simpl.
  - apply Hw.
  - apply Hw.
  - intros [Ha Hk]. split; [exact Ha|]. intros v. apply IH, Hk.
  - intros [Hc Hk]. split; [exact Hc|]. intros r. apply IH, Hk.
Qed.

Lemma follows_bind A B st (p : prog A) (f : A -> prog B) mid post :
  follows st p mid ->
  (forall st' a, mid st' (inr a) -> follows st' (f a) post) ->
  (forall st' e, mid st' (inl e) -> post st' (inl e)) ->
  follows st (bind p f) post.
Proof.
  intros Hp Hf He. revert st Hp.
  induction p as [a|e|a k IH|c k IH]; intros st; simpl.
  - apply Hf.
  - apply He.
  - intros [Ha Hk]. split; [exact Ha|]. intros v. apply IH, Hk.
  - intros [Hc Hk]. split; [exact Hc|]. intros r. apply IH, Hk.
Qed.

Lemma follows_try_catch A st (catches : exn -> bool) (p : prog A) h mid post :
  follows st p mid ->
  (forall st' a, mid st' (inr a) -> post st' (inr a)) ->
  (forall st' e, mid st' (inl e) ->
     if catches e then follows st' (h e) post else post st' (inl e)) ->
  follows st (try_catch catches p h) post.
Proof.
  intros Hp Hr He. revert st Hp.
  induction p as [a|e|a k IH|c k IH]; intros st; simpl.
  - apply Hr.
  - intros Hm. specialize (He st e Hm). destruct (catches e); exact He.
  - intros [Ha Hk]. split; [exact Ha|]. intros v. apply IH, Hk.
  - intros [Hc Hk]. split; [exact Hc|]. intros r. apply IH, Hk.
Qed.

Lemma follows_try_finally A st (p : prog A) f mid post :
  follows st p mid ->
  (forall st' r, mid st' r ->
     follows st' f
       (fun st'' r' =>
          match r' with
          | inr _ => post st'' r
          | inl e' => post st'' (inl e')
          end)) ->
  follows st (try_finally p f) post.
Proof.
  intros Hp Hf. revert st Hp.
  induction p as [a|e|a k IH|c k IH]; intros st; simpl.
  - intros Hm. eapply follows_bind; [apply (Hf st (inr a) Hm)| |];
      simpl; intros; assumption.
  - intros Hm. eapply follows_bind; [apply (Hf st (inl e) Hm)| |];
      simpl; intros; assumption.
  - intros [Ha Hk]. split; [exact Ha|]. intros v. apply IH, Hk.
  - intros [Hc Hk]. split; [exact Hc|]. intros r. apply IH, Hk.
Qed.

(** A quiet coroutine keeps whatever status it starts in. *)
Lemma quiet_follows A st (p : prog A) :
  quiet p -> follows st p (fun st' _ => st' = st).
Proof.
  unfold quiet. induction p as [a|e|a k IH|c k IH]; simpl.
  - reflexivity.
  - reflexivity.
  - intros [Ha Hk].
    destruct a as [[|]| | | | | |]; try discriminate;
      (split; [exact I|]); intros v; apply IH, Hk.
  - intros [Hc Hk].
    destruct c as [[|]| | | | | | | | | | |]; try discriminate;
      (split; [exact I|]); intros r; apply IH, Hk.
Qed.

(** [try_open] on a slot. *)
Lemma try_open_follows attempt : follows Slot (Pool.try_open attempt) opened_or_not.
Proof.
  unfold Pool.try_open, try_except.
  eapply follows_try_catch with (mid := opened_or_not).
  - unfold Pool.open_context. simpl. split; [exact I|]. intros [b|]; simpl.
    + split; [reflexivity|]. intros [e|c]; simpl; reflexivity.
    + reflexivity.
  - intros st' a H. exact H.
  - intros st' e H. simpl in H. subst st'. destruct (is_Exception e); [|reflexivity].
    destruct (attempt =? 0)%nat; [|reflexivity].
    eapply follows_bind with (mid := fun st' _ => st' = Slot).
    + apply quiet_follows. unfold quiet. avoid_all.
    + intros st' _ ->.
      eapply follows_bind with (mid := fun st' _ => st' = Slot).
      * apply quiet_follows, quiet_discard_browser.
      * intros st' _ ->. reflexivity.
      * intros st' e' ->. reflexivity.
    + intros st' e' ->. reflexivity.
Qed.

Lemma attempts_follows todo : follows Slot (Pool.attempts todo) opened_or_not.
Proof.
  induction todo as [|attempt rest IH]; [reflexivity|].
  change (Pool.attempts (attempt :: rest))
    with (Pool._ensure_browser ;;
          r <- Pool.try_open attempt ;;
          match r with
          | Some c => Ret (Some c)
          | None => Pool.attempts rest
          end).
  eapply follows_bind with (mid := fun st' _ => st' = Slot).
  - apply quiet_follows, quiet_ensure_browser.
  - intros st' _ ->.
    eapply follows_bind; [apply try_open_follows| |].
    + intros st' [c|] H; simpl in H; subst st'; [reflexivity | exact IH].
    + intros st' e H. exact H.
  - intros st' e ->. reflexivity.
Qed.

(** [acquire_context] from idle. *)
Lemma acquire_context_follows : follows Idle Pool.acquire_context acquired_or_not.
Proof.
  unfold Pool.acquire_context.
  eapply follows_bind
    with (mid := fun st' r => match r with inr _ => st' = Slot | inl _ => st' = Idle end).
  - simpl. split; [reflexivity|]. intros [e|[]]; reflexivity.
  - intros st' _ ->. unfold try_except.
    eapply follows_try_catch; [apply attempts_follows| |].
    + intros st' [c|] H; exact H.
    + intros st' e H. simpl in H. subst st'.
      destruct (is_Exception e) eqn:Ee.
      * simpl. split; [reflexivity|]. intros _. left. reflexivity.
      * simpl. right. split; [reflexivity | exact Ee].
  - intros st' e ->. left. reflexivity.
Qed.

(** [release_context] on what [acquire_context] returned: the caller is
    idle afterwards. *)
Lemma release_context_follows c post :
  (forall r, post Idle r) ->
  follows (holding c) (Pool.release_context c) post.
Proof.
  intros Hpost. unfold Pool.release_context, try_except.
  eapply follows_try_finally with (mid := fun st' _ => st' = Slot).
  - eapply follows_try_catch with (mid := fun st' _ => st' = Slot).
    + destruct c as [c'|]; simpl.
      * split; [reflexivity|]. intros [e|[]]; reflexivity.
      * reflexivity.
    + intros st' a H. exact H.
    + intros st' e ->. destruct (is_Exception e); [|reflexivity].
      simpl. split; [exact I|]. intros _. reflexivity.
  - intros st' r ->. simpl. split; [reflexivity|]. intros _. apply Hpost.
Qed.

(** A caller that acquires a context, works on it without touching the
    pool, and releases it in a [finally], follows the discipline. *)
Lemma lease_follows A (work : option context -> prog A) :
  (forall c, quiet (work c)) ->
  follows Idle (lease work) (@anyhow A).
Proof.
  intros Hq. unfold lease.
  eapply follows_bind; [apply acquire_context_follows| |].
  - intros st' c H.
    assert (st' = holding c) as -> by (destruct c; exact H).
    eapply follows_try_finally with (mid := fun st'' _ => st'' = holding c).
    + apply quiet_follows, Hq.
    + intros st'' r ->. apply release_context_follows.
      intros [e|[]]; exact I.
  - intros; exact I.
Qed.

End FollowFacts.

(* ================================================================== *)
(** * [_ensure_browser] *)

Section EnsureFacts.
Import Effects Pool Readings.

(** X1. With a browser that reports connected, [_ensure_browser] takes the
    lock, looks, and gives the lock back: no close, no launch, the handle
    as it was. *)
Theorem ensure_browser_keeps_live_browser :
  forall (w : world) (s : state) (b : browser),
    _browser s = Some b ->
    _lock s = false ->
    connected w (S (S (tick s))) b = true ->
    exists s',
      run w _ensure_browser s
        = (Returned tt, s',
           [Called (acquire Lock) None; Did get_browser;
            Did (is_connected b); Did (release Lock)])
      /\ _browser s' = Some b
      /\ _lock s' = false
      /\ _semaphore s' = _semaphore s.
Proof.
  intros w s b Hb Hl Hc. unfold _ensure_browser, with_lock.
  simpl. rewrite Hl. simpl. rewrite Hb. simpl. rewrite Hc. simpl.
  eexists. split; [reflexivity|]. simpl. auto.
Qed.

Lemma ensure_browser_keeps_live_browser_witness :
  exists s',
    run Worlds.calm _ensure_browser Worlds.started
      = (Returned tt, s',
         [Called (acquire Lock) None; Did get_browser;
          Did (is_connected 1%nat); Did (release Lock)])
    /\ _browser s' = Some 1%nat
    /\ _lock s' = false
    /\ _semaphore s' = _semaphore Worlds.started.
Proof.
  apply (ensure_browser_keeps_live_browser Worlds.calm Worlds.started (b := 1%nat));
    reflexivity.
Defined.

(** X2. However [_ensure_browser] ends, it gives the lock back and leaves the
    semaphore alone; it launches at most once and closes at most one stale
    handle; when it returns the pool holds a browser, the one it had when
    nothing was launched. *)
Theorem ensure_browser_restores_lock :
  forall (w : world) (s : state) o s' evs,
    _lock s = false ->
    run w _ensure_browser s = (o, s', evs) ->
    o <> Blocked
    /\ _lock s' = false
    /\ _semaphore s' = _semaphore s
    /\ (launches evs <= 1)%nat
    /\ (browser_closes evs <= 1)%nat
    /\ (o = Returned tt -> exists b, _browser s' = Some b)
    /\ (o = Returned tt -> launches evs = 0%nat -> _browser s' = _browser s).
Proof.
  intros w s o s' evs Hl. unfold _ensure_browser, with_lock, close_quietly,
    _launch_browser, try_except.
  simpl. rewrite Hl. simpl.
  destruct (_browser s) as [b|] eqn:Hb; simpl.
  - destruct (connected w (S (S (tick s))) b); simpl.
    + intros H; inversion H; subst; simpl. rewrite Hb.
      repeat split; try congruence; try (unfold launches, browser_closes; simpl; lia).
      intros _. exists b. reflexivity.
    + rewrite Hb. simpl.
      destruct (respond w _ (browser_close b)) as [e|[]]; simpl;
        [destruct e; simpl|];
        try (destruct (respond w _ chromium_launch) as [e'|b']; simpl);
        intros H; inversion H; subst; simpl; rewrite ?Hb;
        repeat split; try congruence;
        try (unfold launches, browser_closes; simpl; lia);
        try (intros _; eexists; reflexivity);
        try (unfold launches; simpl; intros; discriminate).
  - rewrite Hb. simpl.
    destruct (respond w _ chromium_launch) as [e'|b']; simpl;
      intros H; inversion H; subst; simpl; rewrite ?Hb;
      repeat split; try congruence;
      try (unfold launches, browser_closes; simpl; lia);
      try (intros _; eexists; reflexivity);
      try (unfold launches; simpl; intros; discriminate).
Qed.

Lemma ensure_browser_restores_lock_witness :
  let '(o, s', evs) :=
    run Worlds.calm _ensure_browser
      {| _browser := None; _semaphore := 3; _lock := false; tick := 0 |} in
  o <> Blocked /\ _lock s' = false /\ _semaphore s' = 3 /\ launches evs = 1%nat.
Proof.
  destruct (run Worlds.calm _ensure_browser
              {| _browser := None; _semaphore := 3; _lock := false; tick := 0 |})
    as [[o s'] evs] eqn:E.
  destruct (@ensure_browser_restores_lock Worlds.calm
              {| _browser := None; _semaphore := 3; _lock := false; tick := 0 |}
              o s' evs eq_refl E)
    as (Ho & Hl & Hs & _).
  repeat split; try assumption.
  vm_compute in E. inversion E. reflexivity.
Defined.

End EnsureFacts.

(* ================================================================== *)
(** * A context acquired, used and released *)

Section LeaseFacts.
Import Effects Pool Readings Concurrent.

Lemma never_blocked A w (p : prog A) :
  avoids (fun _ => false) is_acquire p ->
  forall s o s' evs, run w p s = (o, s', evs) -> o <> Blocked.
Proof.
  induction p as [a|e|a k IH|c k IH]; simpl; intros Hp s o s' evs Hrun.
  - inversion Hrun. discriminate.
  - inversion Hrun. discriminate.
  - destruct Hp as [_ Hk]. destruct (perform w a s) as [v s1].
    destruct (run w (k v) s1) as [[o1 s2] ev1] eqn:E.
    inversion Hrun; subst. apply (IH v (Hk v) _ _ _ _ E).
  - destruct Hp as [Hc Hk].
    assert (answer w c s = Some (respond w (tick s) c)) as Ha
      by (destruct c; try discriminate; reflexivity).
    rewrite Ha in Hrun.
    destruct (run w (k _) _) as [[o1 s2] ev1] eqn:E.
    inversion Hrun; subst. apply (IH _ (Hk _) _ _ _ _ E).
Qed.

Lemma context_closes_app a b :
  context_closes (a ++ b) = (context_closes a + context_closes b)%nat.
Proof. unfold context_closes. now rewrite filter_app, length_app. Qed.

Lemma silent_no_close evs :
  forallb pool_silent evs = true -> context_closes evs = 0%nat.
Proof.
  unfold context_closes. induction evs as [|ev evs IH]; simpl; [reflexivity|].
  rewrite andb_true_iff. intros [Hev Hevs]. specialize (IH Hevs).
  destruct ev as [a|c o]; [exact IH|].
  destruct c; simpl in *; try discriminate; exact IH.
Qed.

(** [acquire_context] creates a context only when it returns one. *)
Lemma acquire_context_creations w s o s' evs :
  run w acquire_context s = (o, s', evs) ->
  (forall c, o <> Returned c) ->
  creations evs = 0%nat /\ context_closes evs = 0%nat
  /\ (acquisitions evs <= 1)%nat.
Proof.
  unfold acquire_context, try_except.
  remember (attempts [0%nat; 1%nat]) as loop eqn:Hloop.
  rewrite run_bind. simpl.
  destruct (0 <? _semaphore s) eqn:Hsem; simpl;
    [|intros H; inversion H; subst; intros _; repeat split; auto].
  rewrite run_try_catch.
  destruct (run w loop _) as [[o1 s1] ev1] eqn:E1. subst loop.
  destruct (attempts_run _ _ E1) as (Hs & Hr & Ha & Hnn & Hone & Hzero & Hfail).
  assert (Hq : forall ev, acquisitions (Called (acquire Semaphore) None :: ev)
                          = S (acquisitions ev)) by reflexivity.
  assert (Hcl : context_closes ev1 = 0%nat).
  { clear - E1. revert E1. rewrite attempts_unfold.
    intros E1.
    assert (Hav : avoids (fun _ => false)
                    (fun c => match c with context_close _ => true | _ => false end)
                    (_ensure_browser ;;
                     r <- try_open 0 ;;
                     match r with
                     | Some c => Ret (Some c)
                     | None =>
                         _ensure_browser ;;
                         r' <- try_open 1 ;;
                         match r' with
                         | Some c => Ret (Some c)
                         | None => Ret None
                         end
                     end)) by avoid_all.
    pose proof (avoids_run _ _ w _ Hav _ E1) as H. clear E1 Hav.
    unfold context_closes. induction ev1 as [|ev ev1 IH]; [reflexivity|].
    simpl in H. apply andb_true_iff in H. destruct H as [H1 H2].
    simpl. destruct ev as [a|c o]; [apply IH, H2|].
    destruct c; simpl in *; try discriminate; apply IH, H2. }
  destruct o1 as [c|e|].
  - intros H; inversion H; subst. intros Hno. exfalso. apply (Hno c). reflexivity.
  - destruct (is_Exception e) eqn:Ee; simpl; intros H; inversion H; subst;
      intros _; assert (creations ev1 = 0%nat) as Hc by (apply Hzero; congruence).
    + change (Called (acquire Semaphore) None :: ev1 ++ [Did (release Semaphore)])
        with ([Called (acquire Semaphore) None] ++ ev1 ++ [Did (release Semaphore)]).
      rewrite !creations_app, !context_closes_app, !acquisitions_app, Hc, Hcl, Ha.
      repeat split; simpl; auto.
    + rewrite Hq, Ha.
      change (Called (acquire Semaphore) None :: ev1)
        with ([Called (acquire Semaphore) None] ++ ev1).
      rewrite !creations_app, !context_closes_app, Hc, Hcl.
      repeat split; simpl; auto.
  - intros H; inversion H; subst. intros _.
    assert (creations ev1 = 0%nat) as Hc by (apply Hzero; congruence).
    rewrite Hq, Ha.
    change (Called (acquire Semaphore) None :: ev1)
      with ([Called (acquire Semaphore) None] ++ ev1).
    rewrite !creations_app, !context_closes_app, Hc, Hcl.
    repeat split; simpl; auto.
Qed.

Lemma release_context_events w s c o s' evs :
  run w (release_context c) s = (o, s', evs) ->
  acquisitions evs = 0%nat /\ creations evs = 0%nat
  /\ (forall ctx, c = Some ctx -> context_closes evs = 1%nat).
Proof.
  unfold release_context, try_except, close_context.
  destruct c as [ctx|]; simpl.
  - destruct (respond w (tick s) (context_close ctx)) as [e|[]]; simpl;
      [destruct e; simpl|]; intros H; inversion H; subst;
      repeat split; intros; reflexivity.
  - intros H; inversion H; subst. repeat split. intros; discriminate.
Qed.

(** A caller of the shape of [_do_capture]: the slot it takes comes back
    whenever a context was created, and whenever the call returns or raises
    an exception that is not a cancellation. *)
Lemma lease_run A w (work : option context -> prog A) s o s' evs :
  (forall c, quiet (work c)) ->
  (forall c, avoids (fun _ => false) is_acquire (work c)) ->
  run w (lease work) s = (o, s', evs) ->
  (creations evs <= 1)%nat
  /\ (creations evs = 1%nat ->
      _semaphore s' = _semaphore s /\ acquisitions evs = 1%nat
      /\ releases evs = 1%nat /\ context_closes evs = 1%nat /\ o <> Blocked)
  /\ ((exists a, o = Returned a) \/ (exists e, o = Raised e /\ is_Exception e = true) ->
      _semaphore s' = _semaphore s /\ acquisitions evs = 1%nat
      /\ releases evs = 1%nat)
  /\ (creations evs = 0%nat -> context_closes evs = 0%nat).
Proof.
  intros Hq Hnb. unfold lease. rewrite run_bind.
  destruct (run w acquire_context s) as [[o1 s1] ev1] eqn:E1.
  destruct (acquire_context_accounts _ _ E1) as (Hret & Hexn & _).
  pose proof (acquire_context_creations _ _ E1) as Hnone.
  destruct o1 as [c|e|].
  - destruct (Hret c eq_refl) as (Hc & Ha1 & Hr1 & Hc1 & Hs1).
    destruct c as [ctx|]; [|congruence]. clear Hc Hret Hexn Hnone.
    rewrite run_try_finally.
    destruct (run w (work (Some ctx)) s1) as [[o2 s2] ev2] eqn:E2.
    destruct (quiet_run w _ (Hq (Some ctx)) _ E2) as [Hs2 Hev2].
    destruct (silent_counts _ Hev2) as (Hr2 & Ha2 & _ & Hc2).
    pose proof (silent_no_close _ Hev2) as Hcl2.
    pose proof (never_blocked w _ (Hnb (Some ctx)) _ E2) as Hb2.
    assert (Hcl1 : context_closes ev1 = 0%nat).
    { clear - E1. revert E1. unfold acquire_context. rewrite attempts_unfold.
      intros E1.
      match type of E1 with run _ ?p _ = _ =>
        assert (Hav : avoids (fun _ => false)
                        (fun c => match c with context_close _ => true | _ => false end)
                        p) by avoid_all;
        pose proof (avoids_run _ _ w _ Hav _ E1) as H; clear E1 Hav end.
      unfold context_closes. induction ev1 as [|ev ev1 IH]; [reflexivity|].
      simpl in H. apply andb_true_iff in H. destruct H as [H1 H2].
      simpl. destruct ev as [a|c o]; [apply IH, H2|].
      destruct c; simpl in *; try discriminate; apply IH, H2. }
    assert (Hfin : forall s3 ev3 (final : outcome A),
               releases ev3 = 1%nat -> _semaphore s3 = _semaphore s2 + 1 ->
               acquisitions ev3 = 0%nat -> creations ev3 = 0%nat ->
               context_closes ev3 = 1%nat ->
               (final, s3, ev1 ++ ev2 ++ ev3) = (o, s', evs) ->
               final <> Blocked ->
               (creations evs <= 1)%nat
               /\ (creations evs = 1%nat ->
                   _semaphore s' = _semaphore s /\ acquisitions evs = 1%nat
                   /\ releases evs = 1%nat /\ context_closes evs = 1%nat
                   /\ o <> Blocked)
               /\ ((exists a, o = Returned a)
                   \/ (exists e, o = Raised e /\ is_Exception e = true) ->
                   _semaphore s' = _semaphore s /\ acquisitions evs = 1%nat
                   /\ releases evs = 1%nat)
               /\ (creations evs = 0%nat -> context_closes evs = 0%nat)).
    { intros s3 ev3 final Hr3 Hs3 Ha3 Hc3 Hcl3 H Hfinal. inversion H; subst.
      rewrite !creations_app, !acquisitions_app, !releases_app, !context_closes_app.
      rewrite Hc1, Hc2, Hc3, Ha1, Ha2, Ha3, Hr1, Hr2, Hr3, Hcl1, Hcl2, Hcl3.
      repeat split; try lia; try assumption. }
    destruct o2 as [a|e|]; [| |exfalso; apply Hb2; reflexivity];
      destruct (run w (release_context (Some ctx)) s2) as [[o3 s3] ev3] eqn:E3;
      destruct (release_context_run _ _ _ E3) as (Hr3 & Hs3 & Ho3 & _);
      destruct (release_context_events _ _ _ E3) as (Ha3 & Hc3 & Hcl3);
      specialize (Hcl3 ctx eq_refl);
      destruct Ho3 as [-> | ->];
      intros H; apply (Hfin _ _ _ Hr3 Hs3 Ha3 Hc3 Hcl3 H); discriminate.
  - intros H; inversion H; subst.
    destruct Hnone as (Hc0 & Hcl0 & Ha0); [congruence|].
    rewrite Hc0. split; [lia|]. split; [discriminate|]. split; [|auto].
    intros [[a Ha]|[e' [He' Hex]]]; [discriminate|].
    inversion He'; subst. destruct (Hexn e' eq_refl Hex) as (? & ? & ? & ?). auto.
  - intros H; inversion H; subst.
    destruct Hnone as (Hc0 & Hcl0 & Ha0); [congruence|].
    rewrite Hc0. split; [lia|]. split; [discriminate|]. split; [|auto].
    intros [[a Ha]|[e' [He' Hex]]]; discriminate.
Qed.

(** X3. [acquire_context] does not fall out of its loop: what it returns is
    a context, created by one successful [new_context], with one slot
    taken and not released. *)
Theorem acquire_context_returns_leased :
  forall (w : world) (s : state) (c : option context) s' evs,
    run w acquire_context s = (Returned c, s', evs) ->
    (exists ctx, c = Some ctx)
    /\ creations evs = 1%nat
    /\ acquisitions evs = 1%nat
    /\ releases evs = 0%nat
    /\ _semaphore s' = _semaphore s - 1.
Proof.
  intros w s c s' evs H.
  destruct (acquire_context_accounts _ _ H) as (Hret & _ & _).
  destruct (Hret c eq_refl) as (Hc & Ha & Hr & Hcr & Hs).
  split; [destruct c as [ctx|]; [exists ctx; reflexivity | congruence]|].
  auto.
Qed.

Lemma acquire_context_returns_leased_witness :
  exists s' evs,
    run Worlds.calm acquire_context Worlds.started = (Returned (Some 7%nat), s', evs)
    /\ creations evs = 1%nat /\ releases evs = 0%nat /\ _semaphore s' = 2.
Proof.
  destruct (run Worlds.calm acquire_context Worlds.started) as [[o s'] evs] eqn:E.
  assert (o = Returned (Some 7%nat)) as -> by (vm_compute in E; inversion E; reflexivity).
  exists s', evs. split; [reflexivity|].
  destruct (acquire_context_returns_leased Worlds.calm Worlds.started E)
    as (_ & Hc & _ & Hr & Hs).
  auto.
Defined.

Lemma do_capture_is_lease cfg timer target full_page fmt quality delay :
  Capture._do_capture cfg timer target full_page fmt quality delay
  = lease (fun context =>
             p <- Capture.open_page context ;;
             Capture.readiness cfg p target delay ;;
             Capture.take_screenshot cfg timer p full_page fmt quality).
Proof. reflexivity. Qed.

Lemma do_extract_is_lease cfg target min_width min_height max_images include_backgrounds :
  Extract._do_extract cfg target min_width min_height max_images include_backgrounds
  = lease (fun context =>
             p <- Capture.open_page context ;;
             Extract.readiness cfg p target ;;
             do (log INFO "Extracting image data...") ;;
             image_data <- await (evaluate p (EXTRACT_IMAGES_JS include_backgrounds)) ;;
             do (log INFO "Extracted %d total images") ;;
             do (log INFO "After filtering: %d images") ;;
             Ret (Images.transform image_data min_width min_height max_images)).
Proof. reflexivity. Qed.

(** X4. [_do_capture] does not keep a slot: once a context has been
    created it is closed and the semaphore is back at its value however
    the capture ends (navigation failure, timer, cancellation in the
    pipeline); and whenever [_do_capture] returns or raises an exception
    that is not a cancellation, it has taken one slot and released it
    once. *)
Theorem do_capture_returns_slot :
  forall w cfg timer target full_page fmt quality delay s o s' evs,
    run w (Capture._do_capture cfg timer target full_page fmt quality delay) s
      = (o, s', evs) ->
    (creations evs = 1%nat ->
       _semaphore s' = _semaphore s /\ acquisitions evs = 1%nat
       /\ releases evs = 1%nat /\ context_closes evs = 1%nat /\ o <> Blocked)
    /\ ((exists b, o = Returned b)
        \/ (exists e, o = Raised e /\ is_Exception e = true) ->
        _semaphore s' = _semaphore s /\ acquisitions evs = 1%nat
        /\ releases evs = 1%nat)
    /\ (creations evs = 0%nat -> context_closes evs = 0%nat).
Proof.
  intros w cfg timer target full_page fmt quality delay s o s' evs.
  rewrite do_capture_is_lease. intros H.
  apply lease_run in H.
  - tauto.
  - intros c. unfold quiet, Capture.take_screenshot. avoid_all.
  - intros c. unfold Capture.take_screenshot. avoid_all.
Qed.

Lemma do_capture_returns_slot_witness :
  let '(o, s', evs) :=
    run Worlds.refusing
      (Capture._do_capture default_settings None "https://example.com/" true "png" 90 0)
      Worlds.started in
  _semaphore s' = 3 /\ acquisitions evs = 1%nat /\ releases evs = 1%nat.
Proof.
  destruct (run Worlds.refusing
              (Capture._do_capture default_settings None "https://example.com/"
                 true "png" 90 0) Worlds.started) as [[o s'] evs] eqn:E.
  apply (do_capture_returns_slot _ _ _ _ _ _ _ _ _ E).
  right. vm_compute in E. inversion E. eexists. split; reflexivity.
Defined.

(** X5. [_do_extract] does not keep a slot either, in the same sense. *)
Theorem do_extract_returns_slot :
  forall w cfg target min_width min_height max_images include_backgrounds
         s o s' evs,
    run w (Extract._do_extract cfg target min_width min_height max_images
             include_backgrounds) s = (o, s', evs) ->
    (creations evs = 1%nat ->
       _semaphore s' = _semaphore s /\ acquisitions evs = 1%nat
       /\ releases evs = 1%nat /\ context_closes evs = 1%nat /\ o <> Blocked)
    /\ ((exists r, o = Returned r)
        \/ (exists e, o = Raised e /\ is_Exception e = true) ->
        _semaphore s' = _semaphore s /\ acquisitions evs = 1%nat
        /\ releases evs = 1%nat)
    /\ (creations evs = 0%nat -> context_closes evs = 0%nat).
Proof.
  intros w cfg target mw mh mx ib s o s' evs.
  rewrite do_extract_is_lease. intros H.
  apply lease_run in H.
  - tauto.
  - intros c. unfold quiet. avoid_all.
  - intros c. avoid_all.
Qed.

Lemma do_extract_returns_slot_witness :
  let '(o, s', evs) :=
    run Worlds.calm
      (Extract._do_extract default_settings "https://example.com/" 100 100 100 false)
      Worlds.started in
  _semaphore s' = 3 /\ acquisitions evs = 1%nat /\ releases evs = 1%nat
  /\ context_closes evs = 1%nat /\ o <> Blocked.
Proof.
  destruct (run Worlds.calm
              (Extract._do_extract default_settings "https://example.com/"
                 100 100 100 false) Worlds.started) as [[o s'] evs] eqn:E.
  apply (do_extract_returns_slot _ _ _ _ _ _ _ _ E).
  vm_compute in E. inversion E. reflexivity.
Defined.

End LeaseFacts.

(* ================================================================== *)
(** * How the pipelines fail *)

Section FailureFacts.
Import Effects Readings.

Lemma run_await_browser w (c : call) s :
  is_acquire c = false ->
  run w (await c) s
  = (match respond w (tick s) c with
     | inl e => Raised e
     | inr v => Returned v
     end, next s, [Called c (raised_of (respond w (tick s) c))]).
Proof.
  intros Hc. destruct c; try discriminate; simpl;
    destruct (respond w (tick s) _); reflexivity.
Qed.

Lemma run_do w (a : action) s :
  run w (do a) s = (Returned (fst (perform w a s)), snd (perform w a s), [Did a]).
Proof. simpl. destruct (perform w a s). reflexivity. Qed.

Lemma raised_bind A B w (p : prog A) (f : A -> prog B) s e s' evs :
  run w (bind p f) s = (Raised e, s', evs) ->
  run w p s = (Raised e, s', evs)
  \/ exists a s1 ev1 ev2,
       run w p s = (Returned a, s1, ev1)
       /\ run w (f a) s1 = (Raised e, s', ev2)
       /\ evs = ev1 ++ ev2.
Proof.
  rewrite run_bind. destruct (run w p s) as [[o s1] ev1].
  destruct o as [a|e0|]; [| |discriminate].
  - destruct (run w (f a) s1) as [[o2 s2] ev2] eqn:E2.
    intros H. inversion H; subst. right. exists a, s1, ev1, ev2. auto.
  - intros H. left. inversion H; subst. reflexivity.
Qed.

Lemma blamed_app e ev1 ev2 : blamed e ev2 -> blamed e (ev1 ++ ev2).
Proof.
  intros (pre & c & -> & H). exists (ev1 ++ pre), c.
  split; [now rewrite app_assoc | exact H].
Qed.

Lemma raised_do w (a : action) s e s' evs :
  run w (do a) s = (Raised e, s', evs) -> False.
Proof. rewrite run_do. discriminate. Qed.

Lemma raised_await w (c : call) s e s' evs :
  is_acquire c = false -> is_wait c = false ->
  run w (await c) s = (Raised e, s', evs) -> blamed e evs.
Proof.
  intros Hc Hw. rewrite (run_await_browser w c s Hc).
  destruct (respond w (tick s) c) as [e0|v]; [|discriminate].
  intros H. inversion H; subst. exists [], c. split; [reflexivity|].
  rewrite Hw. discriminate.
Qed.

(** An advisory wait ends the pipeline only when it is cancelled. *)
Lemma raised_settle w p state t (on_ok on_exn : prog unit) s e s' evs :
  (forall s0, exists s1 ev, run w on_ok s0 = (Returned tt, s1, ev)) ->
  (forall s0, exists s1 ev, run w on_exn s0 = (Returned tt, s1, ev)) ->
  run w (Capture.settle p state t on_ok on_exn) s = (Raised e, s', evs) ->
  blamed e evs.
Proof.
  intros Hok Hexn. unfold Capture.settle, try_except.
  rewrite run_try_catch, run_bind, run_wait_for_load_state.
  destruct (respond w (tick s) (wait_for_load_state p state t)) as [e0|[]].
  - destruct (is_Exception e0) eqn:Ee.
    + destruct (Hexn (next s)) as (s1 & ev & ->). discriminate.
    + intros H. inversion H; subst.
      exists [], (wait_for_load_state p state t). split; [reflexivity|].
      intros _. exact Ee.
  - destruct (Hok (next s)) as (s1 & ev & ->). discriminate.
Qed.

Lemma harmless_ret w s0 : exists s1 ev, run w (Ret tt) s0 = (Returned tt, s1, ev).
Proof. eexists. eexists. reflexivity. Qed.

Lemma harmless_log w l msg s0 :
  exists s1 ev, run w (do (log l msg)) s0 = (Returned tt, s1, ev).
Proof. eexists. eexists. reflexivity. Qed.

Ltac blame_stage H :=
  first
    [ exfalso; exact (raised_do _ _ _ H)
    | match type of H with run ?w (await ?c) _ = _ =>
        apply (raised_await w c) in H; [exact H | reflexivity | reflexivity]
      end
    | apply raised_settle in H;
      [exact H | intros; first [apply harmless_ret | apply harmless_log]..] ].

Ltac peel_raise H :=
  let a := fresh "a" in let s := fresh "s" in
  let ev := fresh "ev" in let ev' := fresh "ev" in
  let Hp := fresh "Hp" in
  apply raised_bind in H;
  destruct H as [H | (a & s & ev & ev' & Hp & H & ->)];
  [blame_stage H | clear Hp; apply blamed_app].

Lemma capture_pipeline_failure_origin_aux w cfg p target delay s e s' evs :
  run w (Capture.readiness cfg p target delay) s = (Raised e, s', evs) ->
  blamed e evs.
Proof.
  intros H. unfold Capture.readiness in H.
  do 7 peel_raise H.
  apply raised_bind in H.
  destruct H as [H | (u & sx & evx & evy & Hp & H & ->)].
  - match type of H with context [negb (ready ?x)] => destruct (ready x) end;
      simpl negb in H; cbv iota in H.
    + discriminate.
    + do 3 peel_raise H. exfalso. exact (raised_do _ _ _ H).
  - clear Hp. apply blamed_app. do 4 peel_raise H.
    destruct (Capture.post_load_sleep delay (screenshot_post_load_delay cfg)).
    + peel_raise H. blame_stage H.
    + discriminate.
Qed.

(** X6. [_do_capture]'s pipeline raises only what its last operation
    raised, and an advisory wait (load state, network idle) is that
    operation only when it was cancelled: a wait that times out or fails
    never ends the pipeline. *)
Theorem capture_pipeline_failure_origin :
  forall w cfg p target delay s e s' evs,
    run w (Capture.readiness cfg p target delay) s = (Raised e, s', evs) ->
    blamed e evs.
Proof.
  intros w cfg p target delay s e s' evs. apply capture_pipeline_failure_origin_aux.
Qed.

Lemma capture_pipeline_failure_origin_witness :
  let '(o, _, evs) :=
    run MoreWorlds.unreachable
      (Capture.readiness default_settings 1%nat "https://example.com/" 0)
      Worlds.started in
  o = Raised (Error "net::ERR_CONNECTION_REFUSED")
  /\ blamed (Error "net::ERR_CONNECTION_REFUSED") evs.
Proof.
  destruct (run MoreWorlds.unreachable
              (Capture.readiness default_settings 1%nat "https://example.com/" 0)
              Worlds.started) as [[o s'] evs] eqn:E.
  assert (o = Raised (Error "net::ERR_CONNECTION_REFUSED")) as ->
    by (vm_compute in E; inversion E; reflexivity).
  split; [reflexivity|].
  apply (capture_pipeline_failure_origin _ _ _ _ _ _ E).
Defined.

(** X7. The same for the pipeline of [_do_extract]. *)
Theorem extract_pipeline_failure_origin :
  forall w cfg p target s e s' evs,
    run w (Extract.readiness cfg p target) s = (Raised e, s', evs) ->
    blamed e evs.
Proof.
  intros w cfg p target s e s' evs H. unfold Extract.readiness in H.
  do 9 peel_raise H. cbv zeta in H.
  destruct (0 <? screenshot_post_load_delay cfg).
  - peel_raise H. blame_stage H.
  - discriminate.
Qed.

Lemma extract_pipeline_failure_origin_witness :
  let '(o, _, evs) :=
    run MoreWorlds.unreachable
      (Extract.readiness default_settings 1%nat "https://example.com/")
      Worlds.started in
  o = Raised (Error "net::ERR_CONNECTION_REFUSED")
  /\ blamed (Error "net::ERR_CONNECTION_REFUSED") evs.
Proof.
  destruct (run MoreWorlds.unreachable
              (Extract.readiness default_settings 1%nat "https://example.com/")
              Worlds.started) as [[o s'] evs] eqn:E.
  assert (o = Raised (Error "net::ERR_CONNECTION_REFUSED")) as ->
    by (vm_compute in E; inversion E; reflexivity).
  split; [reflexivity|].
  apply (extract_pipeline_failure_origin _ _ _ _ _ E).
Defined.

(** X8. A navigation that fails ends either pipeline at once: the
    exception of [page.goto] is raised and nothing else is asked of the
    page. *)
Theorem navigation_failure_is_fatal :
  forall w cfg p target delay s e,
    respond w (S (tick s))
      (goto p target "commit" (screenshot_page_navigation_timeout cfg)) = inl e ->
    run w (Capture.readiness cfg p target delay) s
      = (Raised e, next (next s),
         [Did (log INFO "Navigating to %s (timeout: %dms)...");
          Called (goto p target "commit" (screenshot_page_navigation_timeout cfg))
            (Some e)])
    /\ run w (Extract.readiness cfg p target) s
       = (Raised e, next (next s),
          [Did (log INFO "Navigating to %s for image extraction...");
           Called (goto p target "commit" (screenshot_page_navigation_timeout cfg))
             (Some e)]).
Proof.
  intros w cfg p target delay s e He.
  unfold Capture.readiness, Extract.readiness.
  split; rewrite run_bind, run_do; simpl fst; simpl snd; cbv beta iota;
    rewrite run_bind, run_await_browser by reflexivity;
    simpl tick; rewrite He; reflexivity.
Qed.

Lemma navigation_failure_is_fatal_witness :
  fst (fst (run MoreWorlds.unreachable
              (Capture.readiness default_settings 1%nat "https://example.com/" 0)
              Worlds.started))
  = Raised (Error "net::ERR_CONNECTION_REFUSED").
Proof.
  rewrite (proj1 (@navigation_failure_is_fatal MoreWorlds.unreachable
                    default_settings 1%nat "https://example.com/" 0
                    Worlds.started
                    (Error "net::ERR_CONNECTION_REFUSED") eq_refl)).
  reflexivity.
Defined.

(** What a run shows as raised by an operation of the browser, the
    browser answered. *)
Lemma raised_events_answered A w (p : prog A) :
  forall s o s' evs,
    run w p s = (o, s', evs) ->
    forall c e, In (Called c (Some e)) evs -> exists t, respond w t c = inl e.
Proof.
  induction p as [a|e0|a k IH|c0 k IH]; simpl; intros s o s' evs Hrun c e Hin.
  - inversion Hrun; subst. destruct Hin.
  - inversion Hrun; subst. destruct Hin.
  - destruct (perform w a s) as [v s1].
    destruct (run w (k v) s1) as [[o1 s2] ev1] eqn:E.
    inversion Hrun; subst. destruct Hin as [Hin|Hin]; [discriminate|].
    apply (IH v _ _ _ _ E c e Hin).
  - destruct (answer w c0 s) as [r|] eqn:Ea.
    + destruct (run w (k r) _) as [[o1 s2] ev1] eqn:E.
      inversion Hrun; subst. destruct Hin as [Hin|Hin].
      * inversion Hin; subst. exists (tick s).
        destruct c; simpl in Ea;
          try (destruct (available r0 s); [|discriminate]);
          inversion Ea; subst; simpl in *;
          try discriminate;
          destruct (respond w (tick s) _); simpl in *; congruence.
      * apply (IH r _ _ _ _ E c e Hin).
    + inversion Hrun; subst. destruct Hin.
Qed.

(** X9. Waits that fail do not stop the capture pipeline: when navigation,
    the scripts and the sleep work, and no wait is cancelled, the pipeline
    reaches its end whatever the waits for load state and network idle
    do. *)
Theorem capture_pipeline_survives_waits :
  forall w cfg p target delay s,
    (forall t c, is_wait c = false -> exists v, respond w t c = inr v) ->
    (forall t c e, is_wait c = true -> respond w t c = inl e ->
                   is_Exception e = true) ->
    exists s' evs,
      run w (Capture.readiness cfg p target delay) s = (Returned tt, s', evs).
Proof.
  intros w cfg p target delay s Hworks Hwaits.
  destruct (run w (Capture.readiness cfg p target delay) s) as [[o s'] evs] eqn:E.
  destruct o as [[]|e|].
  - exists s', evs. reflexivity.
  - exfalso. pose proof E as Hb.
    apply capture_pipeline_failure_origin_aux in Hb.
    destruct Hb as (pre & c & Hevs & Hc).
    assert (exists t, respond w t c = inl e) as (t & Ht).
    { eapply raised_events_answered; [exact E|].
      rewrite Hevs. apply in_or_app. right. left. reflexivity. }
    destruct (is_wait c) eqn:Hw.
    + rewrite (Hwaits t c e Hw Ht) in Hc. discriminate (Hc eq_refl).
    + destruct (Hworks t c Hw) as (v & Hv). congruence.
  - exfalso.
    assert (Hav : avoids (fun _ => false) is_acquire
                    (Capture.readiness cfg p target delay))
      by (unfold Capture.readiness; avoid_all).
    apply (never_blocked w _ Hav _ E). reflexivity.
Qed.

Lemma capture_pipeline_survives_waits_witness :
  exists s' evs,
    run MoreWorlds.restless
      (Capture.readiness default_settings 1%nat "https://example.com/" 0)
      Worlds.started = (Returned tt, s', evs).
Proof.
  apply (capture_pipeline_survives_waits MoreWorlds.restless).
  - intros t c Hc. destruct c; try discriminate; eexists; reflexivity.
  - intros t c e Hc He. destruct c; try discriminate.
    simpl in He. inversion He. reflexivity.
Defined.

End FailureFacts.

(* ================================================================== *)
(** * The screenshot route *)

Section RouteFacts.
Import Effects Readings Routes.

Lemma route_unfold w cfg reason ct ot body s :
  run w (screenshot cfg (true, reason) ct ot body) s
  = let '(o1, s1, ev1) :=
      run w (buffer <- Capture.capture_screenshot cfg ct ot
                         (req_url body) (fullPage body) (format body)
                         (quality body) (delay body) ;;
             upload_result <- await (upload_screenshot buffer (format body)) ;;
             now <- do time_time ;;
             Ret ok_response) (next s) in
    match o1 with
    | Raised e =>
        if is_Exception e then
          if is_TimeoutError e then
            (Returned timeout_response, s1, Did time_time :: ev1)
          else
            (Returned (error_response e), next s1,
             Did time_time :: ev1 ++ [Did (log ERROR "Screenshot error for %s")])
        else (Raised e, s1, Did time_time :: ev1)
    | _ => (o1, s1, Did time_time :: ev1)
    end.
Proof.
  unfold screenshot. rewrite run_bind, run_do. simpl fst. simpl snd.
  cbv beta iota. simpl negb. cbv iota.
  unfold try_except. rewrite run_try_catch.
  match goal with |- context [run w ?p (next s)] =>
    destruct (run w p (next s)) as [[o1 s1] ev1] end.
  destruct o1 as [r|e|]; try reflexivity.
  destruct e; simpl; rewrite ?app_nil_r; reflexivity.
Qed.

(** X10. The screenshot route answers every failure: no exception other
    than a cancellation leaves it.  Its answer is the success, the
    rejection of the URL, the timeout answer or the error answer of an
    exception that is not a timeout; a rejected URL is answered before the
    pool or the browser is touched. *)
Theorem screenshot_route_answers :
  forall w cfg verdict ct ot body s o s' evs,
    run w (screenshot cfg verdict ct ot body) s = (o, s', evs) ->
    (forall e, o = Raised e -> e = CancelledError)
    /\ (forall r, o = Returned r ->
          r = ok_response \/ r = invalid_url_response (snd verdict)
          \/ r = timeout_response
          \/ exists e, r = error_response e /\ is_TimeoutError e = false
                       /\ is_Exception e = true)
    /\ (fst verdict = false ->
          o = Returned (invalid_url_response (snd verdict))
          /\ evs = [Did time_time]).
Proof.
  intros w cfg [valid reason] ct ot body s o s' evs. destruct valid.
  - rewrite route_unfold.
    match goal with |- context [run w ?p (next s)] =>
      destruct (run w p (next s)) as [[o1 s1] ev1] eqn:E1 end.
    destruct o1 as [r|e|].
    + intros H; inversion H; subst. clear H.
      apply returned_bind in E1. destruct E1 as (b & sa & eva & evb & _ & E1 & _).
      apply returned_bind in E1. destruct E1 as (u & sb & evc & evd & _ & E1 & _).
      apply returned_bind in E1. destruct E1 as (n & sc & eve & evf & _ & E1 & _).
      inversion E1; subst.
      split; [intros; discriminate|]. split; [|discriminate].
      intros r0 Hr0. inversion Hr0. left. reflexivity.
    + destruct e; simpl; intros H; inversion H; subst;
        (split; [intros e' He'; inversion He'; reflexivity || discriminate|]);
        (split; [|discriminate]); intros r0 Hr0; inversion Hr0; subst.
      * right. right. left. reflexivity.
      * right. right. right. exists (Error msg). auto.
    + intros H; inversion H; subst.
      split; [intros; discriminate|]. split; [intros; discriminate|discriminate].
  - unfold screenshot. rewrite run_bind, run_do. simpl.
    intros H; inversion H; subst.
    split; [intros; discriminate|]. split; [|auto].
    intros r Hr. inversion Hr. right. left. reflexivity.
Qed.

Lemma screenshot_route_answers_witness :
  let '(o, _, evs) :=
    run Worlds.calm
      (screenshot default_settings (false, Some "Access to internal or private resources is not allowed.")
         None None Worlds.request) Worlds.started in
  o = Returned (invalid_url_response
                  (Some "Access to internal or private resources is not allowed."))
  /\ evs = [Did time_time].
Proof.
  destruct (run Worlds.calm
              (screenshot default_settings
                 (false, Some "Access to internal or private resources is not allowed.")
                 None None Worlds.request) Worlds.started) as [[o s'] evs] eqn:E.
  apply (screenshot_route_answers _ _ _ _ _ _ _ E). reflexivity.
Defined.

(** X11. How the route classifies: whatever exception [capture_screenshot]
    raises, or the upload raises after a capture, is answered as a timeout
    (504, retryable) when it is [asyncio.TimeoutError] and as an error
    (500, not retryable, [str(e)]) otherwise.  So an upload that runs
    into its own [wait_for] timer is answered with the capture's timeout
    message. *)
Theorem screenshot_route_classifies :
  forall w cfg reason ct ot body s e,
    is_Exception e = true ->
    ((exists s1 ev1,
        run w (Capture.capture_screenshot cfg ct ot (req_url body) (fullPage body)
                 (format body) (quality body) (delay body)) (next s)
          = (Raised e, s1, ev1))
     \/ (exists buffer s1 ev1,
           run w (Capture.capture_screenshot cfg ct ot (req_url body) (fullPage body)
                    (format body) (quality body) (delay body)) (next s)
             = (Returned buffer, s1, ev1)
           /\ respond w (tick s1) (upload_screenshot buffer (format body)) = inl e)) ->
    fst (fst (run w (screenshot cfg (true, reason) ct ot body) s))
    = Returned (if is_TimeoutError e then timeout_response else error_response e).
Proof.
  intros w cfg reason ct ot body s e He Hcase.
  rewrite route_unfold, run_bind.
  destruct Hcase as [(s1 & ev1 & E1) | (buffer & s1 & ev1 & E1 & Hup)]; rewrite E1.
  - rewrite He. destruct (is_TimeoutError e); reflexivity.
  - rewrite run_bind, run_await_browser by reflexivity. rewrite Hup.
    rewrite He. destruct (is_TimeoutError e); reflexivity.
Qed.

Lemma screenshot_route_classifies_witness :
  fst (fst (run MoreWorlds.upload_stalls
              (screenshot default_settings (true, None) None None Worlds.request)
              Worlds.started))
  = Returned timeout_response
  /\ fst (fst (run MoreWorlds.upload_refused
                 (screenshot default_settings (true, None) None None Worlds.request)
                 Worlds.started))
     = Returned (error_response (Error "403 Forbidden")).
Proof.
  split.
  - apply (screenshot_route_classifies MoreWorlds.upload_stalls default_settings
             None None None Worlds.request Worlds.started (e := TimeoutError) eq_refl).
    right.
    destruct (run MoreWorlds.upload_stalls
                (Capture.capture_screenshot default_settings None None
                   (req_url Worlds.request) (fullPage Worlds.request)
                   (format Worlds.request) (quality Worlds.request)
                   (delay Worlds.request)) (next Worlds.started))
      as [[o1 s1] ev1] eqn:E.
    vm_compute in E. inversion E; subst.
    eexists. eexists. eexists. split; reflexivity.
  - apply (screenshot_route_classifies MoreWorlds.upload_refused default_settings
             None None None Worlds.request Worlds.started
             (e := Error "403 Forbidden") eq_refl).
    right.
    destruct (run MoreWorlds.upload_refused
                (Capture.capture_screenshot default_settings None None
                   (req_url Worlds.request) (fullPage Worlds.request)
                   (format Worlds.request) (quality Worlds.request)
                   (delay Worlds.request)) (next Worlds.started))
      as [[o1 s1] ev1] eqn:E.
    vm_compute in E. inversion E; subst.
    eexists. eexists. eexists. split; reflexivity.
Defined.

End RouteFacts.

(* ================================================================== *)
(** * What [extract_images] returns *)

Section ExtractFacts.
Import Effects Readings Images.

Lemma ensures_bind A B (Q : A -> Prop) (P : B -> Prop) (p : prog A)
    (f : A -> prog B) :
  ensures Q p -> (forall a, Q a -> ensures P (f a)) -> ensures P (bind p f).
Proof.
  intros Hp Hf. induction p as [a|e|a k IH|c k IH]; simpl in *.
  - apply Hf, Hp.
  - exact I.
  - intros v. apply IH, Hp.
  - intros r. apply IH, Hp.
Qed.

Lemma ensures_any A (p : prog A) : ensures (fun _ => True) p.
Proof. induction p; simpl; auto. Qed.

Lemma ensures_then A B (P : B -> Prop) (p : prog A) (f : A -> prog B) :
  (forall a, ensures P (f a)) -> ensures P (bind p f).
Proof.
  intros Hf. apply ensures_bind with (Q := fun _ => True); [apply ensures_any|].
  intros a _. apply Hf.
Qed.

Lemma ensures_try_catch A (P : A -> Prop) (catches : exn -> bool) (p : prog A) h :
  ensures P p -> (forall e, ensures P (h e)) -> ensures P (try_catch catches p h).
Proof.
  intros Hp Hh. induction p as [a|e|a k IH|c k IH]; simpl in *.
  - exact Hp.
  - destruct (catches e); [apply Hh | exact I].
  - intros v. apply IH, Hp.
  - intros r. apply IH, Hp.
Qed.

Lemma ensures_try_finally A (P : A -> Prop) (p : prog A) f :
  ensures P p -> ensures P (try_finally p f).
Proof.
  intros Hp. induction p as [a|e|a k IH|c k IH]; simpl in *.
  - apply ensures_then. intros _. exact Hp.
  - apply ensures_then. intros _. exact I.
  - intros v. apply IH, Hp.
  - intros r. apply IH, Hp.
Qed.

Lemma ensures_timed_out A (P : A -> Prop) (p : prog A) :
  ensures P p -> ensures P (timed_out p).
Proof.
  intros Hp. induction p as [a|e|a k IH|c k IH]; simpl in *.
  - exact Hp.
  - destruct e; exact I.
  - intros v. apply IH, Hp.
  - intros r. apply IH, Hp.
Qed.

Lemma ensures_wait_for A (P : A -> Prop) timer (p : prog A) :
  ensures P p -> ensures P (wait_for timer p).
Proof.
  destruct timer as [n|]; [|destruct p; intros H; exact H].
  revert n. induction p as [a|e|a k IH|c k IH]; intros n Hp; simpl in *.
  - exact Hp.
  - exact I.
  - intros v. apply IH, Hp.
  - destruct n as [|n]; simpl.
    + intros _. apply ensures_timed_out, Hp.
    + intros r. apply IH, Hp.
Qed.

Lemma ensures_run A (P : A -> Prop) w (p : prog A) :
  ensures P p ->
  forall s a s' evs, run w p s = (Returned a, s', evs) -> P a.
Proof.
  induction p as [a0|e|a0 k IH|c k IH]; simpl; intros Hp s a s' evs Hrun.
  - inversion Hrun; subst. exact Hp.
  - discriminate.
  - destruct (perform w a0 s) as [v s0].
    destruct (run w (k v) s0) as [[o s1] ev1] eqn:E.
    inversion Hrun; subst. eapply IH; [apply Hp | exact E].
  - destruct (answer w c s) as [r|]; [|discriminate].
    destruct (run w (k r) _) as [[o s1] ev1] eqn:E.
    inversion Hrun; subst. eapply IH; [apply Hp | exact E].
Qed.

(** What [_do_extract] returns is the transform of what the in-page query
    answered. *)
Lemma do_extract_ensures cfg target mw mh mx bg :
  ensures (fun r => exists data, r = transform data mw mh mx)
          (Extract._do_extract cfg target mw mh mx bg).
Proof.
  unfold Extract._do_extract.
  apply ensures_then. intros context.
  apply ensures_try_finally.
  apply ensures_then. intros p.
  apply ensures_then. intros _.
  apply ensures_then. intros _.
  apply ensures_then. intros data.
  apply ensures_then. intros _.
  apply ensures_then. intros _.
  simpl. exists data. reflexivity.
Qed.

Lemma extract_images_ensures cfg timer target min_width min_height mx bg :
  ensures (fun res => exists data elapsed,
             res = assemble
                     (transform data
                        match min_width with None => image_min_width cfg | Some v => v end
                        match min_height with None => image_min_height cfg | Some v => v end
                        mx) elapsed)
          (Extract.extract_images cfg timer target min_width min_height mx bg).
Proof.
  unfold Extract.extract_images.
  apply ensures_then. intros start.
  eapply ensures_bind.
  - apply ensures_try_catch.
    + apply ensures_wait_for, do_extract_ensures.
    + intros e. apply ensures_then. intros _. exact I.
  - intros r [data ->]. apply ensures_then. intros now.
    simpl. exists data, (now - start). reflexivity.
Qed.

Lemma In_slice_to {A : Type} (l : list A) (n : Z) (a : A) :
  In a (slice_to l n) -> In a l.
Proof.
  unfold slice_to. destruct (0 <=? n); intros H;
    match type of H with In _ (firstn ?k _) =>
      rewrite <- (firstn_skipn k l); apply in_or_app; left; exact H end.
Qed.

Lemma slice_to_bound {A : Type} (l : list A) (n : Z) :
  0 <= n -> Z.of_nat (List.length (slice_to l n)) <= n.
Proof. intros Hn. rewrite slice_to_length by exact Hn. lia. Qed.

Lemma kept_passes images mw mh img :
  In img (_filter_images images mw mh) ->
  In img images
  /\ mw <= width img /\ mh <= height img
  /\ ~ (width img = 1 /\ height img = 1)
  /\ src img <> EmptyString
  /\ startswith "data:" (src img) = false.
Proof.
  induction images as [|i rest IH]; [intros []|].
  cbn [_filter_images].
  destruct (Z.ltb_spec (width i) mw) as [Hw|Hw];
    [intros H; destruct (IH H); split; [right; assumption | assumption]|].
  destruct (Z.ltb_spec (height i) mh) as [Hh|Hh];
    [intros H; destruct (IH H); split; [right; assumption | assumption]|].
  cbn [orb].
  destruct ((width i =? 1) && (height i =? 1)) eqn:Hp;
    [intros H; destruct (IH H); split; [right; assumption | assumption]|].
  destruct (py_not_str (src i)) eqn:He;
    [intros H; destruct (IH H); split; [right; assumption | assumption]|].
  cbn [orb].
  destruct (startswith "data:" (src i)) eqn:Hd;
    [intros H; destruct (IH H); split; [right; assumption | assumption]|].
  intros [<-|H]; [|destruct (IH H); split; [right; assumption | assumption]].
  split; [left; reflexivity|]. split; [exact Hw|]. split; [exact Hh|]. split.
  - intros [H1 H2]. rewrite H1, H2 in Hp. discriminate.
  - split; [|exact Hd].
    intros Hs. rewrite Hs in He. discriminate.
Qed.

(** What [extract_images] returns, for the callers below. *)
Lemma extract_images_returns :
  forall w cfg timer target min_width min_height max_images bg s res s' evs,
    run w (Extract.extract_images cfg timer target min_width min_height
             max_images bg) s = (Returned res, s', evs) ->
    let mw := match min_width with None => image_min_width cfg | Some v => v end in
    let mh := match min_height with None => image_min_height cfg | Some v => v end in
    (forall img, In img (result_images res) ->
       mw <= Extracted.width img /\ mh <= Extracted.height img
       /\ ~ (Extracted.width img = 1 /\ Extracted.height img = 1)
       /\ Extracted.src img <> EmptyString
       /\ startswith "data:" (Extracted.src img) = false
       /\ exists c, Extracted.classification img = label c)
    /\ totalImages (metadata res) = Z.of_nat (List.length (result_images res))
    /\ (0 <= max_images -> totalImages (metadata res) <= max_images)
    /\ 0 <= filteredOut (metadata res)
    /\ processingTime (metadata res) = elapsedMs (metadata res).
Proof.
  intros w cfg timer target min_width min_height mx bg s res s' evs Hrun mw mh.
  destruct (@ensures_run _ _ w _
              (extract_images_ensures cfg timer target min_width min_height mx bg)
              _ _ _ _ Hrun) as (data & elapsed & ->).
  fold mw mh. unfold assemble, transform. simpl.
  split; [|split; [|split; [|split]]].
  - intros img Hin. unfold _classify_images in Hin.
    apply in_map_iff in Hin. destruct Hin as (raw & <- & Hraw). simpl.
    apply In_slice_to in Hraw. apply kept_passes in Hraw.
    destruct Hraw as (_ & Hw & Hh & Hp & He & Hd).
    repeat (split; [assumption|]). eexists. reflexivity.
  - reflexivity.
  - intros Hmx. rewrite classify_images_length. apply slice_to_bound, Hmx.
  - pose proof (filter_length_split (allImages data) mw mh). lia.
  - reflexivity.
Qed.

(** X12. Whenever [extract_images] returns, every image of the result is
    one the in-page query reported and the filter keeps (with the
    minimums of the settings where the caller gave none): at least as wide
    and high as the minimums, not 1x1, with a source that is not empty and
    does not start with [data:]; it carries one of the six class names;
    [totalImages] is the number of images returned, which does not exceed
    a [max_images] that is not negative; [filteredOut] is not negative;
    and [processingTime] and [elapsedMs] are the same number. *)
Theorem extract_images_result :
  forall w cfg timer target min_width min_height max_images bg s res s' evs,
    run w (Extract.extract_images cfg timer target min_width min_height
             max_images bg) s = (Returned res, s', evs) ->
    let mw := match min_width with None => image_min_width cfg | Some v => v end in
    let mh := match min_height with None => image_min_height cfg | Some v => v end in
    (forall img, In img (result_images res) ->
       mw <= Extracted.width img /\ mh <= Extracted.height img
       /\ ~ (Extracted.width img = 1 /\ Extracted.height img = 1)
       /\ Extracted.src img <> EmptyString
       /\ startswith "data:" (Extracted.src img) = false
       /\ exists c, Extracted.classification img = label c)
    /\ totalImages (metadata res) = Z.of_nat (List.length (result_images res))
    /\ (0 <= max_images -> totalImages (metadata res) <= max_images)
    /\ 0 <= filteredOut (metadata res)
    /\ processingTime (metadata res) = elapsedMs (metadata res).
Proof.
  intros w cfg timer target min_width min_height max_images bg s res s' evs Hrun.
  exact (extract_images_returns _ _ _ _ _ _ _ _ _ Hrun).
Qed.

Lemma extract_images_result_witness :
  exists res s' evs,
    run Worlds.calm
      (Extract.extract_images default_settings None "https://example.com/"
         None None 100 false) Worlds.started = (Returned res, s', evs)
    /\ totalImages (metadata res) <= 100.
Proof.
  destruct (run Worlds.calm
              (Extract.extract_images default_settings None "https://example.com/"
                 None None 100 false) Worlds.started) as [[o s'] evs] eqn:E.
  assert (exists res, o = Returned res) as [res ->].
  { vm_compute in E. inversion E. eexists. reflexivity. }
  exists res, s', evs. split; [reflexivity|].
  apply (extract_images_result _ _ _ _ _ _ _ _ _ E). lia.
Defined.

End ExtractFacts.

(* ================================================================== *)
(** * The image route and the request models *)

Section ImageRouteFacts.
Import Effects Readings Requests ImageRoutes.

Lemma awaits_only_bind A B (P : call -> Prop) (p : prog A) (f : A -> prog B) :
  awaits_only P p -> (forall a, awaits_only P (f a)) -> awaits_only P (bind p f).
Proof.
  intros Hp Hf. induction p as [a|e|a k IH|c k IH]; simpl in *.
  - apply Hf.
  - exact I.
  - intros v. apply IH, Hp.
  - destruct Hp as [Hc Hk]. split; [exact Hc|]. intros r. apply IH, Hk.
Qed.

Lemma awaits_only_try_catch A (P : call -> Prop) (catches : exn -> bool)
    (p : prog A) h :
  awaits_only P p -> (forall e, awaits_only P (h e)) ->
  awaits_only P (try_catch catches p h).
Proof.
  intros Hp Hh. induction p as [a|e|a k IH|c k IH]; simpl in *.
  - exact I.
  - destruct (catches e); [apply Hh | exact I].
  - intros v. apply IH, Hp.
  - destruct Hp as [Hc Hk]. split; [exact Hc|]. intros r. apply IH, Hk.
Qed.

Lemma awaits_only_try_finally A (P : call -> Prop) (p : prog A) f :
  awaits_only P p -> awaits_only P f -> awaits_only P (try_finally p f).
Proof.
  intros Hp Hf. induction p as [a|e|a k IH|c k IH]; simpl in *.
  - apply awaits_only_bind; [exact Hf | intros; exact I].
  - apply awaits_only_bind; [exact Hf | intros; exact I].
  - intros v. apply IH, Hp.
  - destruct Hp as [Hc Hk]. split; [exact Hc|]. intros r. apply IH, Hk.
Qed.

Lemma awaits_only_timed_out A (P : call -> Prop) (p : prog A) :
  awaits_only P p -> awaits_only P (timed_out p).
Proof.
  intros Hp. induction p as [a|e|a k IH|c k IH]; simpl in *.
  - exact I.
  - destruct e; exact I.
  - intros v. apply IH, Hp.
  - destruct Hp as [Hc Hk]. split; [exact Hc|]. intros r. apply IH, Hk.
Qed.

Lemma awaits_only_wait_for A (P : call -> Prop) timer (p : prog A) :
  awaits_only P p -> awaits_only P (wait_for timer p).
Proof.
  destruct timer as [n|]; [|destruct p; intros H; exact H].
  revert n. induction p as [a|e|a k IH|c k IH]; intros n Hp; simpl in *.
  - exact I.
  - exact I.
  - intros v. apply IH, Hp.
  - destruct Hp as [Hc Hk]. destruct n as [|n]; simpl.
    + intros _. apply awaits_only_timed_out, Hk.
    + split; [exact Hc|]. intros r. apply IH, Hk.
Qed.

Lemma awaits_only_do (P : call -> Prop) (a : action) : awaits_only P (do a).
Proof. simpl. intros; exact I. Qed.

Lemma awaits_only_await (P : call -> Prop) (c : call) : P c -> awaits_only P (await c).
Proof. intros H. simpl. split; [exact H | intros [e|v]; exact I]. Qed.

Lemma awaits_only_run A (P : call -> Prop) w (p : prog A) :
  awaits_only P p ->
  forall s o s' evs, run w p s = (o, s', evs) ->
    forall c r, In (Called c r) evs -> P c.
Proof.
  induction p as [a|e|a k IH|c0 k IH]; simpl; intros Hp s o s' evs Hrun c r Hin.
  - inversion Hrun; subst. destruct Hin.
  - inversion Hrun; subst. destruct Hin.
  - destruct (perform w a s) as [v s1].
    destruct (run w (k v) s1) as [[o1 s2] ev1] eqn:Er.
    inversion Hrun; subst. destruct Hin as [Hin|Hin]; [discriminate|].
    apply (IH v (Hp v) _ _ _ _ Er c r Hin).
  - destruct Hp as [Hc Hk].
    destruct (answer w c0 s) as [r0|].
    + destruct (run w (k r0) _) as [[o1 s2] ev1] eqn:Er.
      inversion Hrun; subst. destruct Hin as [Hin|Hin].
      * inversion Hin; subst. exact Hc.
      * apply (IH r0 (Hk r0) _ _ _ _ Er c r Hin).
    + inversion Hrun; subst. destruct Hin.
Qed.

End ImageRouteFacts.

Ltac await_step :=
  match goal with
  | |- Readings.awaits_only _ (Effects.bind _ _) => apply awaits_only_bind; [|intros]
  | |- Readings.awaits_only _ (Effects.try_finally _ _) => apply awaits_only_try_finally
  | |- Readings.awaits_only _ (Effects.try_except _ _) =>
      apply awaits_only_try_catch; [|intros]
  | |- Readings.awaits_only _ (Effects.try_catch _ _ _) =>
      apply awaits_only_try_catch; [|intros]
  | |- Readings.awaits_only _ (Effects.wait_for _ _) => apply awaits_only_wait_for
  | |- Readings.awaits_only _ (Effects.do _) => apply awaits_only_do
  | |- Readings.awaits_only _ (Effects.await _) => apply awaits_only_await; exact I
  | |- Readings.awaits_only _ (Effects.Ret _) => exact I
  | |- Readings.awaits_only _ (Effects.Raise _) => exact I
  | |- Readings.awaits_only _ (match ?x with _ => _ end) => destruct x
  end.

Ltac await_all := repeat first [await_step | progress unfold_coroutines].

Section RequestFacts.
Import Effects Readings Requests ImageRoutes.

Lemma awaits_only_acquire_context (P : call -> Prop) :
  (forall c, match c with
             | screenshot _ _ | evaluate _ _ => True
             | _ => P c
             end) ->
  awaits_only P Pool.acquire_context.
Proof.
  intros HP. unfold Pool.acquire_context. rewrite attempts_unfold.
  repeat first
    [ await_step
    | progress unfold_coroutines
    | match goal with
      | |- awaits_only _ (await ?c) => apply awaits_only_await; exact (HP c)
      end ].
Qed.

Lemma awaits_only_release_context (P : call -> Prop) ctx :
  (forall c, match c with
             | screenshot _ _ | evaluate _ _ => True
             | _ => P c
             end) ->
  awaits_only P (Pool.release_context ctx).
Proof.
  intros HP.
  repeat first
    [ await_step
    | progress unfold_coroutines
    | match goal with
      | |- awaits_only _ (await ?c) => apply awaits_only_await; exact (HP c)
      end ].
Qed.

(** X13. The options of [page.screenshot] follow the request.  In any run
    of the screenshot route, every call of [page.screenshot] is made for
    the full page or not as the request says, with the format of the
    request and the capture timeout of the settings; it is given the
    quality of the request when the format is [jpeg] or [webp] and no
    quality otherwise.  For a request the validators accept, no quality
    means the format is [png], and a quality given lies between 1 and
    100. *)
Theorem screenshot_options_follow_request :
  forall w cfg verdict ct ot body s o s' evs,
    run w (Routes.screenshot cfg verdict ct ot body) s = (o, s', evs) ->
    forall p opts r,
      In (Called (screenshot p opts) r) evs ->
      full_page opts = Routes.fullPage body
      /\ type_ opts = Routes.format body
      /\ Effects.timeout opts = screenshot_capture_timeout cfg
      /\ quality opts
         = (if String.eqb (Routes.format body) "jpeg"
               || String.eqb (Routes.format body) "webp"
            then Some (Routes.quality body) else None)
      /\ (accepted body = true ->
          match quality opts with
          | None => Routes.format body = "png"
          | Some q => 1 <= q <= 100 /\ Routes.format body <> "png"
          end).
Proof.
  intros w cfg verdict ct ot body s o s' evs Hrun p opts r Hin.
  set (P := fun c : call =>
              match c with
              | screenshot _ opts0 =>
                  full_page opts0 = Routes.fullPage body
                  /\ type_ opts0 = Routes.format body
                  /\ Effects.timeout opts0 = screenshot_capture_timeout cfg
                  /\ quality opts0
                     = (if String.eqb (Routes.format body) "jpeg"
                           || String.eqb (Routes.format body) "webp"
                        then Some (Routes.quality body) else None)
              | _ => True
              end).
  assert (Hall : awaits_only P (Routes.screenshot cfg verdict ct ot body)).
  { unfold Routes.screenshot. destruct verdict as [valid reason].
    apply awaits_only_bind; [apply awaits_only_do|]. intros start.
    destruct valid; simpl negb; cbv iota; [|exact I].
    unfold Capture.capture_screenshot, Capture._do_capture,
      Capture.take_screenshot.
    repeat first
      [ apply awaits_only_acquire_context; intros []; exact I
      | apply awaits_only_release_context; intros []; exact I
      | await_step
      | progress unfold_coroutines
      | match goal with
        | |- awaits_only _ (await (screenshot _ _)) =>
            apply awaits_only_await; simpl; auto
        end ]. }
  pose proof (@awaits_only_run _ P w _ Hall _ _ _ _ Hrun _ _ Hin) as (Hfp & Hty & Hto & Hq).
  repeat (split; [assumption|]).
  intros Hacc. rewrite Hq. unfold accepted in Hacc.
  apply andb_true_iff in Hacc. destruct Hacc as [Hacc _].
  apply andb_true_iff in Hacc. destruct Hacc as [Hfmt Hqual].
  unfold validate_format in Hfmt. unfold validate_quality in Hqual.
  destruct (String.eqb_spec (Routes.format body) "png") as [Hpng|Hpng].
  - rewrite Hpng. reflexivity.
  - destruct (String.eqb_spec (Routes.format body) "jpeg") as [Hj|Hj];
      destruct (String.eqb_spec (Routes.format body) "webp") as [Hw|Hw];
      simpl in *; try discriminate;
      (destruct (Z.ltb_spec (Routes.quality body) 1);
       destruct (Z.ltb_spec 100 (Routes.quality body));
       simpl in Hqual; try discriminate; split; [lia | assumption]).
Qed.

Lemma screenshot_options_follow_request_witness :
  let opts := {| full_page := true; type_ := "png"; Effects.timeout := 60000;
                 quality := None |} in
  In (Called (screenshot 1%nat opts) None)
     (snd (run Worlds.calm
             (Routes.screenshot default_settings (true, None) None None
                Worlds.request) Worlds.started))
  /\ accepted Worlds.request = true
  /\ Routes.format Worlds.request = "png".
Proof.
  intros opts.
  destruct (run Worlds.calm
              (Routes.screenshot default_settings (true, None) None None
                 Worlds.request) Worlds.started) as [[o s'] evs] eqn:E.
  assert (Hin : In (Called (screenshot 1%nat opts) None) evs).
  { vm_compute in E. inversion E; subst. clear E.
    simpl. repeat (first [left; reflexivity | right]). }
  split; [exact Hin|]. split; [reflexivity|].
  destruct (screenshot_options_follow_request _ _ _ _ _ _ _ E _ _ _ Hin)
    as (_ & _ & _ & _ & Hacc).
  exact (Hacc eq_refl).
Defined.

End RequestFacts.

(* ================================================================== *)
(** * The image route *)

Section ImageRouteAnswers.
Import Effects Readings Requests ImageRoutes.

Lemma image_route_unfold w cfg reason timer body s :
  run w (extract_images_endpoint cfg (true, reason) timer body) s
  = let '(o1, s1, ev1) :=
      run w (result <- Extract.extract_images cfg timer (url body)
                         match options body with
                         | Some o => Some (minWidth o) | None => None end
                         match options body with
                         | Some o => Some (minHeight o) | None => None end
                         match options body with
                         | Some o => maxImages o | None => 100 end
                         false ;;
             Ret (Json {| ok_url := url body;
                          totalImages := Images.totalImages (Images.metadata result);
                          images := Images.result_images result;
                          metadata := Images.metadata result |})) s in
    match o1 with
    | Raised e =>
        if is_Exception e then
          if is_TimeoutError e then
            (Returned (JSONResponse timeout_response), s1, ev1)
          else
            (Returned (JSONResponse (error_response e)), next s1,
             ev1 ++ [Did (log ERROR "Image extraction error for %s")])
        else (Raised e, s1, ev1)
    | _ => (o1, s1, ev1)
    end.
Proof.
  unfold extract_images_endpoint. simpl negb. cbv iota.
  unfold try_except. rewrite run_try_catch.
  match goal with |- context [run w ?p s] =>
    destruct (run w p s) as [[o1 s1] ev1] end.
  destruct o1 as [r|e|]; try reflexivity.
  destruct e; simpl; rewrite ?app_nil_r; reflexivity.
Qed.

Lemma avoids_In A ba bc w (p : prog A) s o s' evs :
  avoids ba bc p -> run w p s = (o, s', evs) ->
  forall c r, In (Called c r) evs -> bc c = false.
Proof.
  intros Hp Hrun c r Hin.
  pose proof (avoids_run ba bc w p Hp _ Hrun) as Hall.
  rewrite forallb_forall in Hall. specialize (Hall _ Hin).
  simpl in Hall. now apply negb_true_iff in Hall.
Qed.

(** X14. The image route.  No exception other than a cancellation leaves
    it.  A success carries the URL of the request and a [totalImages] that
    is the number of images in the answer and at most [maxImages] of the
    options, 100 without options, hence at most 500 for options within
    their bounds.  Every other answer has [success] false and is the
    rejection of the URL (400), the timeout answer (504, retryable) or
    the answer for an exception that is not a timeout (500, not
    retryable).  The in-page query is never asked for background
    images. *)
Theorem image_route_answers :
  forall w cfg verdict timer body s o s' evs,
    run w (extract_images_endpoint cfg verdict timer body) s = (o, s', evs) ->
    (forall e, o = Raised e -> e = CancelledError)
    /\ (forall b, o = Returned (Json b) ->
          fst verdict = true
          /\ ok_url b = url body
          /\ totalImages b = Z.of_nat (List.length (images b))
          /\ totalImages b = Images.totalImages (metadata b)
          /\ match options body with
             | None => totalImages b <= 100
             | Some opts =>
                 (0 <= maxImages opts -> totalImages b <= maxImages opts)
                 /\ (options_accepted opts = true -> totalImages b <= 500)
             end)
    /\ (forall f, o = Returned (JSONResponse f) ->
          success f = false
          /\ ((fst verdict = false /\ f = invalid_url_response (snd verdict))
              \/ f = timeout_response
              \/ exists e, f = error_response e /\ is_TimeoutError e = false
                           /\ is_Exception e = true))
    /\ (forall c r, In (Called c r) evs -> asks_backgrounds c = false).
Proof.
  intros w cfg [valid reason] timer body s o s' evs Hrun.
  assert (Hbg : forall c r, In (Called c r) evs -> asks_backgrounds c = false).
  { intros c r Hin.
    refine (@avoids_In _ (fun _ => false) asks_backgrounds w
              (extract_images_endpoint cfg (valid, reason) timer body)
              s o s' evs _ Hrun c r Hin).
    unfold extract_images_endpoint. destruct valid; simpl negb; cbv iota; [|exact I].
    unfold Extract.extract_images, Extract._do_extract.
    repeat first
      [ avoid_step
      | rewrite attempts_unfold
      | progress unfold_coroutines ]. }
  destruct valid.
  - rewrite image_route_unfold in Hrun.
    match type of Hrun with context [run w ?p s] =>
      destruct (run w p s) as [[o1 s1] ev1] eqn:E1 end.
    destruct o1 as [r|e|].
    + inversion Hrun; subst. clear Hrun.
      apply returned_bind in E1.
      destruct E1 as (res & sa & eva & evb & Eres & Eret & _).
      inversion Eret; subst. clear Eret.
      pose proof (extract_images_returns _ _ _ _ _ _ _ _ _ Eres) as Hres.
      cbv zeta in Hres. destruct Hres as (_ & Htot & Hmax & _).
      split; [intros; discriminate|]. split; [|split; [intros; discriminate|exact Hbg]].
      intros b Hb. inversion Hb; subst. clear Hb. simpl.
      split; [reflexivity|]. split; [reflexivity|]. split; [exact Htot|].
      split; [reflexivity|].
      destruct (options body) as [opts|].
      * split; [exact Hmax|].
        unfold options_accepted. rewrite !andb_true_iff, !Z.leb_le.
        intros (_ & H1 & H500). assert (0 <= maxImages opts) as H0 by lia.
        specialize (Hmax H0). lia.
      * apply Hmax. lia.
    + destruct e; simpl in Hrun; inversion Hrun; subst;
        (split; [intros e' He'; inversion He'; reflexivity || discriminate|]);
        (split; [intros; discriminate|]);
        (split; [|exact Hbg]); intros f Hf; inversion Hf; subst;
        (split; [reflexivity|]).
      * right. left. reflexivity.
      * right. right. exists (Error msg). auto.
    + inversion Hrun; subst.
      split; [intros; discriminate|]. split; [intros; discriminate|].
      split; [intros; discriminate|exact Hbg].
  - unfold extract_images_endpoint in Hrun. simpl in Hrun.
    inversion Hrun; subst.
    split; [intros; discriminate|]. split; [intros; discriminate|].
    split; [|exact Hbg].
    intros f Hf. inversion Hf; subst. split; [reflexivity|]. left. auto.
Qed.

Lemma image_route_answers_witness :
  exists b s' evs,
    run Worlds.calm
      (extract_images_endpoint default_settings (true, None) None
         MoreWorlds.bounded_request) Worlds.started
      = (Returned (Json b), s', evs)
    /\ totalImages b <= 500.
Proof.
  destruct (run Worlds.calm
              (extract_images_endpoint default_settings (true, None) None
                 MoreWorlds.bounded_request) Worlds.started)
    as [[o s'] evs] eqn:E.
  assert (exists b, o = Returned (Json b)) as [b ->].
  { vm_compute in E. inversion E. eexists. reflexivity. }
  exists b, s', evs. split; [reflexivity|].
  destruct (image_route_answers _ _ _ _ _ _ E) as (_ & Hok & _).
  destruct (Hok b eq_refl) as (_ & _ & _ & _ & _ & H500).
  apply H500. reflexivity.
Defined.

End ImageRouteAnswers.

(* ================================================================== *)
(** * A cancellation while the context is acquired *)

Section CancelFacts.
Import Effects Pool Readings.

Lemma acquire_context_cancelled w s e s' evs :
  run w acquire_context s = (Raised e, s', evs) ->
  is_Exception e = false ->
  acquisitions evs = 1%nat /\ releases evs = 0%nat /\ creations evs = 0%nat
  /\ _semaphore s' = _semaphore s - 1.
Proof.
  unfold acquire_context, try_except.
  remember (attempts [0%nat; 1%nat]) as loop eqn:Hloop.
  rewrite run_bind. simpl.
  destruct (0 <? _semaphore s) eqn:Hsem; simpl; [|discriminate].
  rewrite run_try_catch.
  destruct (run w loop _) as [[o1 s1] ev1] eqn:E1. subst loop.
  destruct (attempts_run _ _ E1) as (Hs & Hr & Ha & _ & _ & Hzero & _).
  simpl in Hs.
  destruct o1 as [c|e0|]; [discriminate| |discriminate].
  destruct (is_Exception e0) eqn:Ee0.
  - simpl. intros H He. inversion H; subst. congruence.
  - intros H _. inversion H; subst. clear H.
    assert (creations ev1 = 0%nat) as Hc by (apply Hzero; congruence).
    change (Called (acquire Semaphore) None :: ev1)
      with ([Called (acquire Semaphore) None] ++ ev1).
    rewrite acquisitions_app, releases_app, creations_app, Hr, Ha, Hc.
    repeat split; try reflexivity. lia.
Qed.

Lemma lease_cancelled A w (work : option context -> prog A) s e s' evs :
  run w (Concurrent.lease work) s = (Raised e, s', evs) ->
  is_Exception e = false ->
  creations evs = 0%nat ->
  releases evs = 0%nat /\ _semaphore s' = _semaphore s - 1.
Proof.
  unfold Concurrent.lease. intros Hrun He Hcr.
  apply raised_bind in Hrun.
  destruct Hrun as [Hrun | (c & s1 & ev1 & ev2 & Hacq & _ & ->)].
  - destruct (acquire_context_cancelled _ _ Hrun He) as (_ & Hr & _ & Hs). auto.
  - destruct (acquire_context_accounts _ _ Hacq) as (Hret & _).
    destruct (Hret c eq_refl) as (_ & _ & _ & Hc1 & _).
    rewrite creations_app, Hc1 in Hcr. discriminate.
Qed.

(** X15. A cancellation that reaches [acquire_context] after the slot is
    taken, while the browser is checked or launched or the context is
    created, is not an [Exception]: the handler that gives the slot back
    does not run.  [acquire_context] ends with one acquisition, no release
    and the semaphore one below its value; so do [_do_capture] and
    [_do_extract], which call it before their [try], whenever they are
    cancelled before a context exists. *)
Theorem cancelled_acquisition_keeps_slot :
  forall w s,
    (forall e s' evs,
        run w acquire_context s = (Raised e, s', evs) ->
        is_Exception e = false ->
        acquisitions evs = 1%nat /\ releases evs = 0%nat
        /\ creations evs = 0%nat /\ _semaphore s' = _semaphore s - 1)
    /\ (forall cfg timer target full_page fmt quality delay e s' evs,
          run w (Capture._do_capture cfg timer target full_page fmt quality delay) s
            = (Raised e, s', evs) ->
          is_Exception e = false -> creations evs = 0%nat ->
          releases evs = 0%nat /\ _semaphore s' = _semaphore s - 1)
    /\ (forall cfg target mw mh mx bg e s' evs,
          run w (Extract._do_extract cfg target mw mh mx bg) s
            = (Raised e, s', evs) ->
          is_Exception e = false -> creations evs = 0%nat ->
          releases evs = 0%nat /\ _semaphore s' = _semaphore s - 1).
Proof.
  intros w s. split; [|split].
  - intros e s' evs. apply acquire_context_cancelled.
  - intros cfg timer target full_page fmt quality delay e s' evs.
    rewrite do_capture_is_lease. apply lease_cancelled.
  - intros cfg target mw mh mx bg e s' evs.
    rewrite do_extract_is_lease. apply lease_cancelled.
Qed.

Lemma cancelled_acquisition_keeps_slot_witness :
  let '(o, s', evs) :=
    run MoreWorlds.interrupted
      (Capture._do_capture default_settings None "https://example.com/" true "png" 90 0)
      Worlds.started in
  o = Raised CancelledError /\ releases evs = 0%nat /\ _semaphore s' = 2.
Proof.
  destruct (run MoreWorlds.interrupted
              (Capture._do_capture default_settings None "https://example.com/"
                 true "png" 90 0) Worlds.started) as [[o s'] evs] eqn:E.
  assert (o = Raised CancelledError) as ->
    by (vm_compute in E; inversion E; reflexivity).
  assert (creations evs = 0%nat) as Hc
    by (vm_compute in E; inversion E; reflexivity).
  split; [reflexivity|].
  destruct (cancelled_acquisition_keeps_slot MoreWorlds.interrupted Worlds.started)
    as (_ & Hcap & _).
  apply (Hcap _ _ _ _ _ _ _ _ _ _ E eq_refl Hc).
Defined.

End CancelFacts.

(* ================================================================== *)
(** * Several requests at once: the capacity of the pool *)

Section CapacityFacts.
Import Effects Concurrent Traffic.

Lemma follows_quiet A st (p : prog A) : quiet p -> follows st p (@anyhow A).
Proof.
  intros Hq. eapply follows_weaken; [|apply quiet_follows, Hq].
  intros; exact I.
Qed.

Lemma follows_then_quiet A B st (p : prog A) (f : A -> prog B) :
  follows st p (@anyhow A) -> (forall a, quiet (f a)) ->
  follows st (bind p f) (@anyhow B).
Proof.
  intros Hp Hf. eapply follows_bind; [exact Hp| |].
  - intros st' a _. apply follows_quiet, Hf.
  - intros; exact I.
Qed.

Lemma follows_after_quiet A B st (p : prog A) (f : A -> prog B) :
  quiet p -> (forall a, follows st (f a) (@anyhow B)) ->
  follows st (bind p f) (@anyhow B).
Proof.
  intros Hp Hf. eapply follows_bind; [apply quiet_follows, Hp| |].
  - intros st' a ->. apply Hf.
  - intros; exact I.
Qed.

Lemma follows_guarded A st (catches : exn -> bool) (p : prog A) h :
  follows st p (@anyhow A) -> (forall e, quiet (h e)) ->
  follows st (try_catch catches p h) (@anyhow A).
Proof.
  intros Hp Hh. eapply follows_try_catch; [exact Hp| |].
  - intros; exact I.
  - intros st' e _. destruct (catches e); [apply follows_quiet, Hh | exact I].
Qed.

Lemma do_capture_follows cfg timer target full_page fmt quality delay :
  follows Idle (Capture._do_capture cfg timer target full_page fmt quality delay)
    (@anyhow bytes).
Proof.
  rewrite do_capture_is_lease. apply lease_follows.
  intros c. unfold quiet, Capture.take_screenshot. avoid_all.
Qed.

Lemma do_extract_follows cfg target mw mh mx bg :
  follows Idle (Extract._do_extract cfg target mw mh mx bg)
    (@anyhow Images.DoExtractResult).
Proof.
  rewrite do_extract_is_lease. apply lease_follows.
  intros c. unfold quiet. avoid_all.
Qed.

Lemma handler_follows r : follows Idle (handler r) (@anyhow unit).
Proof.
  destruct r as [cfg [valid reason] ct body | cfg [valid reason] body]; unfold handler.
  - apply follows_then_quiet; [|intros; exact I].
    unfold Routes.screenshot.
    apply follows_after_quiet; [unfold quiet; avoid_all|]. intros start.
    destruct valid; simpl negb; cbv iota; [|exact I].
    apply follows_guarded.
    + apply follows_then_quiet; [|intros; unfold quiet; avoid_all].
      unfold Capture.capture_screenshot.
      apply follows_after_quiet; [unfold quiet; avoid_all|]. intros start'.
      apply follows_guarded; [|intros; unfold quiet; avoid_all].
      apply follows_then_quiet; [|intros; unfold quiet; avoid_all].
      rewrite wait_for_none. apply do_capture_follows.
    + intros e. unfold quiet. destruct (is_TimeoutError e); avoid_all.
  - apply follows_then_quiet; [|intros; exact I].
    unfold ImageRoutes.extract_images_endpoint.
    destruct valid; simpl negb; cbv iota; [|exact I].
    apply follows_guarded.
    + apply follows_then_quiet; [|intros; exact I].
      unfold Extract.extract_images.
      apply follows_after_quiet; [unfold quiet; avoid_all|]. intros start.
      apply follows_then_quiet; [|intros; unfold quiet; avoid_all].
      apply follows_guarded; [|intros; unfold quiet; avoid_all].
      rewrite wait_for_none. apply do_extract_follows.
    + intros e. unfold quiet. destruct (is_TimeoutError e); avoid_all.
Qed.

Lemma holds_bounds R st (t : task R) :
  holds st t ->
  0 <= slots t /\ Z.of_nat (List.length (leases t)) <= slots t.
Proof.
  destruct st; simpl; intros [-> ->]; simpl; lia.
Qed.

Lemma remove_one_self c : remove_one c [c] = [].
Proof. simpl. now rewrite Nat.eqb_refl. Qed.

(** One operation of a disciplined coroutine: it stays disciplined, and
    what it takes from the semaphore it holds. *)
Lemma task_step_keeps R sh (t : task R) l sh' t' :
  task_step sh t l sh' t' ->
  disciplined t ->
  disciplined t'
  /\ permits sh' + slots t' = permits sh + slots t
  /\ (0 <= permits sh -> 0 <= permits sh').
Proof.
  intros Hstep (st & Hh & Hf).
  destruct Hstep as [a k v sh' Hcode Hacts | c k r sh' Hcode Hans];
    rewrite Hcode in Hf; simpl in Hf; destruct Hf as [Hallowed Hk].
  - assert (Hsame : forall sh0, permits sh0 = permits sh ->
              label_of_action a = silent \/ label_of_action a = freed Lock ->
              sh0 = sh' ->
              disciplined (holds_after (label_of_action a) t (k v))
              /\ permits sh' + slots (holds_after (label_of_action a) t (k v))
                 = permits sh + slots t
              /\ (0 <= permits sh -> 0 <= permits sh')).
    { intros sh0 Hp Hl <-. rewrite Hp.
      assert (after_do st a = st) as Hst
        by (destruct a as [[|]| | | | | |]; destruct Hl; try discriminate; reflexivity).
      specialize (Hk v). rewrite Hst in Hk.
      destruct Hl as [-> | ->]; simpl;
        (split; [exists st; split; [exact Hh | exact Hk] | split; lia]). }
    destruct a as [[|]| | | | | |]; simpl in Hacts, Hallowed.
    + subst st sh'. destruct Hh as [Hs Hl]. simpl in *. split.
      * exists Idle. split; [simpl; split; [lia | exact Hl] | apply (Hk v)].
      * split; lia.
    + apply (Hsame (set_locked false sh)); auto.
    + destruct Hacts as [_ ->]. apply (Hsame sh); auto.
    + apply (Hsame (set_the_browser b sh)); auto.
    + apply (Hsame sh); auto.
    + apply (Hsame sh); auto.
    + apply (Hsame sh); auto.
    + apply (Hsame sh); auto.
  - destruct c as [[|]| | | | | | | | | | |]; simpl in Hans, Hallowed |- *.
    + destruct r as [e|u]; destruct Hans as [Hp ->]; simpl.
      * split; [exists st; split; [exact Hh | apply (Hk (inl e))] | split; lia].
      * subst st. destruct Hh as [Hs Hl]. simpl in *. split.
        -- exists Slot. split; [simpl; split; [lia | exact Hl] | apply (Hk (inr u))].
        -- split; lia.
    + destruct r as [e|u]; destruct Hans as [Hp ->]; simpl;
        (split; [exists st; split; [exact Hh | first [apply (Hk (inl e)) | apply (Hk (inr u))]]
                | split; lia]).
    + subst sh'. split; [exists st; split; [exact Hh | apply (Hk r)] | split; lia].
    + subst sh'. split; [exists st; split; [exact Hh | apply (Hk r)] | split; lia].
    + subst sh' st. destruct Hh as [Hs Hl]. destruct r as [e|c']; simpl.
      * split; [exists Slot; split; [split; assumption | apply (Hk (inl e))] | split; lia].
      * split; [|split; lia].
        exists (Lease c'). split; [simpl; split; [exact Hs | now rewrite Hl]|].
        apply (Hk (inr c')).
    + subst sh' st. destruct Hh as [Hs Hl]. simpl. split; [|split; lia].
      exists Slot. split; [|apply (Hk r)].
      simpl. split; [exact Hs|]. rewrite Hl. apply remove_one_self.
    + subst sh'. split; [exists st; split; [exact Hh | apply (Hk r)] | split; lia].
    + subst sh'. split; [exists st; split; [exact Hh | apply (Hk r)] | split; lia].
    + subst sh'. split; [exists st; split; [exact Hh | apply (Hk r)] | split; lia].
    + subst sh'. split; [exists st; split; [exact Hh | apply (Hk r)] | split; lia].
    + subst sh'. split; [exists st; split; [exact Hh | apply (Hk r)] | split; lia].
    + subst sh'. split; [exists st; split; [exact Hh | apply (Hk r)] | split; lia].
    + subst sh'. split; [exists st; split; [exact Hh | apply (Hk r)] | split; lia].
Qed.

Lemma total_slots_app R (a b : list (task R)) :
  total_slots (a ++ b) = total_slots a + total_slots b.
Proof. induction a as [|t a IH]; simpl; [reflexivity | rewrite IH; lia]. Qed.

Lemma step_keeps_invariant R N (cfg cfg' : config R) l :
  step cfg l cfg' -> invariant N cfg -> invariant N cfg'.
Proof.
  intros Hstep. destruct Hstep as [sh sh' before t t' later l Hstep].
  unfold invariant. simpl. intros (Hpos & Hsum & Hall).
  apply Forall_app in Hall. destruct Hall as [Hb Hl].
  inversion Hl as [|t0 later0 Ht Hlater]; subst t0 later0.
  destruct (task_step_keeps Hstep Ht) as (Ht' & Hacc & Hpos').
  rewrite total_slots_app in Hsum |- *. simpl in Hsum |- *.
  split; [apply Hpos', Hpos|]. split; [lia|].
  apply Forall_app. split; [exact Hb|]. constructor; assumption.
Qed.

Lemma steps_keep_invariant R N (cfg cfg' : config R) ls :
  steps cfg ls cfg' -> invariant N cfg -> invariant N cfg'.
Proof.
  induction 1 as [cfg|cfg l cfg1 ls cfg2 Hstep _ IH]; intros Hinv.
  - exact Hinv.
  - apply IH. eapply step_keeps_invariant; eassumption.
Qed.

Lemma total_slots_fresh R (ps : list (prog R)) : total_slots (map (@fresh R) ps) = 0.
Proof. induction ps as [|p ps IH]; simpl; [reflexivity | rewrite IH; reflexivity]. Qed.

Lemma initial_invariant R N b (ps : list (prog R)) :
  0 <= N ->
  Forall (fun p => follows Idle p (@anyhow R)) ps ->
  invariant N (initial N b ps).
Proof.
  intros HN Hps. unfold invariant, initial. simpl.
  split; [exact HN|]. split; [rewrite total_slots_fresh; lia|].
  apply Forall_map. eapply Forall_impl; [|exact Hps].
  intros p Hp. exists Idle. split; [simpl; auto | exact Hp].
Qed.

Lemma open_contexts_bound R N (cfg : config R) :
  invariant N cfg ->
  Z.of_nat (List.length (open_contexts cfg)) <= total_slots (tasks cfg).
Proof.
  intros (_ & _ & Hall). unfold open_contexts.
  induction Hall as [|t ts Ht _ IH]; simpl; [lia|].
  rewrite length_app, Nat2Z.inj_add.
  destruct Ht as (st & Hh & _). destruct (@holds_bounds _ _ _ Hh). lia.
Qed.

Lemma granted_needs_permit R (cfg cfg' : config R) :
  step cfg (granted Semaphore) cfg' -> 0 < permits (pool cfg).
Proof.
  intros Hstep. inversion Hstep as [sh sh' before t t' later l Htask]; subst.
  simpl. inversion Htask as [a k v sh0 Hcode Hacts Hl | c k r sh0 Hcode Hans Hl]; subst.
  - destruct a as [[|]| | | | | |]; discriminate.
  - destruct c as [[|]| | | | | | | | | | |]; simpl in *;
      try destruct r; try discriminate.
    destruct Hans as [Hp _]. exact Hp.
Qed.

(** X16. The capacity of the pool under interleaving.  Start any number of
    requests of the two routes on a pool of [N] permits and let the event
    loop run their operations in any order, the browser answering
    anything, cancellations included.  At every moment the contexts that
    are open number at most [N], the permits left are not negative, and
    when [N] contexts are open no further acquisition of the semaphore is
    granted. *)
Theorem pool_capacity_under_interleaving :
  forall (N : Z) (b : option browser) (requests : list request) ls cfg,
    0 <= N ->
    steps (initial N b (map handler requests)) ls cfg ->
    Z.of_nat (List.length (open_contexts cfg)) <= N
    /\ 0 <= permits (pool cfg)
    /\ (Z.of_nat (List.length (open_contexts cfg)) = N ->
        forall cfg', ~ step cfg (granted Semaphore) cfg').
Proof.
  intros N b requests ls cfg HN Hsteps.
  assert (Hinv : invariant N cfg).
  { eapply steps_keep_invariant; [exact Hsteps|].
    apply initial_invariant; [exact HN|].
    apply Forall_map. apply Forall_forall. intros r _. apply handler_follows. }
  pose proof (open_contexts_bound Hinv) as Hopen.
  destruct Hinv as (Hpos & Hsum & Hall).
  split; [lia|]. split; [exact Hpos|].
  intros Hfull cfg' Hstep. apply granted_needs_permit in Hstep. lia.
Qed.

Lemma step_first R sh sh' (t t' : task R) later l :
  task_step sh t l sh' t' ->
  step {| pool := sh; tasks := t :: later |} l {| pool := sh'; tasks := t' :: later |}.
Proof. intros H. apply (@step_task R sh sh' [] t t' later l H). Qed.

(** Two requests on a pool of one permit: the first takes the permit. *)
Lemma two_requests_start :
  exists cfg,
    steps (initial 1 (Some 1%nat)
             (map handler
                [to_screenshot default_settings (true, None) None Worlds.request;
                 to_extract_images default_settings (true, None)
                   MoreWorlds.bare_request]))
          [silent; silent; granted Semaphore] cfg.
Proof.
  eexists. unfold initial. cbn [map].
  eapply steps_cons.
  { apply step_first.
    eapply (@step_do unit _ _ time_time _ 0); [reflexivity | reflexivity]. }
  eapply steps_cons.
  { apply step_first.
    eapply (@step_do unit _ _ time_time _ 0); [reflexivity | reflexivity]. }
  eapply steps_cons; [|apply steps_nil].
  apply step_first.
  eapply (@step_await unit _ _ (acquire Semaphore) _ (inr tt));
    [reflexivity | simpl; split; [lia | reflexivity]].
Qed.

Lemma pool_capacity_under_interleaving_witness :
  exists cfg,
    steps (initial 1 (Some 1%nat)
             (map handler
                [to_screenshot default_settings (true, None) None Worlds.request;
                 to_extract_images default_settings (true, None)
                   MoreWorlds.bare_request]))
          [silent; silent; granted Semaphore] cfg
    /\ Z.of_nat (List.length (open_contexts cfg)) <= 1
    /\ 0 <= permits (pool cfg).
Proof.
  destruct two_requests_start as [cfg Hs]. exists cfg.
  split; [exact Hs|].
  destruct (@pool_capacity_under_interleaving 1 (Some 1%nat) _ _ _
              ltac:(lia) Hs) as (Hopen & Hpos & _).
  split; assumption.
Defined.

End CapacityFacts.

(* ================================================================== *)
(** * The readiness probe on any page *)

Section ProbeTotal.
Import Effects Probe.

Lemma scan_some d t sels r :
  scan d t sels = Some r ->
  ready r = true
  /\ exists el, In (source r) sels
       /\ querySelector d t (source r) = Some el
       /\ rendered d t el = true
       /\ textLen r = text_length d (wake d t 1000) el
       /\ imgCount r = img_src_count d (wake d t 1000) (Some el).
Proof.
  induction sels as [|sel rest IH]; simpl; [discriminate|].
  destruct (querySelector d t sel) as [el|] eqn:Eq.
  - destruct (rendered d t el) eqn:Er.
    + intros H. inversion H; subst. simpl. split; [reflexivity|].
      exists el. auto.
    + intros H. destruct (IH H) as (Hr & el' & Hin & Hrest). split; [exact Hr|].
      exists el'. split; [right; exact Hin | exact Hrest].
  - intros H. destruct (IH H) as (Hr & el' & Hin & Hrest). split; [exact Hr|].
    exists el'. split; [right; exact Hin | exact Hrest].
Qed.

Lemma scan_none_inv d t sels :
  scan d t sels = None ->
  forall sel el, In sel sels ->
    querySelector d t sel = Some el -> rendered d t el = false.
Proof.
  induction sels as [|s0 rest IH]; simpl; [intros _ sel el []|].
  destruct (querySelector d t s0) as [el0|] eqn:Eq.
  - destruct (rendered d t el0) eqn:Er; [discriminate|].
    intros H sel el [<-|Hin] Hsel; [congruence | apply (IH H sel el Hin Hsel)].
  - intros H sel el [<-|Hin] Hsel; [congruence | apply (IH H sel el Hin Hsel)].
Qed.

Lemma body_check_some d t r :
  body_check d t = Some r ->
  r = {| ready := true; textLen := body_text_length d t;
         imgCount := img_src_count d t None; source := "body" |}
  /\ (200 < body_text_length d t \/ 3 < img_src_count d t None).
Proof.
  unfold body_check.
  destruct (Z.ltb_spec 200 (body_text_length d t)) as [Ht|Ht]; simpl.
  - intros H. inversion H. split; [reflexivity | left; exact Ht].
  - destruct (Z.ltb_spec 3 (img_src_count d t None)) as [Hi|Hi].
    + intros H. inversion H. split; [reflexivity | right; exact Hi].
    + discriminate.
Qed.

(** The loop, from any of its tests on: with enough fuel for the time
    that is left it ends, and how. *)
Lemma poll_answers d start :
  punctual d ->
  forall fuel now,
    (1 <= fuel)%nat ->
    maxWait - (now - start) <= 500 * (Z.of_nat fuel - 1) ->
    exists r t,
      now <= t
      /\ poll fuel d start now = Some r
      /\ ((t - start < maxWait /\ ready r = true
           /\ ((exists el, In (source r) SPA_SELECTORS
                  /\ querySelector d t (source r) = Some el
                  /\ rendered d t el = true
                  /\ textLen r = text_length d (wake d t 1000) el
                  /\ imgCount r = img_src_count d (wake d t 1000) (Some el))
               \/ (no_root_rendered d t
                   /\ r = {| ready := true; textLen := body_text_length d t;
                             imgCount := img_src_count d t None;
                             source := "body" |}
                   /\ (200 < body_text_length d t
                       \/ 3 < img_src_count d t None))))
          \/ (maxWait <= t - start /\ r = gave_up d t)).
Proof.
  intros Hp. induction fuel as [|fuel IH]; intros now Hfuel Hleft; [lia|].
  rewrite poll_step. destruct (Z.ltb_spec (now - start) maxWait) as [Hlt|Hge].
  - destruct (scan d now SPA_SELECTORS) as [r|] eqn:Escan.
    + destruct (scan_some _ _ _ Escan) as (Hr & el & Hrest).
      exists r, now. split; [lia|]. split; [reflexivity|].
      left. split; [exact Hlt|]. split; [exact Hr|]. left. exists el. exact Hrest.
    + pose proof (scan_none_inv _ _ _ Escan) as Hnone.
      destruct (body_check d now) as [r|] eqn:Ebody.
      * destruct (body_check_some _ _ Ebody) as (-> & Hbody).
        eexists. exists now. split; [lia|]. split; [reflexivity|].
        left. split; [exact Hlt|]. split; [reflexivity|]. right.
        split; [exact Hnone|]. split; [reflexivity | exact Hbody].
      * pose proof (Hp now 500) as Hwake.
        destruct (IH (wake d now 500)) as (r & t & Ht & Hpoll & Hcase);
          [lia | lia |].
        exists r, t. split; [lia|]. split; [exact Hpoll | exact Hcase].
  - exists (gave_up d now), now. split; [lia|]. split; [reflexivity|].
    right. split; [lia | reflexivity].
Qed.

(** X17. The probe always answers.  On any page, with timers that do not
    resolve early, the script ends within 41 tests of its loop.  Its
    answer is taken at some time [t] from its start on: before 20000 ms
    have passed it is [ready = true] with, as [source], a selector of the
    list whose element passed the test at [t] (the counts read one second
    later), or with [source = "body"] when no root container passed at
    [t] and the body did; from 20000 ms on it is the answer of the final
    statement, [ready = false] with [source = "timeout"]. *)
Theorem probe_always_answers :
  forall (d : Document) (start : Z),
    punctual d ->
    exists r t,
      start <= t
      /\ wait_for_content d start = Some r
      /\ ((t - start < 20000 /\ ready r = true
           /\ ((exists el, In (source r) SPA_SELECTORS
                  /\ querySelector d t (source r) = Some el
                  /\ rendered d t el = true
                  /\ textLen r = text_length d (wake d t 1000) el
                  /\ imgCount r = img_src_count d (wake d t 1000) (Some el))
               \/ (no_root_rendered d t
                   /\ r = {| ready := true; textLen := body_text_length d t;
                             imgCount := img_src_count d t None;
                             source := "body" |}
                   /\ (200 < body_text_length d t
                       \/ 3 < img_src_count d t None))))
          \/ (20000 <= t - start
              /\ r = {| ready := false; textLen := body_text_length d t;
                        imgCount := img_count d t; source := "timeout" |})).
Proof.
  intros d start Hp.
  destruct (@poll_answers d start Hp 41%nat start)
    as (r & t & Ht & Hpoll & Hcase); [lia | unfold maxWait; lia |].
  exists r, t. split; [exact Ht|]. split; [exact Hpoll | exact Hcase].
Qed.

Lemma probe_always_answers_witness :
  exists r t,
    0 <= t /\ wait_for_content Pages.blank_page 0 = Some r
    /\ ready r = false /\ source r = "timeout".
Proof.
  destruct (@probe_always_answers Pages.blank_page 0) as (r & t & Ht & Hr & Hcase).
  - intros t ms. simpl. lia.
  - exists r, t. split; [exact Ht|]. split; [exact Hr|].
    assert (Hval : wait_for_content Pages.blank_page 0
                   = Some (gave_up Pages.blank_page 20000)) by (vm_compute; reflexivity).
    rewrite Hval in Hr. inversion Hr. split; reflexivity.
Defined.

End ProbeTotal.

(* ================================================================== *)
(** * The scroll script *)

Section ScrollFacts.
Import Scroll.

Lemma interval_step fuel w n total :
  interval (S fuel) w n total
  = match scrollHeight w n with
    | None => interval fuel w (S n) total
    | Some height =>
        if (height - innerHeight w <=? total + distance w)
           || (maxHeight <=? total + distance w)
           || (scrollTimeout <=? now w n - startTime w)
        then Some (S n, total + distance w)
        else interval fuel w (S n) (total + distance w)
    end.
Proof. reflexivity. Qed.

(** With a body and a distance that is positive the height limit ends the
    loop. *)
Lemma interval_height w :
  has_body w ->
  0 < distance w ->
  forall fuel n total,
    total = Z.of_nat n * distance w ->
    total < maxHeight ->
    maxHeight - total <= Z.of_nat fuel * distance w ->
    exists n' total',
      interval fuel w n total = Some (n', total')
      /\ total' = Z.of_nat n' * distance w
      /\ (n < n')%nat
      /\ (Z.of_nat n' - 1) * distance w < maxHeight.
Proof.
  intros Hbody Hd. induction fuel as [|fuel IH]; intros n total Htot Hlt Hfuel.
  - change (Z.of_nat 0) with 0 in Hfuel. lia.
  - rewrite interval_step.
    destruct (scrollHeight w n) as [height|] eqn:Eh; [|destruct (Hbody n Eh)].
    destruct ((height - innerHeight w <=? total + distance w)
              || (maxHeight <=? total + distance w)
              || (scrollTimeout <=? now w n - startTime w)) eqn:Estop.
    + exists (S n), (total + distance w). split; [reflexivity|].
      split; [lia|]. split; [lia|]. rewrite Nat2Z.inj_succ. nia.
    + apply orb_false_iff in Estop. destruct Estop as [Estop _].
      apply orb_false_iff in Estop. destruct Estop as [_ Emax].
      apply Z.leb_gt in Emax.
      destruct (IH (S n) (total + distance w)) as (n' & total' & Hi & Ht & Hn & Hb);
        [lia | exact Emax | lia |].
      exists n', total'. split; [exact Hi|]. split; [exact Ht|]. split; [lia | exact Hb].
Qed.

(** With a body and a timer that fires on time the time limit ends the
    loop. *)
Lemma interval_time w :
  has_body w ->
  punctual w ->
  forall fuel n total,
    total = Z.of_nat n * distance w ->
    (n < 200)%nat ->
    (200 <= n + fuel)%nat ->
    exists n' total',
      interval fuel w n total = Some (n', total')
      /\ total' = Z.of_nat n' * distance w
      /\ (n < n' <= 200)%nat.
Proof.
  intros Hbody Hp. induction fuel as [|fuel IH]; intros n total Htot Hn Hfuel.
  - lia.
  - rewrite interval_step.
    destruct (scrollHeight w n) as [height|] eqn:Eh; [|destruct (Hbody n Eh)].
    destruct ((height - innerHeight w <=? total + distance w)
              || (maxHeight <=? total + distance w)
              || (scrollTimeout <=? now w n - startTime w)) eqn:Estop.
    + exists (S n), (total + distance w). split; [reflexivity|].
      split; [lia|]. lia.
    + apply orb_false_iff in Estop. destruct Estop as [_ Etime].
      apply Z.leb_gt in Etime. pose proof (Hp n) as Hnow.
      unfold scrollTimeout in Etime.
      destruct (IH (S n) (total + distance w)) as (n' & total' & Hi & Ht & Hb);
        [lia | lia | lia |].
      exists n', total'. split; [exact Hi|]. split; [exact Ht|]. lia.
Qed.

(** Without a body no firing resolves the promise. *)
Lemma interval_without_body w :
  (forall n, scrollHeight w n = None) ->
  forall fuel n total, interval fuel w n total = None.
Proof.
  intros Hnone. induction fuel as [|fuel IH]; intros n total; [reflexivity|].
  rewrite interval_step, Hnone. apply IH.
Qed.

(** X18. When the scroll script stops.  On a document that has a body at
    every firing of the timer: when the scroll distance is positive the
    promise resolves within 15000 firings however the page grows, the
    page having been scrolled by the distance at each firing and by less
    than 15000 pixels before the last one; and when the timer fires on
    time the promise resolves within 200 firings, whatever the distance.
    On a document that never has a body the callback throws at every
    firing and the promise is never resolved. *)
Theorem auto_scroll_stops :
  forall (w : Window) (fuel : nat),
    (has_body w -> 0 < distance w -> 15000 <= Z.of_nat fuel ->
     exists n total,
       auto_scroll fuel w = Some (n, total)
       /\ total = Z.of_nat n * distance w
       /\ (1 <= n)%nat
       /\ (Z.of_nat n - 1) * distance w < 15000)
    /\ (has_body w -> punctual w -> (200 <= fuel)%nat ->
        exists n total,
          auto_scroll fuel w = Some (n, total)
          /\ total = Z.of_nat n * distance w
          /\ (1 <= n <= 200)%nat)
    /\ ((forall n, scrollHeight w n = None) -> auto_scroll fuel w = None).
Proof.
  intros w fuel. unfold auto_scroll. split; [|split].
  - intros Hbody Hd Hfuel.
    destruct (@interval_height w Hbody Hd fuel 0%nat 0)
      as (n & total & Hi & Ht & Hn & Hb);
      [reflexivity | reflexivity | unfold maxHeight; nia |].
    exists n, total. split; [exact Hi|]. split; [exact Ht|]. split; [lia | exact Hb].
  - intros Hbody Hp Hfuel.
    destruct (@interval_time w Hbody Hp fuel 0%nat 0) as (n & total & Hi & Ht & Hn);
      [reflexivity | lia | lia |].
    exists n, total. split; [exact Hi|]. split; [exact Ht | lia].
  - intros Hnone. apply interval_without_body, Hnone.
Qed.

Lemma auto_scroll_stops_witness :
  distance Pages.endless = 864
  /\ (exists n total,
        auto_scroll (Z.to_nat 15000) Pages.endless = Some (n, total)
        /\ (Z.of_nat n - 1) * distance Pages.endless < 15000)
  /\ (exists n total,
        auto_scroll 200 Pages.endless = Some (n, total) /\ (1 <= n <= 200)%nat)
  /\ auto_scroll 200 Pages.bodiless = None.
Proof.
  split; [vm_compute; reflexivity|]. split; [|split].
  - destruct (auto_scroll_stops Pages.endless (Z.to_nat 15000)) as (Hheight & _ & _).
    destruct Hheight as (n & total & Hi & _ & _ & Hb).
    + intros n. discriminate.
    + vm_compute. reflexivity.
    + rewrite Z2Nat.id; lia.
    + exists n, total. split; assumption.
  - destruct (auto_scroll_stops Pages.endless 200) as (_ & Htime & _).
    destruct Htime as (n & total & Hi & _ & Hn).
    + intros n. discriminate.
    + intros n. simpl. lia.
    + lia.
    + exists n, total. split; assumption.
  - destruct (auto_scroll_stops Pages.bodiless 200) as (_ & _ & Hnone).
    apply Hnone. intros n. reflexivity.
Defined.

End ScrollFacts.

(* ================================================================== *)
(** * Several requests at once: the lock *)

Section GuardFacts.
Import Effects Concurrent Traffic Guard.

Lemma guarded_weaken R held (p : prog R) (post post' : bool -> exn + R -> Prop) :
  (forall h r, post h r -> post' h r) ->
  guarded held p post -> guarded held p post'.
Proof.
  intros Hw. revert held. induction p as [a|e|a k IH|c k IH]; intros held; simpl.
  - apply Hw.
  - apply Hw.
  - intros [Ha Hk]. split; [exact Ha|]. intros v. apply IH, Hk.
  - intros [Hc Hk]. split; [exact Hc|]. intros r. apply IH, Hk.
Qed.

Lemma guarded_bind A B held (p : prog A) (f : A -> prog B) mid post :
  guarded held p mid ->
  (forall h a, mid h (inr a) -> guarded h (f a) post) ->
  (forall h e, mid h (inl e) -> post h (inl e)) ->
  guarded held (bind p f) post.
Proof.
  intros Hp Hf He. revert held Hp.
  induction p as [a|e|a k IH|c k IH]; intros held; simpl.
  - apply Hf.
  - apply He.
  - intros [Ha Hk]. split; [exact Ha|]. intros v. apply IH, Hk.
  - intros [Hc Hk]. split; [exact Hc|]. intros r. apply IH, Hk.
Qed.

Lemma guarded_try_catch A held (catches : exn -> bool) (p : prog A) h mid post :
  guarded held p mid ->
  (forall h' a, mid h' (inr a) -> post h' (inr a)) ->
  (forall h' e, mid h' (inl e) ->
     if catches e then guarded h' (h e) post else post h' (inl e)) ->
  guarded held (try_catch catches p h) post.
Proof.
  intros Hp Hr He. revert held Hp.
  induction p as [a|e|a k IH|c k IH]; intros held; simpl.
  - apply Hr.
  - intros Hm. specialize (He held e Hm). destruct (catches e); exact He.
  - intros [Ha Hk]. split; [exact Ha|]. intros v. apply IH, Hk.
  - intros [Hc Hk]. split; [exact Hc|]. intros r. apply IH, Hk.
Qed.

Lemma guarded_try_finally A held (p : prog A) f mid post :
  guarded held p mid ->
  (forall h r, mid h r ->
     guarded h f
       (fun h' r' =>
          match r' with
          | inr _ => post h' r
          | inl e' => post h' (inl e')
          end)) ->
  guarded held (try_finally p f) post.
Proof.
  intros Hp Hf. revert held Hp.
  induction p as [a|e|a k IH|c k IH]; intros held; simpl.
  - intros Hm. eapply guarded_bind; [apply (Hf held (inr a) Hm)| |];
      simpl; intros; assumption.
  - intros Hm. eapply guarded_bind; [apply (Hf held (inl e) Hm)| |];
      simpl; intros; assumption.
  - intros [Ha Hk]. split; [exact Ha|]. intros v. apply IH, Hk.
  - intros [Hc Hk]. split; [exact Hc|]. intros r. apply IH, Hk.
Qed.

Lemma guarded_timed_out A held (p : prog A) post :
  blind post -> guarded held p post -> guarded held (timed_out p) post.
Proof.
  intros Hb. revert held. induction p as [a|e|a k IH|c k IH]; intros held; simpl.
  - auto.
  - intros H. destruct e; simpl; eauto.
  - intros [Ha Hk]. split; [exact Ha|]. intros v. apply IH, Hk.
  - intros [Hc Hk]. split; [exact Hc|]. intros r. apply IH, Hk.
Qed.

Lemma after_await_cancelled held c :
  after_await held c (inl CancelledError) = held.
Proof. destruct c as [[|]| | | | | | | | | | |]; reflexivity. Qed.

Lemma guarded_wait_for A held timer (p : prog A) post :
  blind post -> guarded held p post -> guarded held (wait_for timer p) post.
Proof.
  intros Hb. destruct timer as [n|]; [|destruct p; intros H; exact H].
  revert held n. induction p as [a|e|a k IH|c k IH]; intros held n; simpl.
  - auto.
  - auto.
  - intros [Ha Hk]. split; [exact Ha|]. intros v. apply IH, Hk.
  - intros [Hc Hk]. destruct n as [|n]; simpl.
    + split; [exact I|]. intros _. apply guarded_timed_out; [exact Hb|].
      specialize (Hk (inl CancelledError)).
      rewrite after_await_cancelled in Hk. exact Hk.
    + split; [exact Hc|]. intros r. apply IH, Hk.
Qed.

(** A coroutine that does not touch the lock or the browser keeps what it
    holds. *)
Lemma free_guarded A held (p : prog A) :
  avoids lock_action lock_call p -> guarded held p (fun h _ => h = held).
Proof.
  induction p as [a|e|a k IH|c k IH]; simpl.
  - reflexivity.
  - reflexivity.
  - intros [Ha Hk].
    destruct a as [[|]| | | | | |]; try discriminate;
      (split; [exact I|]); intros v; apply IH, Hk.
  - intros [Hc Hk].
    destruct c as [[|]| | | | | | | | | | |]; try discriminate;
      (split; [exact I|]); intros r; apply IH, Hk.
Qed.

Lemma guarded_free A held (p : prog A) (post : bool -> exn + A -> Prop) :
  avoids lock_action lock_call p -> (forall r, post held r) ->
  guarded held p post.
Proof.
  intros Hp Hpost. eapply guarded_weaken; [|apply free_guarded, Hp].
  intros h r ->. apply Hpost.
Qed.

Lemma guarded_then_free A B held (p : prog A) (f : A -> prog B) Q :
  guarded held p (fun h _ => Q h) ->
  (forall a, avoids lock_action lock_call (f a)) ->
  guarded held (bind p f) (fun h _ => Q h).
Proof.
  intros Hp Hf. eapply guarded_bind; [exact Hp| |].
  - intros h a HQ. apply guarded_free; [apply Hf | intros; exact HQ].
  - intros h e HQ. exact HQ.
Qed.

Lemma guarded_after_free A B held (p : prog A) (f : A -> prog B) Q :
  avoids lock_action lock_call p ->
  Q held ->
  (forall a, guarded held (f a) (fun h _ => Q h)) ->
  guarded held (bind p f) (fun h _ => Q h).
Proof.
  intros Hp HQ Hf. eapply guarded_bind; [apply free_guarded, Hp| |].
  - intros h a ->. apply Hf.
  - intros h e ->. exact HQ.
Qed.

Lemma guarded_caught A held (catches : exn -> bool) (p : prog A) h Q :
  guarded held p (fun h' _ => Q h') ->
  (forall e, avoids lock_action lock_call (h e)) ->
  guarded held (try_catch catches p h) (fun h' _ => Q h').
Proof.
  intros Hp Hh. eapply guarded_try_catch; [exact Hp| |].
  - intros h' a HQ. exact HQ.
  - intros h' e HQ. destruct (catches e); [|exact HQ].
    apply guarded_free; [apply Hh | intros; exact HQ].
Qed.

(** [async with self._lock]: a body that keeps the lock it is given is run
    with the lock and leaves without it. *)
Lemma with_lock_guarded A (body : prog A) :
  guarded true body (fun h _ => h = true) ->
  guarded false (Pool.with_lock body) (fun h _ => h = false).
Proof.
  intros Hb. unfold Pool.with_lock.
  eapply guarded_bind
    with (mid := fun h r => match r with inr _ => h = true | inl _ => h = false end).
  - simpl. split; [reflexivity|]. intros [e|v]; simpl; reflexivity.
  - intros h _ ->.
    eapply guarded_try_finally; [exact Hb|].
    intros h r ->. simpl. split; [reflexivity|]. intros _. destruct r; reflexivity.
  - intros h e Hh. exact Hh.
Qed.

Lemma close_quietly_guarded :
  guarded true Pool.close_quietly (fun h _ => h = true).
Proof.
  unfold Pool.close_quietly, try_except.
  eapply guarded_try_catch with (mid := fun h _ => h = true).
  - simpl. split; [exact I|]. intros [b|]; simpl.
    + split; [reflexivity|]. intros [e|v]; reflexivity.
    + reflexivity.
  - intros h a Hh. exact Hh.
  - intros h e Hh. destruct (is_Exception e); [exact Hh | exact Hh].
Qed.

Lemma launch_browser_guarded :
  guarded true Pool._launch_browser (fun h _ => h = true).
Proof.
  unfold Pool._launch_browser. simpl. split; [reflexivity|].
  intros [e|b]; simpl; [reflexivity|].
  split; [reflexivity|]. intros _. split; [exact I|]. intros _. reflexivity.
Qed.

Lemma ensure_browser_guarded :
  guarded false Pool._ensure_browser (fun h _ => h = false).
Proof.
  unfold Pool._ensure_browser. apply with_lock_guarded.
  eapply guarded_bind with (mid := fun h _ => h = true).
  - simpl. split; [exact I|]. intros _. reflexivity.
  - intros h b ->.
    eapply guarded_bind with (mid := fun h _ => h = true).
    + destruct b as [b|]; simpl; [|reflexivity].
      split; [exact I|]. intros _. reflexivity.
    + intros h gone ->. destruct gone; [|reflexivity].
      eapply guarded_bind with (mid := fun h _ => h = true).
      * simpl. split; [exact I|]. intros _. reflexivity.
      * intros h _ ->.
        eapply guarded_bind with (mid := fun h _ => h = true);
          [apply close_quietly_guarded | | intros h' e Hh; exact Hh].
        intros h' _ ->. apply launch_browser_guarded.
      * intros h e Hh. exact Hh.
    + intros h e Hh. exact Hh.
  - intros h e Hh. exact Hh.
Qed.

Lemma discard_browser_guarded :
  guarded false (Pool.with_lock (Pool.close_quietly ;; do (set_browser None)))
    (fun h _ => h = false).
Proof.
  apply with_lock_guarded.
  eapply guarded_bind with (mid := fun h _ => h = true);
    [apply close_quietly_guarded | | intros h e Hh; exact Hh].
  intros h _ ->. simpl. split; [reflexivity|]. intros _. reflexivity.
Qed.

Lemma try_open_guarded attempt :
  guarded false (Pool.try_open attempt) (fun h _ => h = false).
Proof.
  unfold Pool.try_open, try_except.
  eapply guarded_try_catch with (mid := fun h _ => h = false).
  - unfold Pool.open_context. simpl. split; [exact I|]. intros [b|]; simpl.
    + split; [exact I|]. intros [e|c]; reflexivity.
    + reflexivity.
  - intros h a Hh. exact Hh.
  - intros h e ->. destruct (is_Exception e); [|reflexivity].
    destruct (attempt =? 0)%nat; [|reflexivity].
    eapply guarded_bind with (mid := fun h _ => h = false).
    + simpl. split; [exact I|]. intros _. reflexivity.
    + intros h _ ->.
      eapply guarded_bind with (mid := fun h _ => h = false);
        [apply discard_browser_guarded | | intros h' e' Hh; exact Hh].
      intros h' _ ->. reflexivity.
    + intros h e' Hh. exact Hh.
Qed.

Lemma attempts_guarded todo :
  guarded false (Pool.attempts todo) (fun h _ => h = false).
Proof.
  induction todo as [|attempt rest IH].
  - reflexivity.
  - change (Pool.attempts (attempt :: rest))
      with (Pool._ensure_browser ;;
            r <- Pool.try_open attempt ;;
            match r with
            | Some c => Ret (Some c)
            | None => Pool.attempts rest
            end).
    eapply guarded_bind with (mid := fun h _ => h = false);
      [apply ensure_browser_guarded | | intros h e Hh; exact Hh].
    intros h _ ->.
    eapply guarded_bind with (mid := fun h _ => h = false);
      [apply try_open_guarded | | intros h e Hh; exact Hh].
    intros h [c|] ->; [reflexivity | apply IH].
Qed.

Lemma acquire_context_guarded :
  guarded false Pool.acquire_context (fun h _ => h = false).
Proof.
  unfold Pool.acquire_context.
  eapply guarded_bind with (mid := fun h _ => h = false).
  - simpl. split; [exact I|]. intros [e|v]; reflexivity.
  - intros h _ ->. unfold try_except.
    apply guarded_caught with (Q := fun h => h = false);
      [apply attempts_guarded|].
    intros e. repeat avoid_step.
  - intros h e Hh. exact Hh.
Qed.

Lemma lease_guarded A (work : option context -> prog A) :
  (forall c, avoids lock_action lock_call (work c)) ->
  guarded false (lease work) (fun h _ => h = false).
Proof.
  intros Hw. unfold lease.
  eapply guarded_bind with (mid := fun h _ => h = false);
    [apply acquire_context_guarded | | intros h e Hh; exact Hh].
  intros h c ->.
  eapply guarded_try_finally with (mid := fun h _ => h = false).
  - apply guarded_free; [apply Hw | reflexivity].
  - intros h r ->. apply guarded_free.
    + avoid_all.
    + intros [e|v]; reflexivity.
Qed.

Lemma blind_unlocked A : blind (fun (h : bool) (_ : exn + A) => h = false).
Proof. intros h r r' H. exact H. Qed.

Lemma served_guarded ot r : guarded false (served ot r) (@unlocked unit).
Proof.
  unfold unlocked.
  destruct r as [cfg [valid reason] ct body | cfg [valid reason] body]; unfold served.
  - apply guarded_then_free with (Q := fun h => h = false); [|intros; exact I].
    unfold Routes.screenshot.
    apply guarded_after_free with (Q := fun h => h = false);
      [avoid_all | reflexivity |]. intros start.
    destruct valid; simpl negb; cbv iota; [|reflexivity].
    apply guarded_caught with (Q := fun h => h = false).
    + apply guarded_then_free with (Q := fun h => h = false); [|intros; avoid_all].
      unfold Capture.capture_screenshot.
      apply guarded_after_free with (Q := fun h => h = false);
        [avoid_all | reflexivity |]. intros start'.
      apply guarded_caught with (Q := fun h => h = false); [|intros; avoid_all].
      apply guarded_then_free with (Q := fun h => h = false); [|intros; avoid_all].
      apply guarded_wait_for; [apply blind_unlocked|].
      rewrite do_capture_is_lease. apply lease_guarded.
      intros c. unfold Capture.take_screenshot. avoid_all.
    + intros e. destruct (is_TimeoutError e); avoid_all.
  - apply guarded_then_free with (Q := fun h => h = false); [|intros; exact I].
    unfold ImageRoutes.extract_images_endpoint.
    destruct valid; simpl negb; cbv iota; [|reflexivity].
    apply guarded_caught with (Q := fun h => h = false).
    + apply guarded_then_free with (Q := fun h => h = false); [|intros; exact I].
      unfold Extract.extract_images.
      apply guarded_after_free with (Q := fun h => h = false);
        [avoid_all | reflexivity |]. intros start.
      apply guarded_then_free with (Q := fun h => h = false); [|intros; avoid_all].
      apply guarded_caught with (Q := fun h => h = false); [|intros; avoid_all].
      apply guarded_wait_for; [apply blind_unlocked|].
      rewrite do_extract_is_lease. apply lease_guarded.
      intros c. avoid_all.
    + intros e. destruct (is_TimeoutError e); avoid_all.
Qed.

Lemma holders_app a b : holders (a ++ b) = holders a + holders b.
Proof. unfold holders. rewrite filter_app, length_app. lia. Qed.

Lemma holders_cons h l : holders (h :: l) = (if h then 1 else 0) + holders l.
Proof.
  unfold holders. destruct h; cbn [filter List.length];
    rewrite ?Nat2Z.inj_succ; lia.
Qed.

Lemma holders_nonneg l : 0 <= holders l.
Proof. unfold holders. lia. Qed.

Ltac lock_unchanged :=
  split; [intros ? ?; congruence|];
  split; [intros ? ?; congruence | intros _; reflexivity].

(** One operation keeps the account of the lock. *)
Lemma task_step_keeps_lock R sh (t : task R) l sh' t' h :
  task_step sh t l sh' t' ->
  guarded h (code t) (@unlocked R) ->
  exists h',
    guarded h' (code t') (@unlocked R)
    /\ (h = true -> h' = false -> locked sh' = false)
    /\ (h = false -> h' = true -> locked sh = false /\ locked sh' = true)
    /\ (h' = h -> locked sh' = locked sh).
Proof.
  intros Hstep Hg.
  destruct Hstep as [a k v sh' Hcode Hacts | c k r sh' Hcode Hans];
    rewrite Hcode in Hg; simpl in Hg; destruct Hg as [Hallowed Hk].
  - exists (after_do h a).
    assert (Hcode' : forall lbl, code (holds_after lbl t (k v)) = k v)
      by (intros [[|]|[|]|[|]| | |]; reflexivity).
    rewrite Hcode'. split; [apply Hk|].
    destruct a as [[|]| | | | | |]; simpl in Hacts, Hallowed |- *.
    + subst sh'. lock_unchanged.
    + subst sh' h. simpl. split; [reflexivity|].
      split; [discriminate | discriminate].
    + destruct Hacts as [_ ->]. lock_unchanged.
    + subst sh'. lock_unchanged.
    + subst sh'. lock_unchanged.
    + subst sh'. lock_unchanged.
    + subst sh'. lock_unchanged.
    + subst sh'. lock_unchanged.
  - exists (after_await h c r).
    assert (Hcode' : forall lbl, code (holds_after lbl t (k r)) = k r)
      by (intros [[|]|[|]|[|]| | |]; reflexivity).
    rewrite Hcode'. split; [apply Hk|].
    destruct c as [[|]| | | | | | | | | | |]; simpl in Hans, Hallowed |- *;
      try (subst sh'; lock_unchanged).
    + destruct r as [e|u]; destruct Hans as [_ ->]; simpl; lock_unchanged.
    + subst h. destruct r as [e|u]; destruct Hans as [Hl ->]; simpl.
      * lock_unchanged.
      * split; [discriminate|]. split; [auto | discriminate].
Qed.

Lemma step_keeps_lock R (cfg cfg' : config R) l :
  step cfg l cfg' -> lock_invariant cfg -> lock_invariant cfg'.
Proof.
  intros Hstep. destruct Hstep as [sh sh' before t t' later l Hstep].
  unfold lock_invariant. simpl. intros (flags & Hall & Hcount).
  apply Forall2_app_inv_l in Hall.
  destruct Hall as (fb & frest & Hb & Hrest & ->).
  inversion Hrest as [|t0 h later0 fl Ht Hlater]; subst t0 later0 frest.
  destruct (@task_step_keeps_lock _ _ _ _ _ _ h Hstep Ht)
    as (h' & Ht' & Hdown & Hup & Hsame).
  exists (fb ++ h' :: fl). split.
  - apply Forall2_app; [exact Hb|]. constructor; assumption.
  - rewrite holders_app, holders_cons in Hcount |- *.
    pose proof (holders_nonneg fb). pose proof (holders_nonneg fl).
    destruct h, h'.
    + rewrite (Hsame eq_refl). exact Hcount.
    + rewrite (Hdown eq_refl eq_refl).
      destruct (locked sh); lia.
    + destruct (Hup eq_refl eq_refl) as [Hfree Htaken].
      rewrite Hfree in Hcount. rewrite Htaken. lia.
    + rewrite (Hsame eq_refl). exact Hcount.
Qed.

Lemma steps_keep_lock R (cfg cfg' : config R) ls :
  steps cfg ls cfg' -> lock_invariant cfg -> lock_invariant cfg'.
Proof.
  induction 1 as [cfg|cfg l cfg1 ls cfg2 Hstep _ IH]; intros Hinv.
  - exact Hinv.
  - apply IH. eapply step_keeps_lock; eassumption.
Qed.

Lemma initial_lock R N b (ps : list (prog R)) :
  Forall (fun p => guarded false p (@unlocked R)) ps ->
  lock_invariant (initial N b ps).
Proof.
  intros Hps. exists (map (fun _ => false) ps). unfold initial. simpl. split.
  - induction Hps as [|p ps Hp _ IH]; simpl; constructor; assumption.
  - unfold holders. induction ps as [|p ps IH]; [reflexivity|].
    inversion Hps; subst. simpl. auto.
Qed.

Lemma critical_holds R (t : task R) h :
  critical t -> guarded h (code t) (@unlocked R) -> h = true.
Proof.
  unfold critical. destruct (code t) as [a|e|a k|c k]; simpl; try tauto.
  - destruct a as [[|]| | | | | |]; simpl; tauto.
  - destruct c as [[|]| | | | | | | | | | |]; simpl; tauto.
Qed.

(** X19. One task at the browser at a time.  Start any number of requests
    of the two routes, each with or without a timer around the whole
    operation that may fire at any await, and let the event loop run their
    operations in any order.  At no moment are two of them about to launch
    the browser, close it, or write the pool's browser handle: whoever is
    there holds the lock, and the lock is then taken. *)
Theorem one_task_at_the_browser :
  forall (N : Z) (b : option browser) (requests : list (option nat * request))
         ls cfg,
    steps (initial N b (map (fun x => served (fst x) (snd x)) requests)) ls cfg ->
    (forall before t1 between t2 later,
        tasks cfg = before ++ t1 :: between ++ t2 :: later ->
        critical t1 -> critical t2 -> False)
    /\ (forall t, In t (tasks cfg) -> critical t -> locked (pool cfg) = true).
Proof.
  intros N b requests ls cfg Hsteps.
  assert (Hinv : lock_invariant cfg).
  { eapply steps_keep_lock; [exact Hsteps|].
    apply initial_lock. apply Forall_map. apply Forall_forall.
    intros [ot r] _. apply served_guarded. }
  destruct Hinv as (flags & Hall & Hcount).
  assert (Hle : holders flags <= 1) by (rewrite Hcount; destruct (locked (pool cfg)); lia).
  split.
  - intros before t1 between t2 later Htasks Hc1 Hc2.
    rewrite Htasks in Hall.
    apply Forall2_app_inv_l in Hall.
    destruct Hall as (f0 & f1 & _ & Hrest & ->).
    inversion Hrest as [|x h1 xs f2 Hg1 Hrest']; subst.
    apply Forall2_app_inv_l in Hrest'.
    destruct Hrest' as (f3 & f4 & _ & Hrest'' & ->).
    inversion Hrest'' as [|y h2 ys f5 Hg2 _]; subst.
    rewrite (@critical_holds _ _ _ Hc1 Hg1), (@critical_holds _ _ _ Hc2 Hg2) in Hle.
    rewrite holders_app, holders_cons, holders_app, holders_cons in Hle.
    pose proof (holders_nonneg f0). pose proof (holders_nonneg f3).
    pose proof (holders_nonneg f5). lia.
  - intros t Hin Hc.
    apply in_split in Hin. destruct Hin as (before & later & Htasks).
    rewrite Htasks in Hall.
    apply Forall2_app_inv_l in Hall.
    destruct Hall as (f0 & f1 & _ & Hrest & ->).
    inversion Hrest as [|x h1 xs f2 Hg1 _]; subst.
    rewrite (@critical_holds _ _ _ Hc Hg1) in Hcount.
    rewrite holders_app, holders_cons in Hcount.
    pose proof (holders_nonneg f0). pose proof (holders_nonneg f2).
    destruct (locked (pool cfg)); [reflexivity | lia].
Qed.

(** Two requests on a pool that has lost its browser: the first takes a
    slot and the lock, finds no browser, and is about to launch one. *)
Lemma relaunch_in_progress :
  exists cfg t,
    steps (initial 3 None
             (map (fun x => served (fst x) (snd x))
                [(None, to_screenshot default_settings (true, None) None
                          Worlds.request);
                 (Some 4%nat, to_extract_images default_settings (true, None)
                                MoreWorlds.bare_request)]))
          [silent; silent; granted Semaphore; granted Lock;
           silent; silent; silent] cfg
    /\ In t (tasks cfg) /\ critical t.
Proof.
  eexists. eexists. unfold initial. cbn [map fst snd]. split.
  - eapply steps_cons.
    { apply step_first.
      eapply (@step_do unit _ _ time_time _ 0); [reflexivity | reflexivity]. }
    eapply steps_cons.
    { apply step_first.
      eapply (@step_do unit _ _ time_time _ 0); [reflexivity | reflexivity]. }
    eapply steps_cons.
    { apply step_first.
      eapply (@step_await unit _ _ (acquire Semaphore) _ (inr tt));
        [reflexivity | simpl; split; [lia | reflexivity]]. }
    eapply steps_cons.
    { apply step_first.
      eapply (@step_await unit _ _ (acquire Lock) _ (inr tt));
        [reflexivity | simpl; split; reflexivity]. }
    eapply steps_cons.
    { apply step_first.
      eapply (@step_do unit _ _ get_browser _ None);
        [reflexivity | simpl; split; reflexivity]. }
    eapply steps_cons.
    { apply step_first.
      eapply (@step_do unit _ _
                (log WARNING "Browser disconnected, relaunching...") _ tt);
        [reflexivity | reflexivity]. }
    eapply steps_cons.
    { apply step_first.
      eapply (@step_do unit _ _ get_browser _ None);
        [reflexivity | simpl; split; reflexivity]. }
    apply steps_nil.
  - split; [left; reflexivity | exact I].
Qed.

Lemma one_task_at_the_browser_witness :
  exists cfg t,
    steps (initial 3 None
             (map (fun x => served (fst x) (snd x))
                [(None, to_screenshot default_settings (true, None) None
                          Worlds.request);
                 (Some 4%nat, to_extract_images default_settings (true, None)
                                MoreWorlds.bare_request)]))
          [silent; silent; granted Semaphore; granted Lock;
           silent; silent; silent] cfg
    /\ In t (tasks cfg) /\ critical t /\ locked (pool cfg) = true.
Proof.
  destruct relaunch_in_progress as (cfg & t & Hsteps & Hin & Hc).
  exists cfg, t. split; [exact Hsteps|]. split; [exact Hin|]. split; [exact Hc|].
  destruct (@one_task_at_the_browser _ _ _ _ _ Hsteps) as [_ Hlocked].
  exact (Hlocked t Hin Hc).
Defined.

End GuardFacts.

(* ================================================================== *)
(** * The URL check *)

Section SecurityFacts.
Import Effects Security.

Variable lower : string -> string.
Variable all_digits : string -> bool.

Lemma mem_spec s l : mem s l = true <-> In s l.
Proof.
  unfold mem. rewrite existsb_exists. split.
  - intros (x & Hin & Heq). apply String.eqb_eq in Heq. now subst.
  - intros Hin. exists s. split; [exact Hin | apply String.eqb_refl].
Qed.

(** The checks of [validate_url], one after the other. *)
Lemma validate_url_checks :
  forall parsed valid reason,
    validate_url lower all_digits parsed = (valid, reason) ->
    (valid = true <-> reason = None)
    /\ (valid = true ->
        exists p,
          parsed = Some p
          /\ (scheme p = "http" \/ scheme p = "https")
          /\ truthy (username p) = false /\ truthy (password p) = false
          /\ let h := match hostname p with
                      | Some (String c h) => String c h
                      | _ => EmptyString
                      end in
             ~ In (lower h) BLOCKED_HOSTNAMES
             /\ (forall suffix, In suffix [".internal"; ".local"; ".localhost"] ->
                   endswith suffix (lower h) = false)
             /\ (forall pattern, In pattern PRIVATE_IP_PATTERNS -> pattern h = false)
             /\ (forall pre, In pre ["127."; "10."; "192.168."; "0."; "169.254."] ->
                   String.prefix pre h = false)
             /\ all_digits h = false /\ octal_ip h = false /\ hex_ip h = false).
Proof.
  intros parsed valid reason. unfold validate_url.
  destruct parsed as [p|];
    [|intros H; inversion H; subst; split; [split|]; discriminate].
  destruct (mem (scheme p) ["http"; "https"]) eqn:Hscheme; simpl negb; cbv iota;
    [|intros H; inversion H; subst; split; [split|]; discriminate].
  set (h := match hostname p with
            | Some (String c h) => String c h
            | _ => EmptyString
            end).
  destruct (mem (lower h) BLOCKED_HOSTNAMES) eqn:Hblocked;
    [intros H; inversion H; subst; split; [split|]; discriminate|].
  destruct (endswith ".internal" (lower h) || endswith ".local" (lower h)
            || endswith ".localhost" (lower h)) eqn:Hsuffix;
    [intros H; inversion H; subst; split; [split|]; discriminate|].
  destruct (existsb (fun pattern => pattern h) PRIVATE_IP_PATTERNS) eqn:Hprivate;
    [intros H; inversion H; subst; split; [split|]; discriminate|].
  destruct (truthy (username p) || truthy (password p)) eqn:Hcred;
    [intros H; inversion H; subst; split; [split|]; discriminate|].
  destruct (all_digits h) eqn:Hdigits;
    [intros H; inversion H; subst; split; [split|]; discriminate|].
  destruct (octal_ip h) eqn:Hoctal;
    [intros H; inversion H; subst; split; [split|]; discriminate|].
  destruct (hex_ip h) eqn:Hhex;
    [intros H; inversion H; subst; split; [split|]; discriminate|].
  intros H. inversion H; subst. clear H.
  split; [split; reflexivity|]. intros _. exists p.
  split; [reflexivity|].
  apply mem_spec in Hscheme.
  split; [destruct Hscheme as [<-|[<-|[]]]; auto|].
  apply orb_false_iff in Hcred. destruct Hcred as [Hu Hp].
  split; [exact Hu|]. split; [exact Hp|]. cbv zeta. fold h.
  apply orb_false_iff in Hsuffix. destruct Hsuffix as [Hsuffix Hs3].
  apply orb_false_iff in Hsuffix. destruct Hsuffix as [Hs1 Hs2].
  assert (Hpat : forall pattern, In pattern PRIVATE_IP_PATTERNS -> pattern h = false).
  { intros pattern Hin. destruct (pattern h) eqn:E; [|reflexivity].
    assert (existsb (fun pattern => pattern h) PRIVATE_IP_PATTERNS = true)
      by (apply existsb_exists; exists pattern; auto).
    congruence. }
  split; [intros Hin; apply mem_spec in Hin; congruence|].
  split; [intros suffix [<-|[<-|[<-|[]]]]; assumption|].
  split; [exact Hpat|].
  split; [|auto].
  intros pre [<-|[<-|[<-|[<-|[<-|[]]]]]]; apply Hpat; unfold PRIVATE_IP_PATTERNS;
    simpl; auto 10.
Qed.

(** X20. The verdict of [validate_url].  The reason is [None] exactly when
    the URL is accepted.  An accepted URL was parsed, has the scheme
    [http] or [https], carries no user name and no password, and its host
    name ([""] when there is none) is, in lower case, none of the blocked
    names and ends with none of [.internal], [.local], [.localhost]; as
    it stands it matches none of the private address patterns, so it
    does not start with [127.], [10.], [192.168.], [0.] or [169.254.],
    and it is not all digits, nor an octal or hexadecimal address. *)
Theorem validate_url_verdict :
  forall parsed valid reason,
    validate_url lower all_digits parsed = (valid, reason) ->
    (valid = true <-> reason = None)
    /\ (valid = true ->
        exists p,
          parsed = Some p
          /\ (scheme p = "http" \/ scheme p = "https")
          /\ truthy (username p) = false /\ truthy (password p) = false
          /\ let h := match hostname p with
                      | Some (String c h) => String c h
                      | _ => EmptyString
                      end in
             ~ In (lower h) BLOCKED_HOSTNAMES
             /\ (forall suffix, In suffix [".internal"; ".local"; ".localhost"] ->
                   endswith suffix (lower h) = false)
             /\ (forall pattern, In pattern PRIVATE_IP_PATTERNS -> pattern h = false)
             /\ (forall pre, In pre ["127."; "10."; "192.168."; "0."; "169.254."] ->
                   String.prefix pre h = false)
             /\ all_digits h = false /\ octal_ip h = false /\ hex_ip h = false).
Proof. exact validate_url_checks. Qed.

(** X21. A rejected URL is answered at once.  When [validate_url] rejects
    the URL, both routes answer 400 with the reason of the check, which is
    never missing; the screenshot route has only read the clock and the
    image route has done nothing. *)
Theorem rejected_url_is_answered :
  forall w cfg parsed ct ot timer body ibody s,
    fst (validate_url lower all_digits parsed) = false ->
    exists msg,
      snd (validate_url lower all_digits parsed) = Some msg
      /\ run w (Routes.screenshot cfg (validate_url lower all_digits parsed)
                  ct ot body) s
         = (Returned (Routes.invalid_url_response (Some msg)), next s,
            [Did time_time])
      /\ run w (ImageRoutes.extract_images_endpoint cfg
                  (validate_url lower all_digits parsed) timer ibody) s
         = (Returned (ImageRoutes.JSONResponse
                        (ImageRoutes.invalid_url_response (Some msg))), s, []).
Proof.
  intros w cfg parsed ct ot timer body ibody s Hrej.
  destruct (validate_url lower all_digits parsed) as [valid reason] eqn:E.
  simpl in Hrej. subst valid.
  destruct reason as [msg|].
  - exists msg. split; [reflexivity|]. split; reflexivity.
  - exfalso.
    assert (Hv : false = true <-> @None string = None)
      by (apply (validate_url_checks _ E)).
    destruct Hv as [_ Hv]. discriminate (Hv eq_refl).
Qed.

End SecurityFacts.

Section SecurityEdges.
Import Effects Security.

Lemma validate_url_verdict_witness :
  exists p,
    Some MoreWorlds.public_url = Some p
    /\ (scheme p = "http" \/ scheme p = "https")
    /\ truthy (username p) = false.
Proof.
  destruct (@validate_url_verdict ascii_lower ascii_digits
              (Some MoreWorlds.public_url) true None eq_refl) as [_ Hacc].
  destruct (Hacc eq_refl) as (p & Hp & Hs & Hu & _).
  exists p. auto.
Defined.

Lemma rejected_url_is_answered_witness :
  exists msg,
    snd (validate_url ascii_lower ascii_digits (Some MoreWorlds.local_url)) = Some msg
    /\ run Worlds.calm
         (Routes.screenshot default_settings
            (validate_url ascii_lower ascii_digits (Some MoreWorlds.local_url))
            None None Worlds.request) Worlds.started
       = (Returned (Routes.invalid_url_response (Some msg)), next Worlds.started,
          [Did time_time]).
Proof.
  destruct (@rejected_url_is_answered ascii_lower ascii_digits Worlds.calm
              default_settings (Some MoreWorlds.local_url) None None None
              Worlds.request MoreWorlds.bare_request Worlds.started eq_refl)
    as (msg & Hmsg & Hshot & _).
  exists msg. split; assumption.
Defined.

(** X22. A dot after a blocked name lets it through.  The blocked host
    names are compared as they are written: each of them followed by a
    dot is accepted with either scheme, lower-casing leaving it as it
    is and the digit test failing on it, as they do on such a name. *)
Theorem blocked_name_with_dot_is_accepted :
  forall (lower : string -> string) (all_digits : string -> bool) name sch,
    In name BLOCKED_HOSTNAMES ->
    In sch ["http"; "https"] ->
    lower (name ++ ".")%string = (name ++ ".")%string ->
    all_digits (name ++ ".")%string = false ->
    validate_url lower all_digits
      (Some {| scheme := sch; hostname := Some (name ++ ".")%string;
               username := None; password := None |})
    = (true, None).
Proof.
  intros lower all_digits name sch Hname Hsch Hl Hd.
  unfold BLOCKED_HOSTNAMES in Hname.
  destruct Hname as [<-|[<-|[<-|[<-|[<-|[]]]]]];
    destruct Hsch as [<-|[<-|[]]];
    unfold validate_url; cbn in Hl, Hd |- *; rewrite Hl; cbn; rewrite Hd;
    reflexivity.
Qed.

Lemma blocked_name_with_dot_is_accepted_witness :
  validate_url ascii_lower ascii_digits
    (Some {| scheme := "http"; hostname := Some "localhost.";
             username := None; password := None |})
  = (true, None)
  /\ fst (validate_url ascii_lower ascii_digits (Some MoreWorlds.local_url)) = false.
Proof.
  split; [|reflexivity].
  apply (@blocked_name_with_dot_is_accepted ascii_lower ascii_digits
           "localhost" "http").
  - left. reflexivity.
  - left. reflexivity.
  - reflexivity.
  - reflexivity.
Defined.

End SecurityEdges.

(* ================================================================== *)
(** * The post-load delay of a capture *)

Section SleepFacts.
Import Effects Readings Claims.

Lemma sleep_calls_app a b : sleep_calls (a ++ b) = sleep_calls a ++ sleep_calls b.
Proof.
  induction a as [|ev a IH]; simpl; [reflexivity|].
  destruct ev as [act|c o]; [exact IH|].
  destruct c; simpl; try exact IH. now rewrite IH.
Qed.

Lemma no_sleep_run A w (p : prog A) s o s' evs :
  avoids (fun _ => false) is_sleep p ->
  run w p s = (o, s', evs) -> sleep_calls evs = [].
Proof.
  intros Hp Hrun. pose proof (avoids_run _ _ w p Hp _ Hrun) as H. clear Hrun Hp.
  induction evs as [|ev evs IH]; [reflexivity|].
  simpl in H. apply andb_true_iff in H. destruct H as [H1 H2].
  destruct ev as [act|c r]; simpl; [apply IH, H2|].
  destruct c; simpl in H1; try discriminate; apply IH, H2.
Qed.

(** The sleeps among the page operations. *)
Lemma sleep_calls_of_page_calls evs :
  sleep_calls evs
  = flat_map (fun c => match c with sleep t => [t] | _ => [] end) (page_calls evs).
Proof.
  induction evs as [|ev evs IH]; [reflexivity|].
  destruct ev as [act|c r]; simpl; [exact IH|].
  destruct c; simpl; try exact IH. now rewrite IH.
Qed.

Lemma returned_try_finally A w (p : prog A) f s a s' evs :
  run w (try_finally p f) s = (Returned a, s', evs) ->
  exists s1 ev1 ev2,
    run w p s = (Returned a, s1, ev1)
    /\ run w f s1 = (Returned tt, s', ev2)
    /\ evs = ev1 ++ ev2.
Proof.
  rewrite run_try_finally.
  destruct (run w p s) as [[o s1] ev1].
  destruct o as [a0|e|]; [| |discriminate];
    destruct (run w f s1) as [[o2 s2] ev2] eqn:E2;
    destruct o2 as [[]|e2|]; intros H; inversion H; subst.
  exists s1, ev1, ev2. auto.
Qed.

(** The pipeline of a capture that reaches its end has slept as
    [post_load_sleep] says, once or not at all. *)
Lemma readiness_sleeps w cfg p target delay s s1 ev1 :
  run w (Capture.readiness cfg p target delay) s = (Returned tt, s1, ev1) ->
  sleep_calls ev1
  = match Capture.post_load_sleep delay (screenshot_post_load_delay cfg) with
    | Some ms => [ms]
    | None => []
    end.
Proof.
  intros H. destruct (@capture_stages_decided _ _ _ _ _ _ _ _ H) as (cs & _ & Hcalls).
  rewrite sleep_calls_of_page_calls, Hcalls. unfold opening, capture_probing, scrolling, capture_sleep.
  destruct (ready cs);
    destruct (Capture.post_load_sleep delay (screenshot_post_load_delay cfg));
    reflexivity.
Qed.

Lemma do_capture_sleeps w cfg timer target full_page fmt quality delay s buffer s' evs :
  run w (Capture._do_capture cfg timer target full_page fmt quality delay) s
    = (Returned buffer, s', evs) ->
  sleep_calls evs
  = match Capture.post_load_sleep delay (screenshot_post_load_delay cfg) with
    | Some ms => [ms]
    | None => []
    end.
Proof.
  unfold Capture._do_capture. intros H.
  apply returned_bind in H. destruct H as (ctx & s1 & eva & evb & Hacq & H & ->).
  apply returned_try_finally in H. destruct H as (s2 & evc & evd & H & Hrel & ->).
  apply returned_bind in H. destruct H as (p & s3 & eve & evf & Hopen & H & ->).
  apply returned_bind in H. destruct H as (u & s4 & evg & evh & Hready & H & ->).
  destruct u.
  rewrite !sleep_calls_app.
  assert (Ha : sleep_calls eva = []).
  { eapply no_sleep_run; [|exact Hacq].
    unfold Pool.acquire_context. rewrite attempts_unfold. avoid_all. }
  assert (Ho : sleep_calls eve = []).
  { eapply no_sleep_run; [|exact Hopen]. avoid_all. }
  assert (Hshot : sleep_calls evh = []).
  { eapply no_sleep_run; [|exact H]. unfold Capture.take_screenshot. avoid_all. }
  assert (Hr : sleep_calls evd = []).
  { eapply no_sleep_run; [|exact Hrel]. avoid_all. }
  rewrite Ha, Ho, Hshot, Hr.
  rewrite (@readiness_sleeps _ _ _ _ _ _ _ _ Hready).
  cbn [app]. rewrite !app_nil_r. reflexivity.
Qed.

(** C7. With a requested delay [d] and a configured post-load delay [p],
    a capture that returns its image has slept
    [min (max d p) 10000] milliseconds after the page was loaded: [_do_capture]
    has called [asyncio.sleep] once, with that value, when [max d p] is
    positive, and has not called it when it is zero or less; no other sleep
    is made.  For [d = 999999] and [p = 5000] the one sleep is of
    10000 ms. *)
Theorem post_load_delay_clamped :
  forall w cfg timer target full_page fmt quality d s buffer s' evs,
    run w (Capture._do_capture cfg timer target full_page fmt quality d) s
      = (Returned buffer, s', evs) ->
    let p := screenshot_post_load_delay cfg in
    sleep_calls evs
      = (if 0 <? Z.max d p then [Z.min (Z.max d p) 10000] else [])
    /\ (0 <= Z.max d p -> slept evs = Z.min (Z.max d p) 10000)
    /\ (d = 999999 -> p = 5000 -> sleep_calls evs = [10000]).
Proof.
  intros w cfg timer target full_page fmt quality d s buffer s' evs H p.
  pose proof (@do_capture_sleeps _ _ _ _ _ _ _ _ _ _ _ _ H) as Hs.
  unfold Capture.post_load_sleep in Hs. fold p in Hs.
  assert (Hcalls : sleep_calls evs
                   = if 0 <? Z.max d p then [Z.min (Z.max d p) 10000] else [])
    by (rewrite Hs; destruct (0 <? Z.max d p); reflexivity).
  split; [exact Hcalls|]. split.
  - intros Hpos. unfold slept. rewrite Hcalls.
    destruct (Z.ltb_spec 0 (Z.max d p)); simpl; lia.
  - intros Hd Hp. rewrite Hcalls, Hd, Hp. reflexivity.
Qed.

Lemma post_load_delay_clamped_witness :
  let '(o, _, evs) :=
    run Worlds.calm
      (Capture._do_capture default_settings None "https://example.com/"
         true "png" 90 999999) Worlds.started in
  (exists buffer, o = Returned buffer)
  /\ sleep_calls evs = [10000] /\ slept evs = 10000.
Proof.
  destruct (run Worlds.calm
              (Capture._do_capture default_settings None "https://example.com/"
                 true "png" 90 999999) Worlds.started) as [[o s'] evs] eqn:E.
  assert (exists buffer, o = Returned buffer) as [buffer ->]
    by (vm_compute in E; inversion E; eexists; reflexivity).
  split; [eexists; reflexivity|].
  destruct (@post_load_delay_clamped _ _ _ _ _ _ _ _ _ _ _ _ E) as (_ & Hslept & Hcalls).
  split; [apply Hcalls; reflexivity|].
  rewrite Hslept; [reflexivity | simpl; lia].
Defined.

End SleepFacts.

(* ================================================================== *)
(** * The counters of an extraction *)

Section CountFacts.
Import Effects Readings Images.

Lemma ends_weaken A (PR PR' : A -> Prop) (PE PE' : exn -> Prop) (p : prog A) :
  (forall a, PR a -> PR' a) -> (forall e, PE e -> PE' e) ->
  ends PR PE p -> ends PR' PE' p.
Proof.
  intros Hr He. induction p as [a|e|a k IH|c k IH]; simpl; auto.
Qed.

Lemma ends_bind A B (PR1 : A -> Prop) (PR : B -> Prop) (PE : exn -> Prop)
    (p : prog A) (f : A -> prog B) :
  ends PR1 PE p -> (forall a, PR1 a -> ends PR PE (f a)) ->
  ends PR PE (bind p f).
Proof.
  intros Hp Hf. induction p as [a|e|a k IH|c k IH]; simpl in *; auto.
Qed.

Lemma ends_try_catch A (PR : A -> Prop) (PE1 PE : exn -> Prop) catches
    (p : prog A) h :
  ends PR PE1 p ->
  (forall e, PE1 e -> if catches e : bool then ends PR PE (h e) else PE e) ->
  ends PR PE (try_catch catches p h).
Proof.
  intros Hp Hh. induction p as [a|e|a k IH|c k IH]; simpl in *; auto.
  specialize (Hh e Hp). destruct (catches e); exact Hh.
Qed.

Lemma ends_try_finally A (PR : A -> Prop) (PE : exn -> Prop) (p : prog A) f :
  ends PR PE p -> ends (fun _ => True) PE f -> ends PR PE (try_finally p f).
Proof.
  intros Hp Hf. induction p as [a|e|a k IH|c k IH]; simpl in *; auto.
  - eapply ends_bind; [exact Hf|]. intros _ _. exact Hp.
  - eapply ends_bind; [exact Hf|]. intros _ _. exact Hp.
Qed.

Lemma ends_ensures A (PR : A -> Prop) PE (p : prog A) :
  ends PR PE p -> ensures PR p.
Proof. induction p as [a|e|a k IH|c k IH]; simpl; auto. Qed.

Lemma cancelled_bind A B (q : prog A) (f : A -> prog B) :
  cancelled q -> cancelled (bind q f).
Proof. intros Hq. eapply ends_bind; [exact Hq|]. intros a []. Qed.

Lemma cancelled_try_catch A catches (q : prog A) h :
  (forall e, is_Exception e = false -> catches e = false) ->
  cancelled q -> cancelled (try_catch catches q h).
Proof.
  intros Hc Hq. eapply ends_try_catch; [exact Hq|].
  intros e He. simpl in He. rewrite (Hc e He). exact He.
Qed.

Lemma cancelled_try_finally A (q : prog A) f :
  cancelled q -> gentle f -> cancelled (try_finally q f).
Proof. intros Hq Hf. apply ends_try_finally; assumption. Qed.

Lemma strict_bind A B (p : prog A) (f : A -> prog B) :
  strict p -> (forall a, strict (f a)) -> strict (bind p f).
Proof.
  intros Hp Hf. induction p as [a|e|a k IH|c k IH]; simpl in *; auto.
  destruct Hp as [Hc Hk]. split; [apply cancelled_bind, Hc | auto].
Qed.

Lemma strict_try_catch A catches (p : prog A) h :
  (forall e, is_Exception e = false -> catches e = false) ->
  strict p -> (forall e, strict (h e)) -> strict (try_catch catches p h).
Proof.
  intros Hc Hp Hh. induction p as [a|e|a k IH|c k IH]; simpl in *; auto.
  - destruct (catches e); [apply Hh | exact I].
  - destruct Hp as [Hq Hk]. split; [apply cancelled_try_catch; assumption | auto].
Qed.

Lemma strict_try_finally A (p : prog A) f :
  strict p -> strict f -> gentle f -> strict (try_finally p f).
Proof.
  intros Hp Hf Hg. induction p as [a|e|a k IH|c k IH]; simpl in *; auto.
  - apply strict_bind; [exact Hf | intros; exact I].
  - apply strict_bind; [exact Hf | intros; exact I].
  - destruct Hp as [Hq Hk]. split; [apply cancelled_try_finally; assumption | auto].
Qed.

Lemma strict_do (a : action) : strict (do a).
Proof. simpl. intros; exact I. Qed.

Lemma strict_await (c : call) : strict (await c).
Proof. simpl. split; [reflexivity | intros [e|v]; exact I]. Qed.

Lemma gentle_do (a : action) : gentle (do a).
Proof. unfold gentle. simpl. intros; exact I. Qed.

Lemma ends_any A (p : prog A) : ends (fun _ => True) (fun _ => True) p.
Proof. induction p; simpl; auto. Qed.

Lemma gentle_release_context c : gentle (Pool.release_context c).
Proof.
  unfold gentle, Pool.release_context, try_except.
  apply ends_try_finally; [|apply gentle_do].
  eapply ends_try_catch; [apply ends_any|].
  intros e _. destruct (is_Exception e) eqn:He; [|reflexivity].
  simpl. intros; exact I.
Qed.

(** A timer that fires inside a strict coroutine keeps it from returning:
    what [wait_for] returns the coroutine has returned by itself. *)
Lemma wait_for_returned A w timer (p : prog A) :
  strict p ->
  forall s a s' evs,
    run w (wait_for timer p) s = (Returned a, s', evs) ->
    run w p s = (Returned a, s', evs).
Proof.
  destruct timer as [n|]; [|intros _ s a s' evs; now rewrite wait_for_none].
  revert n. induction p as [a0|e|a0 k IH|c k IH]; intros n Hp s a s' evs; simpl.
  - auto.
  - auto.
  - destruct (perform w a0 s) as [v s0].
    destruct (run w (wait_for (Some n) (k v)) s0) as [[o s1] ev1] eqn:E.
    intros H. inversion H; subst.
    rewrite (IH v n (Hp v) _ _ _ _ E). reflexivity.
  - destruct Hp as [Hc Hk]. destruct n as [|n]; simpl.
    + destruct (run w (timed_out (k (inl CancelledError))) (next s))
        as [[o s1] ev1] eqn:E.
      intros H. inversion H; subst. exfalso.
      apply ends_ensures in Hc.
      apply (@ensures_run _ (fun _ => False) w _
               (ensures_timed_out _ _ Hc) _ _ _ _ E).
    + destruct (answer w c s) as [r|]; [|discriminate].
      destruct (run w (wait_for (Some n) (k r)) _) as [[o s1] ev1] eqn:E.
      intros H. inversion H; subst.
      rewrite (IH r n (Hk r) _ _ _ _ E). reflexivity.
Qed.

End CountFacts.

Ltac strict_step :=
  match goal with
  | |- Readings.strict (Effects.bind _ _) => apply strict_bind; [|intros]
  | |- Readings.strict (Effects.try_finally _ _) =>
      apply strict_try_finally;
      [ | | first [apply gentle_do | apply gentle_release_context] ]
  | |- Readings.strict (Effects.try_except _ _) =>
      apply strict_try_catch; [intros ? He; exact He | | intros]
  | |- Readings.strict (Effects.try_catch Effects.is_Exception _ _) =>
      apply strict_try_catch; [intros ? He; exact He | | intros]
  | |- Readings.strict (Effects.do _) => apply strict_do
  | |- Readings.strict (Effects.await _) => apply strict_await
  | |- Readings.strict (Effects.Ret _) => exact I
  | |- Readings.strict (Effects.Raise _) => exact I
  | |- Readings.strict (match ?x with _ => _ end) => destruct x
  end.

Ltac strict_all := repeat first [strict_step | progress unfold_coroutines].

Section CountTheorem.
Import Effects Readings Images.

Lemma strict_do_extract cfg target mw mh mx bg :
  strict (Extract._do_extract cfg target mw mh mx bg).
Proof.
  unfold Extract._do_extract, Pool.acquire_context.
  rewrite attempts_unfold. strict_all.
Qed.

(** Every operation takes one tick. *)
Lemma run_ticks A w (p : prog A) :
  forall s o s' evs,
    run w p s = (o, s', evs) -> tick s' = (tick s + List.length evs)%nat.
Proof.
  induction p as [a|e|a k IH|c k IH]; simpl; intros s o s' evs H.
  - inversion H; subst. simpl. lia.
  - inversion H; subst. simpl. lia.
  - destruct (perform w a s) as [v s0] eqn:Ep.
    destruct (run w (k v) s0) as [[o1 s1] ev1] eqn:E.
    inversion H; subst. rewrite (IH v _ _ _ _ E). simpl.
    assert (tick s0 = S (tick s))
      by (destruct a as [[|]| | | | | |]; simpl in Ep; inversion Ep; reflexivity).
    lia.
  - destruct (answer w c s) as [r|] eqn:Ea.
    + destruct (run w (k r) _) as [[o1 s1] ev1] eqn:E.
      inversion H; subst. rewrite (IH r _ _ _ _ E). simpl.
      assert (tick (after c (raised_of r) s) = S (tick s))
        by (destruct c as [[|]| | | | | | | | | | |], (raised_of r); reflexivity).
      lia.
    + inversion H; subst. simpl. lia.
Qed.

Lemma answered_await w (c : call) s v s' evs :
  is_acquire c = false ->
  run w (await c) s = (Returned v, s', evs) ->
  respond w (tick s) c = inr v /\ evs = [Called c None].
Proof.
  intros Hc. simpl.
  assert (Ha : answer w c s = Some (respond w (tick s) c))
    by (destruct c; try discriminate; reflexivity).
  rewrite Ha.
  destruct (respond w (tick s) c) as [e|v0]; [discriminate|].
  intros H. inversion H; subst. auto.
Qed.

(** What [_do_extract] returns is computed on the answer the in-page
    query gave in that run. *)
Lemma do_extract_answer w cfg target mw mh mx bg s result s' evs :
  run w (Extract._do_extract cfg target mw mh mx bg) s = (Returned result, s', evs) ->
  exists pre post p image_data,
    evs = pre ++ Called (evaluate p (EXTRACT_IMAGES_JS bg)) None :: post
    /\ respond w (tick s + List.length pre) (evaluate p (EXTRACT_IMAGES_JS bg))
       = inr image_data
    /\ result = transform image_data mw mh mx.
Proof.
  unfold Extract._do_extract. intros H.
  apply returned_bind in H. destruct H as (ctx & s1 & eva & evb & Hacq & H & ->).
  apply returned_try_finally in H. destruct H as (s2 & evc & evd & H & Hrel & ->).
  apply returned_bind in H. destruct H as (p & s3 & eve & evf & Hopen & H & ->).
  apply returned_bind in H. destruct H as (u & s4 & evg & evh & Hready & H & ->).
  apply returned_bind in H. destruct H as (u' & s5 & evi & evj & Hlog & H & ->).
  apply returned_bind in H. destruct H as (data & s6 & evk & evl & Hquery & H & ->).
  apply answered_await in Hquery; [|reflexivity]. destruct Hquery as [Hanswer ->].
  exists (eva ++ eve ++ evg ++ evi), (evl ++ evd), p, data.
  split; [|split].
  - rewrite <- !app_assoc. reflexivity.
  - rewrite <- Hanswer. f_equal.
    rewrite (run_ticks _ _ _ Hlog), (run_ticks _ _ _ Hready),
      (run_ticks _ _ _ Hopen), (run_ticks _ _ _ Hacq).
    rewrite !length_app. lia.
  - simpl in H. inversion H. reflexivity.
Qed.

Lemma extract_images_answer w cfg timer target min_width min_height mx bg s res s' evs :
  run w (Extract.extract_images cfg timer target min_width min_height mx bg) s
    = (Returned res, s', evs) ->
  exists pre post p image_data elapsed,
    evs = pre ++ Called (evaluate p (EXTRACT_IMAGES_JS bg)) None :: post
    /\ respond w (tick s + List.length pre) (evaluate p (EXTRACT_IMAGES_JS bg))
       = inr image_data
    /\ res = assemble
               (transform image_data
                  match min_width with None => image_min_width cfg | Some v => v end
                  match min_height with None => image_min_height cfg | Some v => v end
                  mx) elapsed.
Proof.
  unfold Extract.extract_images. intros H.
  apply returned_bind in H. destruct H as (start & s1 & ev1 & ev1' & Hstart & H & ->).
  apply returned_bind in H. destruct H as (result & s2 & ev2 & ev2' & Hbody & H & ->).
  apply returned_bind in H. destruct H as (now & s3 & ev3 & ev3' & Hnow & H & ->).
  inversion H; subst. clear H.
  rewrite run_try_catch in Hbody.
  match type of Hbody with context [run w ?q s1] =>
    destruct (run w q s1) as [[o si] evi] eqn:Ei end.
  destruct o as [r|e|].
  - inversion Hbody; subst. clear Hbody.
    apply wait_for_returned in Ei; [|apply strict_do_extract].
    apply do_extract_answer in Ei.
    destruct Ei as (pre & post & p & data & -> & Hanswer & ->).
    exists (ev1 ++ pre), (post ++ ev3 ++ []), p, data, (now - start).
    split; [|split].
    + rewrite <- !app_assoc. reflexivity.
    + rewrite <- Hanswer. f_equal.
      rewrite (run_ticks _ _ _ Hstart), length_app. lia.
    + reflexivity.
  - destruct (is_TimeoutError e); [|discriminate].
    rewrite run_bind in Hbody. simpl in Hbody. discriminate.
  - discriminate.
Qed.

(** C10. Whenever [extract_images] returns a result, the in-page query was
    answered in that run with some [image_data], and of that answer:
    [filteredOut] is the number of raw records the filter drops, and
    [totalImages] is the length of the returned list, which is the
    filtered list cut at [max_images].  The records the cut removes are in
    neither count: when the filtered list is longer than [max_images], the
    two counts add up to less than the number of raw records. *)
Theorem counts_ignore_truncation :
  forall w cfg timer target min_width min_height max_images bg s res s' evs,
    run w (Extract.extract_images cfg timer target min_width min_height
             max_images bg) s = (Returned res, s', evs) ->
    exists pre post p image_data,
      evs = pre ++ Called (evaluate p (EXTRACT_IMAGES_JS bg)) None :: post
      /\ respond w (tick s + List.length pre) (evaluate p (EXTRACT_IMAGES_JS bg))
         = inr image_data
      /\ let mw := match min_width with None => image_min_width cfg | Some v => v end in
         let mh := match min_height with None => image_min_height cfg | Some v => v end in
         let raw := allImages image_data in
         let filtered := _filter_images raw mw mh in
         filteredOut (metadata res)
           = Z.of_nat (List.length
                         (filter (fun img => Wording.droppedb img mw mh) raw))
         /\ result_images res
            = _classify_images (slice_to filtered max_images)
                (pageContext image_data)
         /\ totalImages (metadata res)
            = Z.of_nat (List.length (result_images res))
         /\ (0 <= max_images ->
             totalImages (metadata res)
             = Z.min max_images (Z.of_nat (List.length filtered)))
         /\ (0 <= max_images -> max_images < Z.of_nat (List.length filtered) ->
             totalImages (metadata res) + filteredOut (metadata res)
               < Z.of_nat (List.length raw)).
Proof.
  intros w cfg timer target min_width min_height mx bg s res s' evs H.
  apply extract_images_answer in H.
  destruct H as (pre & post & p & data & elapsed & Hevs & Hanswer & ->).
  exists pre, post, p, data. split; [exact Hevs|]. split; [exact Hanswer|].
  apply transform_counts.
Qed.

Lemma counts_ignore_truncation_witness :
  exists res s' evs,
    run Worlds.calm
      (Extract.extract_images default_settings None "https://example.com/"
         None None 1 false) Worlds.started = (Returned res, s', evs)
    /\ totalImages (metadata res) = 1
    /\ filteredOut (metadata res) = 1
    /\ totalImages (metadata res) + filteredOut (metadata res) < 4.
Proof.
  destruct (run Worlds.calm
              (Extract.extract_images default_settings None "https://example.com/"
                 None None 1 false) Worlds.started) as [[o s'] evs] eqn:E.
  assert (exists res, o = Returned res) as [res ->]
    by (vm_compute in E; inversion E; eexists; reflexivity).
  exists res, s', evs. split; [reflexivity|].
  destruct (@counts_ignore_truncation _ _ _ _ _ _ _ _ _ _ _ _ E)
    as (pre & post & p & data & _ & Hanswer & Hout & _ & _ & Htot & Hless).
  simpl in Hanswer. inversion Hanswer; subst data. clear Hanswer.
  cbv zeta in Hout, Htot, Hless.
  split; [rewrite Htot by lia; vm_compute; reflexivity|].
  split; [rewrite Hout; vm_compute; reflexivity|].
  apply Hless; [lia | vm_compute; reflexivity].
Defined.

End CountTheorem.

(* ================================================================== *)
(** * Callers of [acquire_context] under interleaving *)

Section CallerFacts.
Import Effects Concurrent Callers.

Lemma grants_cons l ls :
  grants (l :: ls) = (if is_granted_semaphore l then 1 else 0) + grants ls.
Proof.
  unfold grants. cbn [filter]. destruct (is_granted_semaphore l);
    cbn [List.length]; rewrite ?Nat2Z.inj_succ; lia.
Qed.

Lemma frees_cons l ls :
  frees (l :: ls) = (if is_freed_semaphore l then 1 else 0) + frees ls.
Proof.
  unfold frees. cbn [filter]. destruct (is_freed_semaphore l);
    cbn [List.length]; rewrite ?Nat2Z.inj_succ; lia.
Qed.

(** One operation moves the permits as its label says. *)
Lemma step_permits R (cfg cfg' : config R) l :
  step cfg l cfg' ->
  permits (pool cfg')
  = permits (pool cfg) - (if is_granted_semaphore l then 1 else 0)
    + (if is_freed_semaphore l then 1 else 0).
Proof.
  intros Hstep. destruct Hstep as [sh sh' before t t' later l Hstep]. simpl.
  destruct Hstep as [a k v sh' Hcode Hacts | c k r sh' Hcode Hans].
  - destruct a as [[|]| | | | | |]; simpl in Hacts |- *.
    + subst sh'. simpl. lia.
    + subst sh'. simpl. lia.
    + destruct Hacts as [_ ->]. lia.
    + subst sh'. simpl. lia.
    + subst sh'. lia.
    + subst sh'. lia.
    + subst sh'. lia.
    + subst sh'. lia.
  - destruct c as [[|]| | | | | | | | | | |]; simpl in Hans |- *.
    + destruct r as [e|u]; destruct Hans as [_ ->]; simpl; lia.
    + destruct r as [e|u]; destruct Hans as [_ ->]; simpl; lia.
    + subst sh'. lia.
    + subst sh'. lia.
    + subst sh'. destruct r; simpl; lia.
    + subst sh'. lia.
    + subst sh'. lia.
    + subst sh'. lia.
    + subst sh'. lia.
    + subst sh'. lia.
    + subst sh'. lia.
    + subst sh'. lia.
    + subst sh'. lia.
Qed.

(** The permits left are the capacity less the grants not yet given
    back. *)
Lemma steps_permits R (cfg cfg' : config R) ls :
  steps cfg ls cfg' ->
  permits (pool cfg') = permits (pool cfg) - grants ls + frees ls.
Proof.
  induction 1 as [cfg|cfg l cfg1 ls cfg2 Hstep _ IH].
  - unfold grants, frees. simpl. lia.
  - rewrite IH, (step_permits Hstep), grants_cons, frees_cons. lia.
Qed.

(** Who frees a slot holds one, and no open context. *)
Lemma freed_by_holder R N (cfg cfg' : config R) :
  invariant N cfg ->
  step cfg (freed Semaphore) cfg' ->
  exists before t later,
    tasks cfg = before ++ t :: later /\ slots t = 1 /\ leases t = [].
Proof.
  intros (_ & _ & Hall) Hstep.
  inversion Hstep as [sh sh' before t t' later l Htask Hcfg Hl Hcfg']; subst.
  simpl in Hall. exists before, t, later. split; [reflexivity|].
  apply Forall_app in Hall. destruct Hall as [_ Hall].
  inversion Hall as [|t0 l0 (st & Hh & Hf) _]; subst.
  inversion Htask as [a k v sh0 Hcode Hacts Hlab | c k r sh0 Hcode Hans Hlab]; subst.
  - rewrite Hcode in Hf. simpl in Hf. destruct Hf as [Hallowed _].
    destruct a as [[|]| | | | | |]; try discriminate.
    simpl in Hallowed. subst st. exact Hh.
  - destruct c as [[|]| | | | | | | | | | |]; simpl in Hlab;
      try destruct r; discriminate.
Qed.

Lemma leases_bound R (ts : list (task R)) :
  Forall (@disciplined R) ts ->
  0 <= total_slots ts
  /\ Z.of_nat (List.length (flat_map (@leases R) ts)) <= total_slots ts.
Proof.
  intros Hts. induction Hts as [|t ts (st & Hh & _) _ [IH0 IH]]; simpl; [lia|].
  rewrite length_app, Nat2Z.inj_add.
  destruct (@holds_bounds _ _ _ Hh). lia.
Qed.

(** C2. Start any number of callers of [acquire_context] on a pool of
    [N] permits, each working on the context it was given without touching
    the pool and giving it back with [release_context] in a [finally], as
    [_do_capture] and [_do_extract] do, and let the event loop run their
    operations in any order, the browser answering anything.  At every
    moment at most [N] contexts are open.  An acquisition is granted only
    while fewer than [N] of the earlier grants have not been given back:
    after [N] grants the next one waits for a release.  Whoever releases
    holds a slot and no open context: it is one of the callers granted
    before, past the closing of its context.  So while [N] contexts are
    open the semaphore is neither granted nor released: the next
    acquisition resolves only after one of the holders has closed its
    context and given its slot back. *)
Theorem pool_capacity_bounds_contexts :
  forall (A : Type) (N : Z) (b : option browser)
         (works : list (option context -> prog A)) ls cfg,
    0 <= N ->
    Forall (fun work => forall c, quiet (work c)) works ->
    steps (initial N b (map (@lease A) works)) ls cfg ->
    Z.of_nat (List.length (open_contexts cfg)) <= N
    /\ 0 <= grants ls - frees ls <= N
    /\ (forall cfg', step cfg (granted Semaphore) cfg' ->
          grants ls - frees ls < N)
    /\ (forall cfg', step cfg (freed Semaphore) cfg' ->
          0 < grants ls - frees ls
          /\ exists before t later,
               tasks cfg = before ++ t :: later
               /\ slots t = 1 /\ leases t = [])
    /\ (Z.of_nat (List.length (open_contexts cfg)) = N ->
        forall cfg',
          ~ step cfg (granted Semaphore) cfg'
          /\ ~ step cfg (freed Semaphore) cfg').
Proof.
  intros A N b works ls cfg HN Hworks Hsteps.
  assert (Hinv : invariant N cfg).
  { eapply steps_keep_invariant; [exact Hsteps|].
    apply initial_invariant; [exact HN|].
    apply Forall_map. eapply Forall_impl; [|exact Hworks].
    intros work Hq. apply lease_follows, Hq. }
  pose proof (open_contexts_bound Hinv) as Hopen.
  pose proof (steps_permits Hsteps) as Hpermits. simpl in Hpermits.
  pose proof Hinv as (Hpos & Hsum & Hall).
  assert (Hheld : 0 <= total_slots (tasks cfg)).
  { clear - Hall. induction Hall as [|t ts (st & Hh & _) _ IH]; simpl; [lia|].
    destruct (@holds_bounds _ _ _ Hh). lia. }
  split; [lia|]. split; [lia|]. split; [|split].
  - intros cfg' Hstep. apply granted_needs_permit in Hstep. lia.
  - intros cfg' Hstep. split.
    + destruct (freed_by_holder Hinv Hstep) as (before & t & later & Ht & Hs & _).
      rewrite Ht, total_slots_app in Hsum. simpl in Hsum.
      rewrite Ht in Hall. apply Forall_app in Hall. destruct Hall as [Hb Hl].
      inversion Hl as [|t0 l0 _ Hlater]; subst.
      assert (Hnn : forall ts : list (task A),
                 Forall (@disciplined A) ts -> 0 <= total_slots ts).
      { clear. intros ts Hts.
        induction Hts as [|x xs (st & Hh & _) _ IH]; simpl; [lia|].
        destruct (@holds_bounds _ _ _ Hh). lia. }
      pose proof (Hnn _ Hb). pose proof (Hnn _ Hlater). lia.
    + apply (freed_by_holder Hinv Hstep).
  - intros Hfull cfg'. split; intros Hstep.
    + apply granted_needs_permit in Hstep. lia.
    + destruct (freed_by_holder Hinv Hstep) as (before & t & later & Ht & Hs & Hl).
      unfold open_contexts in Hfull.
      rewrite Ht in Hfull. rewrite Ht in Hsum. rewrite Ht in Hall.
      apply Forall_app in Hall. destruct Hall as [Hb Hrest].
      inversion Hrest as [|t0 l0 _ Hlater]; subst t0 l0.
      destruct (leases_bound Hb) as [_ Hb']. destruct (leases_bound Hlater) as [_ Hl'].
      rewrite flat_map_app in Hfull. simpl in Hfull. rewrite Hl in Hfull.
      simpl in Hfull. rewrite length_app, Nat2Z.inj_add in Hfull.
      rewrite total_slots_app in Hsum. simpl in Hsum. lia.
Qed.

Lemma lease_capture_work cfg timer target full_page fmt quality delay :
  lease (capture_work cfg timer target full_page fmt quality delay)
  = Capture._do_capture cfg timer target full_page fmt quality delay.
Proof. reflexivity. Qed.

(** Two captures on a pool of one permit: the first is granted. *)
Lemma two_callers_start :
  exists cfg,
    steps (initial 1 (Some 1%nat)
             [Capture._do_capture default_settings None "https://example.com/"
                true "png" 90 0;
              Capture._do_capture default_settings None "https://example.org/"
                true "jpeg" 80 0])
          [granted Semaphore] cfg.
Proof.
  eexists. unfold initial. cbn [map].
  eapply steps_cons; [|apply steps_nil].
  apply step_first.
  eapply (@step_await bytes _ _ (acquire Semaphore) _ (inr tt));
    [reflexivity | simpl; split; [lia | reflexivity]].
Qed.

Lemma pool_capacity_bounds_contexts_witness :
  exists cfg,
    steps (initial 1 (Some 1%nat)
             [Capture._do_capture default_settings None "https://example.com/"
                true "png" 90 0;
              Capture._do_capture default_settings None "https://example.org/"
                true "jpeg" 80 0])
          [granted Semaphore] cfg
    /\ Z.of_nat (List.length (open_contexts cfg)) <= 1
    /\ forall cfg', ~ step cfg (granted Semaphore) cfg'.
Proof.
  destruct two_callers_start as [cfg Hsteps]. exists cfg.
  split; [exact Hsteps|].
  assert (Hworks : Forall (fun work : option context -> prog bytes =>
                             forall c, quiet (work c))
                     [capture_work default_settings None "https://example.com/"
                        true "png" 90 0;
                      capture_work default_settings None "https://example.org/"
                        true "jpeg" 80 0]).
  { constructor; [|constructor; [|constructor]]; intros c; unfold quiet;
      unfold capture_work, Capture.take_screenshot; avoid_all. }
  destruct (@pool_capacity_bounds_contexts bytes 1 (Some 1%nat) _
              [granted Semaphore] cfg ltac:(lia) Hworks Hsteps)
    as (Hopen & _ & Hgrant & _).
  split; [exact Hopen|].
  intros cfg' Hstep. specialize (Hgrant cfg' Hstep).
  vm_compute in Hgrant. discriminate.
Defined.

End CallerFacts.
